(** * mdtocgen: a table of contents for a directory of Markdown files

    A shallow embedding of [main.go].  The file holds two versions of the
    program; this is the later one, whose [CreateTocTree] sorts the children
    and takes the flag [sortAsc] (the earlier one follows it, in the module
    [v1]).  [ListMDFiles] builds a tree of [MDFileInfo]
    nodes from a walk of the file system, [GetMDTitle] reads the first
    level-1 heading of a document, and [CreateTocTree] renders the tree as
    Markdown.

    The Go standard library functions the program calls ([strings.Replace],
    [strings.Split], [strings.Repeat], [filepath.Ext], [filepath.Dir],
    [filepath.Join], [filepath.Base], [url.PathEscape], [bufio.ScanLines],
    [regexp], [sort]) are modelled after their Unix implementations.  Go
    strings are byte sequences; they are [string]s (lists of [ascii] bytes)
    here. *)

From Stdlib Require Import Ascii NArith.
From stdpp Require Import gmap strings list fin_maps sorting.

(** ** Bytes *)

Definition byte_in (lo hi c : ascii) : bool :=
  (N_of_ascii lo <=? N_of_ascii c)%N && (N_of_ascii c <=? N_of_ascii hi)%N.

(** [os.IsPathSeparator] on Unix. *)
Definition IsPathSeparator (c : ascii) : bool := Ascii.eqb c "/".

Fixpoint take_while {A} (f : A → bool) (l : list A) : list A :=
  match l with
  | x :: l' => if f x then x :: take_while f l' else []
  | [] => []
  end.

Fixpoint drop_while {A} (f : A → bool) (l : list A) : list A :=
  match l with
  | x :: l' => if f x then drop_while f l' else l
  | [] => []
  end.

(** ** package strings *)

Module strings.

(** [strings.Repeat(s, count)] for a count that is not negative. *)
Fixpoint Repeat (s : string) (count : nat) : string :=
  match count with
  | 0 => ""
  | S n => s +:+ Repeat s n
  end.

Fixpoint drop (n : nat) (s : string) : string :=
  match n, s with
  | S n', String _ s' => drop n' s'
  | _, _ => s
  end.

Fixpoint replace_first (s old new : string) : string :=
  if String.prefix old s then new +:+ drop (String.length old) s
  else match s with
       | "" => ""
       | String c s' => String c (replace_first s' old new)
       end.

(** [strings.Replace(s, old, new, 1)]: the first instance of [old] is
    replaced; an empty [old] matches at the beginning of the string. *)
Definition Replace1 (s old new : string) : string :=
  if decide (old = new) then s else replace_first s old new.

(** [strings.Split(s, sep)] for a separator of one byte: the pieces between
    the separators, one more than there are separators. *)
Fixpoint Split (s : string) (sep : ascii) : list string :=
  match s with
  | "" => [""]
  | String c s' =>
      if Ascii.eqb c sep then "" :: Split s' sep
      else match Split s' sep with
           | piece :: pieces => String c piece :: pieces
           | [] => [String c ""]
           end
  end.

End strings.

(** ** package path/filepath (Unix) *)

Module filepath.

(** The element at the head of [path], up to the next separator, and what
    follows it. *)
Fixpoint element (path : string) : list ascii * string :=
  match path with
  | "" => ([], "")
  | String c rest =>
      if IsPathSeparator c then ([], path)
      else let '(el, rest') := element rest in (c :: el, rest')
  end.

Definition ends_element (rest : string) : bool :=
  match rest with
  | "" => true
  | String c _ => IsPathSeparator c
  end.

(** The inner loop of the [..] case of [Clean]; the buffer is kept in
    reverse, [c0] is the byte at [out.w]:
    [for out.w > dotdot && !os.IsPathSeparator(out.index(out.w)) { out.w-- }] *)
Fixpoint unwind (dotdot : nat) (c0 : ascii) (out : list ascii) : list ascii :=
  match out with
  | [] => []
  | c :: out' =>
      if (dotdot <? length out) && negb (IsPathSeparator c0)
      then unwind dotdot c out'
      else out
  end.

(** The four cases of the [switch] in the loop of [Clean], decided on the
    bytes at [path[r]], [path[r+1]] and [path[r+2]]. *)
Variant element_kind :=
  | EmptyElement                  (* a separator *)
  | DotElement                    (* [.] *)
  | DotDotElement (rest : string) (* [..], and what follows it *)
  | RealElement.

Definition classify (c : ascii) (rest : string) : element_kind :=
  if IsPathSeparator c then EmptyElement
  else if Ascii.eqb c "." && ends_element rest then DotElement
  else match rest with
       | String c1 rest2 =>
           if Ascii.eqb c "." && Ascii.eqb c1 "." && ends_element rest2
           then DotDotElement rest2 else RealElement
       | "" => RealElement
       end.

(** The main loop of [Clean]: [path] is what is left to read, [out] the
    buffer written so far (in reverse), [dotdot] the index where [..] must
    stop.  Every iteration reads at least one byte, so [fuel] is the number
    of bytes left. *)
Fixpoint clean_loop (fuel : nat) (rooted : bool) (path : string)
    (out : list ascii) (dotdot : nat) : list ascii :=
  match fuel, path with
  | 0, _ | _, "" => out
  | S fuel', String c rest =>
      match classify c rest with
      | EmptyElement | DotElement =>
          clean_loop fuel' rooted rest out dotdot
      | DotDotElement rest2 =>
          (* remove to last separator *)
          match out with
          | c0 :: out' =>
              if dotdot <? length out then
                (* can backtrack *)
                clean_loop fuel' rooted rest2 (unwind dotdot c0 out') dotdot
              else if negb rooted then
                (* cannot backtrack, but not rooted, so append .. element *)
                let out2 := "."%char :: "."%char :: "/"%char :: out in
                clean_loop fuel' rooted rest2 out2 (length out2)
              else clean_loop fuel' rooted rest2 out dotdot
          | [] =>
              if negb rooted then
                clean_loop fuel' rooted rest2 ["."%char; "."%char] 2
              else clean_loop fuel' rooted rest2 out dotdot
          end
      | RealElement =>
          (* add slash if needed, copy element *)
          let out1 :=
            if (rooted && negb (length out =? 1))
               || (negb rooted && negb (length out =? 0))
            then "/"%char :: out else out in
          let '(el, rest') := element path in
          clean_loop fuel' rooted rest' (rev el ++ out1) dotdot
      end
  end.

(** [filepath.Clean]. *)
Definition Clean (path : string) : string :=
  match path with
  | "" => "."
  | String c rest =>
      let rooted := IsPathSeparator c in
      let out :=
        if rooted then clean_loop (String.length path) true rest ["/"%char] 1
        else clean_loop (String.length path) false path [] 0 in
      match out with
      | [] => "."
      | _ => String.string_of_list_ascii (rev out)
      end
  end.

(** [filepath.Dir]: all but the last element of [path], cleaned.  The loop
    [for i >= 0 && !os.IsPathSeparator(path[i]) { i-- }] runs from the end
    of the path. *)
Definition Dir (path : string) : string :=
  let upto_sep :=
    rev (drop_while (λ c, negb (IsPathSeparator c))
           (rev (String.list_ascii_of_string path))) in
  Clean (String.string_of_list_ascii upto_sep).

(** The loop of [Ext], from the last byte backwards; [suffix] is
    [path[i+1:]]. *)
Fixpoint ext_scan (rpath suffix : list ascii) : string :=
  match rpath with
  | [] => ""
  | c :: rpath' =>
      if IsPathSeparator c then ""
      else if Ascii.eqb c "." then String.string_of_list_ascii (c :: suffix)
      else ext_scan rpath' (c :: suffix)
  end.

(** [filepath.Ext]: the suffix beginning at the final dot in the final
    element of [path]; empty if there is no dot. *)
Definition Ext (path : string) : string :=
  ext_scan (rev (String.list_ascii_of_string path)) [].

(** [filepath.Join] of two elements: the first empty elements are ignored,
    the rest is joined with the separator and cleaned. *)
Definition Join (a b : string) : string :=
  if decide (a = "") then
    if decide (b = "") then "" else Clean b
  else Clean (a +:+ "/" +:+ b).

(** [filepath.Base]: the last element of [path], trailing separators
    removed first. *)
Definition Base (path : string) : string :=
  if decide (path = "") then "." else
  let stripped :=
    drop_while IsPathSeparator (rev (String.list_ascii_of_string path)) in
  let last := rev (take_while (λ c, negb (IsPathSeparator c)) stripped) in
  match last with
  | [] => "/"
  | _ => String.string_of_list_ascii last
  end.

End filepath.

(** ** package net/url *)

Module url.

Definition one_of (set : string) (c : ascii) : bool :=
  existsb (Ascii.eqb c) (String.list_ascii_of_string set).

(** [shouldEscape(c, encodePathSegment)]. *)
Definition shouldEscape (c : ascii) : bool :=
  if byte_in "a" "z" c || byte_in "A" "Z" c || byte_in "0" "9" c then false
  else if one_of "-_.~" c then false
  else if one_of "$&+,/:;=?@" c then
    (* The RFC allows : @ & = + $ but saves / ; , for assigning meaning to
       individual path segments. *)
    one_of "/;,?" c
  else true.

Definition upperhex (n : N) : ascii :=
  nth (N.to_nat n) (String.list_ascii_of_string "0123456789ABCDEF") "0"%char.

Definition escape_byte (c : ascii) : string :=
  if shouldEscape c then
    String "%" (String (upperhex (N.shiftr (N_of_ascii c) 4))
                  (String (upperhex (N.land (N_of_ascii c) 15)) ""))
  else String c "".

(** [url.PathEscape]: the string escaped so that it can be placed inside a
    URL path segment, every byte that [shouldEscape] replaced by [%XX]. *)
Fixpoint PathEscape (s : string) : string :=
  match s with
  | "" => ""
  | String c s' => escape_byte c +:+ PathEscape s'
  end.

End url.

(** ** package bufio *)

(** How the loop [for scanner.Scan()] ends: at the end of the file, or on an
    error of the scanner (a read error, or a line too long for its buffer). *)
Variant scan_end := AtEOF | ReadError.

Module bufio.

Definition newline : ascii := ascii_of_nat 10.
Definition carriage_return : ascii := ascii_of_nat 13.

Definition MaxScanTokenSize : N := 64 * 1024.

(** [dropCR] drops a terminal carriage return. *)
Definition dropCR (data : string) : string :=
  match rev (String.list_ascii_of_string data) with
  | c :: rdata =>
      if Ascii.eqb c carriage_return
      then String.string_of_list_ascii (rev rdata) else data
  | [] => data
  end.

(** A line is a token when it fits the buffer with its newline; the scanner
    stops with [ErrTooLong] where the buffer is full and holds no token. *)
Definition fits (piece : string) : bool :=
  (N.of_nat (String.length piece) <? MaxScanTokenSize)%N.

Fixpoint tokens (pieces : list string) : list string * scan_end :=
  match pieces with
  | [] => ([], AtEOF)
  | piece :: pieces' =>
      if fits piece then
        match pieces' with
        | [] => (if decide (piece = "") then [] else [dropCR piece], AtEOF)
        | _ => let '(lines, stop) := tokens pieces' in (dropCR piece :: lines, stop)
        end
      else ([], ReadError)
  end.

(** The tokens a [Scanner] with the split function [ScanLines] yields on a
    stream whose reads do not fail: the lines, each stripped of its end of
    line marker (a newline, with one optional carriage return before it);
    the last line needs no newline, and an empty last line is no token. *)
Definition ScanLines (data : string) : list string * scan_end :=
  tokens (strings.Split data newline).

End bufio.

(** ** package regexp: the pattern of [h1Regex] *)

Module regexp.

(** The Perl class [\s] of Go's syntax: [[\t\n\f\r ]]. *)
Definition is_space (c : ascii) : bool :=
  existsb (λ n, Ascii.eqb c (ascii_of_nat n)) [9; 10; 12; 13; 32].

Fixpoint skip_space (s : string) : string :=
  match s with
  | String c s' => if is_space c then skip_space s' else s
  | "" => ""
  end.

Fixpoint has_newline (s : string) : bool :=
  match s with
  | String c s' => Ascii.eqb c bufio.newline || has_newline s'
  | "" => false
  end.

(** The pattern is [^#\s+(G)$] with [.*] for [G].
    [h1Regex.FindStringSubmatch(line)[1]] when the pattern matches, [None]
    when [h1Regex.MatchString(line)] is false.  The pattern is anchored at
    both ends of the text (no flag [m]): the text starts with [#], a
    greedy, not empty run of [\s] follows, and the group, which
    matches no newline, takes all the rest. *)
Definition h1Regex (line : string) : option string :=
  match line with
  | String c0 (String c rest) =>
      if Ascii.eqb c0 "#" && is_space c then
        let text := skip_space rest in
        if has_newline text then None else Some text
      else None
  | _ => None
  end.

End regexp.

(** ** package sort *)

Module sort.

(** Go compares strings byte by byte; so does [String.le], which is
    [String.leb]. *)
Definition string_le : relation string := String.le.

(** [sort.Strings(keys)]: the keys in increasing order. *)
Definition Strings (keys : list string) : list string :=
  merge_sort string_le keys.

(** [sort.Sort(sort.Reverse(sort.StringSlice(keys)))]: the same sort with
    the comparison [Less] flipped. *)
Definition ReverseStrings (keys : list string) : list string :=
  merge_sort (flip string_le) keys.

End sort.

(** [String.le] is a total order, and so is the flipped comparison. *)
#[export] Instance string_ge_total : Total (flip sort.string_le).
Proof. intros s1 s2. apply (total sort.string_le). Qed.

#[export] Instance string_ge_antisymm : AntiSymm (=) (flip sort.string_le).
Proof. intros s1 s2 H1 H2. by apply (anti_symm sort.string_le). Qed.

#[export] Instance string_ge_trans : Transitive (flip sort.string_le).
Proof. intros s1 s2 s3 H1 H2. by apply (transitivity (R:=sort.string_le) H2 H1). Qed.

(** * The program *)

Definition LF : string := String bufio.newline "".

(** ** Data *)

(** [type MDFileInfo struct].  [Children] is a Go map: [None] is the nil map
    of a node that was built without one.  [Level] is a Go [int]; the program
    stores 0 in the root and the parent's level plus one elsewhere, so it is a
    natural number bounded by the number of elements of a path. *)
#[local] Unset Elimination Schemes.
Inductive MDFileInfo := mkMDFileInfo {
  IsDir : bool;
  Children : option (gmap string MDFileInfo);
  Title : string;
  Level : nat;
  Path : string }.
#[local] Set Elimination Schemes.

(** The zero value of the struct, what a map yields for a missing key. *)
Definition zero_MDFileInfo : MDFileInfo :=
  {| IsDir := false; Children := None; Title := ""; Level := 0; Path := "" |}.

(** The map [md.Children] with one entry set; the other fields of the struct
    are not touched.  A map is shared by every copy of the struct that holds
    it, so the assignment [p.Children[k] = v] on a copy [p] of a node shows in
    the tree: it is the node with its map updated. *)
Definition set_child (md : MDFileInfo) (ch : gmap string MDFileInfo)
    (key : string) (v : MDFileInfo) : MDFileInfo :=
  {| IsDir := IsDir md; Children := Some (<[key := v]> ch);
     Title := Title md; Level := Level md; Path := Path md |}.

Definition set_title (md : MDFileInfo) (title : string) : MDFileInfo :=
  {| IsDir := IsDir md; Children := Children md;
     Title := title; Level := Level md; Path := Path md |}.

Definition error := string.

(** A run of the program either goes on or stops in a runtime panic. *)
Variant outcome (A : Type) :=
  | Ok (a : A)
  | Panic.
Arguments Ok {A} a.
Arguments Panic {A}.

(** What [os.Open] and the [bufio.Scanner] make of a file: it cannot be
    opened, or it is opened and [scanner.Scan()] yields [lines] before it
    returns false, at the end of the file or on an error.  The program never
    asks the scanner which of the two it was. *)
Variant File :=
  | OpenFails
  | Opens (lines : list string) (stop : scan_end).

(** A file with the bytes [data], whose reads do not fail. *)
Definition file_of (data : string) : File :=
  let '(lines, stop) := bufio.ScanLines data in Opens lines stop.

(** [os.FileInfo], as far as the program looks at it. *)
Record FileInfo := { Name : string; InfoIsDir : bool }.

(** One call of the function given to [filepath.Walk]: its three arguments,
    and the file that [os.Open(path)] finds.  With an error, [info] may be nil
    in Go; the function returns before it looks at it. *)
Record WalkEntry := {
  we_path : string;
  we_info : FileInfo;
  we_err : option error;
  we_file : File }.


(** ** GetMDTitle *)

(** The loop [for scanner.Scan()]. *)
Fixpoint scan_title (lines : list string) : string :=
  match lines with
  | [] => ""
  | line :: lines' =>
      match regexp.h1Regex line with
      | Some text => text
      | None => scan_title lines'
      end
  end.

Definition GetMDTitle (file : File) : string :=
  match file with
  | OpenFails => ""
  | Opens lines _ => scan_title lines
  end.

(** ** ListMDFiles *)

Definition root_MDFileInfo : MDFileInfo :=
  {| IsDir := true; Children := Some ∅; Level := 0; Title := ""; Path := "." |}.

Definition dir_MDFileInfo (p : MDFileInfo) (d : string) : MDFileInfo :=
  {| IsDir := true; Children := Some ∅; Level := Level p + 1; Title := d;
     Path := url.PathEscape (filepath.Join (Path p) d) |}.

Definition doc_MDFileInfo (p : MDFileInfo) (title path : string) : MDFileInfo :=
  {| IsDir := false; Children := None; Level := Level p + 1; Title := title;
     Path := path |}.

(** The loop over [dirs] and the assignment of the document after it, from
    the node [p].  An assignment to an entry of a nil map panics. *)
Fixpoint insert_doc (p : MDFileInfo) (dirs : list string)
    (name title path : string) : outcome MDFileInfo :=
  match dirs with
  | [] =>
      match Children p with
      | Some ch => Ok (set_child p ch name (doc_MDFileInfo p title path))
      | None => Panic
      end
  | d :: dirs' =>
      if decide (d = ".") then insert_doc p dirs' name title path
      else
        match Children p with
        | Some ch =>
            let child :=
              match ch !! d with
              | Some child => child
              | None => dir_MDFileInfo p d
              end in
            match insert_doc child dirs' name title path with
            | Ok child' => Ok (set_child p ch d child')
            | Panic => Panic
            end
        | None => Panic
        end
  end.

(** The runs of [insert_doc] that do not panic, case by case: the document
    is assigned at the end of [dirs], a directory ["."] is passed over, any
    other directory is gone into, the one of the map if it is there and a
    new one if not. *)
Inductive inserts (name title path : string)
    : MDFileInfo → list string → MDFileInfo → Prop :=
  | inserts_here p ch :
      Children p = Some ch →
      inserts name title path p []
        (set_child p ch name (doc_MDFileInfo p title path))
  | inserts_dot p dirs p' :
      inserts name title path p dirs p' →
      inserts name title path p ("." :: dirs) p'
  | inserts_below p ch d dirs child' :
      d ≠ "." → Children p = Some ch →
      inserts name title path
        (default (dir_MDFileInfo p d) (ch !! d)) dirs child' →
      inserts name title path p (d :: dirs) (set_child p ch d child').

(** We get Markdown files only. *)
Definition is_markdown (e : WalkEntry) : bool :=
  negb (InfoIsDir (we_info e))
  && negb (String.eqb (Name (we_info e)) "README.md")
  && String.eqb (filepath.Ext (we_path e)) ".md".

Definition relPath (dirPath : string) (e : WalkEntry) : string :=
  strings.Replace1 (we_path e) dirPath ".".

Definition dirs_of (dirPath : string) (e : WalkEntry) : list string :=
  strings.Split (filepath.Dir (relPath dirPath e)) "/".

(** The function literal given to [filepath.Walk]; [root] is the variable it
    closes over. *)
Definition walkFn (dirPath : string) (e : WalkEntry) (root : MDFileInfo)
    : outcome (MDFileInfo * option error) :=
  match we_err e with
  | Some err => Ok (root, Some err)
  | None =>
      if is_markdown e then
        match insert_doc root (dirs_of dirPath e) (Name (we_info e))
                (GetMDTitle (we_file e)) (url.PathEscape (relPath dirPath e)) with
        | Ok root' => Ok (root', None)
        | Panic => Panic
        end
      else Ok (root, None)
  end.

(** [filepath.Walk] on the calls it makes, in its order: it stops with the
    first error its function returns. *)
Fixpoint Walk {St : Type} (entries : list WalkEntry)
    (fn : WalkEntry → St → outcome (St * option error)) (st : St)
    : outcome (St * option error) :=
  match entries with
  | [] => Ok (st, None)
  | e :: entries' =>
      match fn e st with
      | Ok (st', None) => Walk entries' fn st'
      | Ok (st', Some err) => Ok (st', Some err)
      | Panic => Panic
      end
  end.

(** The calls that come before the first one with an error, and that
    error: [Walk] makes no call after it. *)
Fixpoint delivered (entries : list WalkEntry) : list WalkEntry :=
  match entries with
  | [] => []
  | e :: entries' =>
      match we_err e with
      | None => e :: delivered entries'
      | Some _ => []
      end
  end.

Fixpoint first_error (entries : list WalkEntry) : option error :=
  match entries with
  | [] => None
  | e :: entries' =>
      match we_err e with
      | None => first_error entries'
      | Some err => Some err
      end
  end.

(** [ListMDFiles(dirPath)] returns [root, err]. *)
Definition ListMDFiles (dirPath : string) (walked : list WalkEntry)
    : outcome (MDFileInfo * option error) :=
  Walk walked (walkFn dirPath) root_MDFileInfo.

(** ** The file system under [filepath.Walk] *)

(** What [os.Lstat] and [readDirNames] find at a path: a file, a directory
    with its entries in the order [readDirNames] lists them (and the error of
    reading it, if any), or nothing that [os.Lstat] can reach. *)
#[local] Unset Elimination Schemes.
Inductive FSNode :=
  | FSFile (file : File)
  | FSDir (entries : list (string * FSNode)) (readdir_err : option error)
  | FSNoStat (err : error).
#[local] Set Elimination Schemes.

Definition entry (path name : string) (isDir : bool) (err : option error)
    (file : File) : WalkEntry :=
  {| we_path := path; we_info := {| Name := name; InfoIsDir := isDir |};
     we_err := err; we_file := file |}.

(** The calls [walk(path, info, walkFn)] makes when no call stops it: the
    node itself, then the entries of a directory that could be read, each
    under [Join(path, name)]. *)
Fixpoint fs_walk (path name : string) (node : FSNode) : list WalkEntry :=
  match node with
  | FSFile file => [entry path name false None file]
  | FSDir entries None =>
      entry path name true None (Opens [] ReadError)
      :: flat_map (λ '(n, child), fs_walk (filepath.Join path n) n child) entries
  | FSDir _ (Some err) => [entry path name true (Some err) (Opens [] ReadError)]
  | FSNoStat err => [entry path name false (Some err) OpenFails]
  end.

(** [ListMDFiles(dirPath)] on a file system with [fs] at [dirPath]. *)
Definition ListMDFiles_fs (dirPath : string) (fs : FSNode)
    : outcome (MDFileInfo * option error) :=
  ListMDFiles dirPath (fs_walk dirPath (filepath.Base dirPath) fs).

(** ** CreateTocTree *)

(** The [switch md.Level]: the lines of the node itself. *)
Definition node_toc (md : MDFileInfo) (indent : string) : string :=
  match Level md with
  | 0 => "# " +:+ Title md +:+ LF
  | 1 =>
      if IsDir md then LF +:+ "## " +:+ Title md +:+ LF +:+ LF
      else LF +:+ "## [" +:+ Title md +:+ "](" +:+ Path md +:+ ")" +:+ LF +:+ LF
  | _ =>
      if IsDir md
      then strings.Repeat indent (Level md - 2) +:+ "- " +:+ Title md +:+ LF
      else strings.Repeat indent (Level md - 2) +:+ "- [" +:+ Title md
           +:+ "](" +:+ Path md +:+ ")" +:+ LF
  end.

(** [reflect.ValueOf(md.Children).MapKeys()], sorted as [sortAsc] asks. *)
Definition sorted_keys {A} (children : gmap string A) (sortAsc : bool)
    : list string :=
  let stringKeys := (map_to_list children).*1 in
  if sortAsc then sort.Strings stringKeys else sort.ReverseStrings stringKeys.

(** The recursive calls are made on the values of the map; [tocs !! key] is
    [CreateTocTree(md.Children[key], indent, sortAsc)], and a key that the
    map does not have would read the zero value. *)
Fixpoint CreateTocTree (md : MDFileInfo) (indent : string) (sortAsc : bool)
    : string :=
  let toc := node_toc md indent in
  match Children md with
  | Some children =>
      let tocs := (λ child, CreateTocTree child indent sortAsc) <$> children in
      foldl (λ toc key,
               toc +:+ default (node_toc zero_MDFileInfo indent) (tocs !! key))
        toc (sorted_keys children sortAsc)
  | None => toc
  end.

(** [md.Children[key]]. *)
Definition child_of (md : MDFileInfo) (key : string) : MDFileInfo :=
  default zero_MDFileInfo (Children md ≫= (.!! key)).

(** The keys in the order the loop [for _, key := range stringKeys] takes
    them. *)
Definition stringKeys (md : MDFileInfo) (sortAsc : bool) : list string :=
  sorted_keys (default ∅ (Children md)) sortAsc.

(** ** main *)

(** How [main] comes to its last statement: [log.Fatal(err)] on the error of
    the walk, or the table of contents is handed to [os.WriteFile] or
    [fmt.Println] (what these make of it is in [main_exit], below). *)
Variant exit :=
  | Fatal (err : error)
  | Output (toc : string).

(** [main] after [flag.Parse()], up to [if outFile != ""]; [getwd] is what
    [os.Getwd()] returns. *)
Definition main (wd title : string) (sortAsc : bool) (getwd : string)
    (walked : list WalkEntry) : outcome exit :=
  match ListMDFiles wd walked with
  | Ok (files, Some err) => Ok (Fatal err)
  | Ok (files, None) =>
      let title :=
        if decide (title = "") then
          filepath.Base (if decide (wd = ".") then getwd else wd)
        else title in
      Ok (Output (CreateTocTree (set_title files title) "  " sortAsc))
  | Panic => Panic
  end.

(** ** Some file systems *)

(** The tree that a call returned. *)
Definition returned (o : outcome (MDFileInfo * option error)) : MDFileInfo :=
  match o with
  | Ok (root, _) => root
  | Panic => zero_MDFileInfo
  end.

Definition markdown (data : string) : FSNode := FSFile (file_of data).

(** [README.md] and [docs/guide.md]. *)
Definition guide_fs : FSNode :=
  FSDir [("README.md", markdown ("# Readme" +:+ LF));
         ("docs",
          FSDir [("guide.md", markdown ("# Guide" +:+ LF +:+ "text" +:+ LF))]
            None)] None.

(** [docs/a.md] and [docs/b.md]. *)
Definition siblings_fs : FSNode :=
  FSDir [("docs", FSDir [("a.md", markdown ("# Alpha" +:+ LF));
                         ("b.md", markdown ("# Beta" +:+ LF))] None)] None.

(** [a/b/x.md] and [a/b/y.md]. *)
Definition nested_fs : FSNode :=
  FSDir [("a", FSDir [("b", FSDir [("x.md", markdown ("# X" +:+ LF));
                                   ("y.md", markdown ("# Y" +:+ LF))] None)]
                 None)] None.

(** [a.md], and a directory [private] that cannot be read. *)
Definition unreadable_fs : FSNode :=
  FSDir [("a.md", markdown ("# A" +:+ LF));
         ("private", FSDir [] (Some "open root/private: permission denied"))]
    None.

(** A directory [-a.md] with [x.md] in it, and a file [.-a.md]. *)
Definition colliding_fs : FSNode :=
  FSDir [("-a.md", FSDir [("x.md", markdown ("# X" +:+ LF))] None);
         (".-a.md", markdown ("# A" +:+ LF))] None.

(** The walk of [unreadable_fs] from [root]: the root and [a.md], then the
    directory that cannot be read. *)
Definition unreadable_walk : list WalkEntry :=
  [entry "root" "root" true None (Opens [] ReadError);
   entry "root/a.md" "a.md" false None (file_of ("# A" +:+ LF))].

Definition unreadable_entry : WalkEntry :=
  entry "root/private" "private" true
    (Some "open root/private: permission denied") (Opens [] ReadError).

(** * Notions the properties are stated with *)

(** ** Nodes of a tree *)

(** The node that the keys [keys] lead to, from [md] down. *)
Fixpoint md_at (md : MDFileInfo) (keys : list string) : option MDFileInfo :=
  match keys with
  | [] => Some md
  | key :: keys' =>
      match Children md with
      | Some ch =>
          match ch !! key with
          | Some child => md_at child keys'
          | None => None
          end
      | None => None
      end
  end.

(** The number of document nodes of a tree. *)
Fixpoint count_docs (md : MDFileInfo) : nat :=
  (if IsDir md then 0 else 1) +
  match Children md with
  | Some ch => map_fold (λ _ child n, count_docs child + n) 0 ch
  | None => 0
  end.

(** The number of nodes of a tree. *)
Fixpoint md_size (md : MDFileInfo) : nat :=
  S match Children md with
    | Some ch => map_fold (λ _ child n, md_size child + n) 0 ch
    | None => 0
    end.

(** Every child is one level below its parent, at every depth. *)
#[local] Unset Elimination Schemes.
Inductive well_leveled (md : MDFileInfo) : Prop :=
  | WellLeveled :
      (∀ ch key child,
          Children md = Some ch → ch !! key = Some child →
          Level child = Level md + 1 ∧ well_leveled child) →
      well_leveled md.
#[local] Set Elimination Schemes.

(** Every node of the tree has the property [P]. *)
#[local] Unset Elimination Schemes.
Inductive all_nodes (P : MDFileInfo → Prop) (md : MDFileInfo) : Prop :=
  | AllNodes :
      P md →
      (∀ ch key child,
          Children md = Some ch → ch !! key = Some child → all_nodes P child) →
      all_nodes P md.
#[local] Set Elimination Schemes.

(** A path without a separator. *)
Definition no_separator (path : string) : Prop :=
  "/"%char ∉ String.list_ascii_of_string path.

(** ** Places of the documents *)

(** The keys under which [walkFn] files the document of an entry: the
    directories it goes through, then the name of the file. *)
Definition place_of (dirs : list string) (name : string) : list string :=
  filter (λ d, d ≠ ".") dirs ++ [name].

Definition key_path (dirPath : string) (e : WalkEntry) : list string :=
  place_of (dirs_of dirPath e) (Name (we_info e)).

(** The directories [dirs] can be gone through from [p], and a document
    filed at their end: no node met on the way is without a map, as a
    document is. *)
Fixpoint fileable (p : MDFileInfo) (dirs : list string) : bool :=
  match Children p with
  | Some ch =>
      match dirs with
      | [] => true
      | d :: dirs' =>
          if decide (d = ".") then fileable p dirs'
          else match ch !! d with
               | Some child => fileable child dirs'
               | None => true
               end
      end
  | None => false
  end.

Definition doc_places (dirPath : string) (walked : list WalkEntry)
    : list (list string) :=
  key_path dirPath <$> filter (λ e, is_markdown e = true) walked.

(** Two places are apart when neither leads to the other. *)
Definition apart (place1 place2 : list string) : Prop :=
  ¬ place1 `prefix_of` place2 ∧ ¬ place2 `prefix_of` place1.

(** No name collisions: no document is filed at the place of another one or
    of a directory that leads to another one. *)
Fixpoint collision_free (places : list (list string)) : Prop :=
  match places with
  | [] => True
  | place :: places' => Forall (apart place) places' ∧ collision_free places'
  end.

#[export] Instance apart_dec : RelDecision apart.
Proof. intros place1 place2. unfold apart. apply _. Defined.

#[export] Instance collision_free_dec places : Decision (collision_free places).
Proof. induction places; simpl; apply _. Defined.

(** The tree [root] holds the documents filed at [places] and the
    directories that lead to them, nothing else. *)
Definition filed (root : MDFileInfo) (places : list (list string)) : Prop :=
  count_docs root = length places
  ∧ (∀ keys n, md_at root keys = Some n → keys ≠ [] →
               ∃ place, place ∈ places ∧ keys `prefix_of` place)
  ∧ (∀ keys n, md_at root keys = Some n → Children n = None → keys ∈ places).

(** ** Headings *)

Definition all_space (ws : string) : Prop :=
  forallb regexp.is_space (String.list_ascii_of_string ws) = true.

(** A line of the form: one [#], one or more white space bytes, then the
    heading text (which does not go on with white space, the pattern having
    taken it all, and holds no newline). *)
Definition h1_line (line text : string) : Prop :=
  ∃ ws, line = "#" +:+ ws +:+ text
        ∧ ws ≠ ""
        ∧ all_space ws
        ∧ regexp.skip_space text = text
        ∧ regexp.has_newline text = false.

(** A line that begins with one [#] and a white space byte. *)
Definition begins_h1 (line : string) : Prop :=
  ∃ c rest, line = String "#" (String c rest) ∧ regexp.is_space c = true.

(** ** List items *)

(** The list item of a node as the specification words it: [- <title>] for
    a directory, [- [<title>](<linkTarget>)] for a document. *)
Definition spec_list_item (md : MDFileInfo) : string :=
  if IsDir md then "- " +:+ Title md
  else "- [" +:+ Title md +:+ "](" +:+ Path md +:+ ")".

(** ** Outlines *)

(** The table of contents with its groupings kept apart: the lines of a node
    and, in the order they are rendered, the outlines of its children. *)
#[local] Unset Elimination Schemes.
Inductive Outline :=
  | Block (lines : string) (groups : list Outline).
#[local] Set Elimination Schemes.

Fixpoint outline (md : MDFileInfo) (indent : string) (sortAsc : bool) : Outline :=
  Block (node_toc md indent)
    match Children md with
    | Some children =>
        let outlines := (λ child, outline child indent sortAsc) <$> children in
        omap (λ key, outlines !! key) (sorted_keys children sortAsc)
    | None => []
    end.

Fixpoint flatten (o : Outline) : string :=
  match o with
  | Block lines groups => lines +:+ String.concat "" (flatten <$> groups)
  end.

(** The groupings of the top [depth] levels in reverse order. *)
Fixpoint reverse_groups (depth : nat) (o : Outline) : Outline :=
  match depth, o with
  | 0, _ => o
  | S depth', Block lines groups =>
      Block lines (reverse (reverse_groups depth' <$> groups))
  end.

(** The groupings of every level in reverse order. *)
Fixpoint reverse_all (o : Outline) : Outline :=
  match o with
  | Block lines groups => Block lines (reverse (reverse_all <$> groups))
  end.

(** * More notions *)

(** Every node below [md] has the property [Q], which may look at the key
    the node is filed under. *)
#[local] Unset Elimination Schemes.
Inductive all_children (Q : string → MDFileInfo → Prop) (md : MDFileInfo)
    : Prop :=
  | AllChildren :
      (∀ ch key child,
          Children md = Some ch → ch !! key = Some child →
          Q key child ∧ all_children Q child) →
      all_children Q md.
#[local] Set Elimination Schemes.

(** What the tree builder keeps of a directory, filed under [key]: it shows
    its name, and its map is there and not empty. *)
Definition dir_shape (key : string) (md : MDFileInfo) : Prop :=
  Title md = key ∧ ∃ ch, Children md = Some ch ∧ ch ≠ ∅.

(** What it keeps of a document, filed under [key]: it has no map, it is not
    [README.md], and its title is one the pattern captured (or empty). *)
Definition doc_shape (key : string) (md : MDFileInfo) : Prop :=
  Children md = None ∧ key ≠ "README.md"
  ∧ regexp.has_newline (Title md) = false
  ∧ regexp.skip_space (Title md) = Title md.

Definition node_shape (key : string) (md : MDFileInfo) : Prop :=
  if IsDir md then dir_shape key md else doc_shape key md.

(** One step after another, unless the first one panics. *)
Definition and_then {A B} (o : outcome A) (f : A → outcome B) : outcome B :=
  match o with
  | Ok a => f a
  | Panic => Panic
  end.

(** What the function of the walk does to the tree, on an entry without an
    error. *)
Definition step (dirPath : string) (e : WalkEntry) (root : MDFileInfo)
    : outcome MDFileInfo :=
  if is_markdown e then
    insert_doc root (dirs_of dirPath e) (Name (we_info e))
      (GetMDTitle (we_file e)) (url.PathEscape (relPath dirPath e))
  else Ok root.

(** The title that [main] gives the root: the flag [-t], or without it the
    base name of the directory, of the working directory when the flag
    [-dir] is ["."]. *)
Definition root_title (wd title getwd : string) : string :=
  if decide (title = "") then
    filepath.Base (if decide (wd = ".") then getwd else wd)
  else title.

(** The value of a hexadecimal digit, and the string with every [%XX]
    replaced by the byte it stands for: what undoes [url.PathEscape]. *)
Definition unhex (c : ascii) : N :=
  if byte_in "0" "9" c then N_of_ascii c - N_of_ascii "0"
  else if byte_in "A" "F" c then N_of_ascii c - N_of_ascii "A" + 10
  else if byte_in "a" "f" c then N_of_ascii c - N_of_ascii "a" + 10
  else 0.

Fixpoint unescape (s : string) : string :=
  match s with
  | "" => ""
  | String c rest =>
      if Ascii.eqb c "%" then
        match rest with
        | String hi (String lo rest') =>
            String (ascii_of_N (16 * unhex hi + unhex lo)) (unescape rest')
        | _ => s
        end
      else String c (unescape rest)
  end.

(** A byte that [url.PathEscape] lets through, or the [%] it writes. *)
Definition path_byte (c : ascii) : bool :=
  negb (url.shouldEscape c) || Ascii.eqb c "%".

(** A file [.a.md], and a directory [a.md] with [x.md] in it. *)
Definition blocked_fs : FSNode :=
  FSDir [(".a.md", markdown ("# A" +:+ LF));
         ("a.md", FSDir [("x.md", markdown ("# X" +:+ LF))] None)] None.

(** The bytes of the lines [lines], each with its newline. *)
Definition unlines (lines : list string) : string :=
  String.concat "" ((λ line, line +:+ LF) <$> lines).

(** A line that the scanner yields whole, and that is no heading line. *)
Definition plain_line (line : string) : Prop :=
  regexp.has_newline line = false ∧ bufio.fits line = true ∧ ¬ begins_h1 line.


(** ** main, to its end *)

(** How a run of [main] ends: [log.Fatal(err)], with the error of the walk
    or with the error of [os.WriteFile]; the table of contents written to the
    file named with [-out]; or, without [-out], the text that [fmt.Println]
    writes to the standard output. *)
Variant ending :=
  | LogFatal (err : error)
  | Written (name data : string)
  | Printed (text : string).

(** [main] with its last statement; [write name data] is what
    [os.WriteFile(name, data, 0644)] returns. *)
Definition main_exit (wd outFile title : string) (sortAsc : bool)
    (getwd : string) (walked : list WalkEntry)
    (write : string → string → option error) : outcome ending :=
  match main wd title sortAsc getwd walked with
  | Ok (Fatal err) => Ok (LogFatal err)
  | Ok (Output toc) =>
      if decide (outFile = "") then Ok (Printed (toc +:+ LF))
      else match write outFile toc with
           | Some err => Ok (LogFatal err)
           | None => Ok (Written outFile toc)
           end
  | Panic => Panic
  end.

(** A directory [x] with a directory in it whose name holds a newline, and
    [d.md] in that. *)
Definition newline_fs : FSNode :=
  FSDir [("x", FSDir [("a" +:+ LF +:+ "b",
                       FSDir [("d.md", markdown ("# D" +:+ LF))] None)] None)]
    None.
(** * The earlier version of the program

    The first version in [main.go] keeps a [Name] in every node, renders
    directories by it, and ranges over the map of children as Go delivers
    it, in no order that the language fixes.  [GetMDTitle] and the test for
    Markdown files are the same text in both versions. *)

(** [info.Name()]. *)
Definition info_name (e : WalkEntry) : string := Name (we_info e).

Module v1.

#[local] Unset Elimination Schemes.
Inductive MDFileInfo := mkMDFileInfo {
  Name : string;
  IsDir : bool;
  Children : option (gmap string MDFileInfo);
  Title : string;
  Level : nat;
  Path : string }.
#[local] Set Elimination Schemes.

Definition set_child (md : MDFileInfo) (ch : gmap string MDFileInfo)
    (key : string) (v : MDFileInfo) : MDFileInfo :=
  {| Name := Name md; IsDir := IsDir md; Children := Some (<[key := v]> ch);
     Title := Title md; Level := Level md; Path := Path md |}.

Definition set_title (md : MDFileInfo) (title : string) : MDFileInfo :=
  {| Name := Name md; IsDir := IsDir md; Children := Children md;
     Title := title; Level := Level md; Path := Path md |}.

(** [strings.TrimRight(s, cutset)] for a cutset of ASCII bytes: [s] without
    the bytes at its end that are in the cutset, all of them. *)
Definition in_cutset (cutset : string) (c : ascii) : bool :=
  existsb (Ascii.eqb c) (String.list_ascii_of_string cutset).

Definition TrimRight (s cutset : string) : string :=
  String.string_of_list_ascii
    (rev (drop_while (in_cutset cutset) (rev (String.list_ascii_of_string s)))).

(** ** ListMDFiles *)

Definition root_MDFileInfo : MDFileInfo :=
  {| Name := "."; IsDir := true; Children := Some ∅; Level := 0; Title := "";
     Path := "." |}.

Definition dir_MDFileInfo (p : MDFileInfo) (d : string) : MDFileInfo :=
  {| Name := d; IsDir := true; Children := Some ∅; Level := Level p + 1;
     Title := ""; Path := url.PathEscape (filepath.Join (Path p) d) |}.

Definition doc_MDFileInfo (p : MDFileInfo) (name title path : string)
    : MDFileInfo :=
  {| Name := TrimRight name (filepath.Ext name); IsDir := false;
     Children := None; Level := Level p + 1; Title := title; Path := path |}.

(** The loop over [dirs] and the assignment of the document after it, as in
    the later version. *)
Fixpoint insert_doc (p : MDFileInfo) (dirs : list string)
    (name title path : string) : outcome MDFileInfo :=
  match dirs with
  | [] =>
      match Children p with
      | Some ch => Ok (set_child p ch name (doc_MDFileInfo p name title path))
      | None => Panic
      end
  | d :: dirs' =>
      if decide (d = ".") then insert_doc p dirs' name title path
      else
        match Children p with
        | Some ch =>
            let child :=
              match ch !! d with
              | Some child => child
              | None => dir_MDFileInfo p d
              end in
            match insert_doc child dirs' name title path with
            | Ok child' => Ok (set_child p ch d child')
            | Panic => Panic
            end
        | None => Panic
        end
  end.

Definition walkFn (dirPath : string) (e : WalkEntry) (root : MDFileInfo)
    : outcome (MDFileInfo * option error) :=
  match we_err e with
  | Some err => Ok (root, Some err)
  | None =>
      if is_markdown e then
        match insert_doc root (dirs_of dirPath e) (info_name e)
                (GetMDTitle (we_file e)) (url.PathEscape (relPath dirPath e)) with
        | Ok root' => Ok (root', None)
        | Panic => Panic
        end
      else Ok (root, None)
  end.

Definition ListMDFiles (dirPath : string) (walked : list WalkEntry)
    : outcome (MDFileInfo * option error) :=
  Walk walked (walkFn dirPath) root_MDFileInfo.

(** ** CreateTocTree *)

(** The [switch md.Level]: a directory below the root is rendered by its
    [Name]. *)
Definition node_toc (md : MDFileInfo) (indent : string) : string :=
  match Level md with
  | 0 => "# " +:+ Title md +:+ LF
  | 1 =>
      if IsDir md then LF +:+ "## " +:+ Name md +:+ LF +:+ LF
      else LF +:+ "## [" +:+ Title md +:+ "](" +:+ Path md +:+ ")" +:+ LF +:+ LF
  | _ =>
      if IsDir md
      then strings.Repeat indent (Level md - 2) +:+ "- " +:+ Name md +:+ LF
      else strings.Repeat indent (Level md - 2) +:+ "- [" +:+ Title md
           +:+ "](" +:+ Path md +:+ ")" +:+ LF
  end.

(** [CreateTocTree(md, indent)] may return [toc]: the loop
    [for _, child := range md.Children] meets every entry of the map once, in
    an order [keys] that Go does not fix, and appends what the call on each
    child returns. *)
#[local] Unset Elimination Schemes.
Inductive CreateTocTree (indent : string) : MDFileInfo → string → Prop :=
  | CreateTocTree_range md keys tocs :
      keys ≡ₚ (map_to_list (default ∅ (Children md))).*1 →
      Forall2 (λ key toc, ∃ child, default ∅ (Children md) !! key = Some child
                                   ∧ CreateTocTree indent child toc)
        keys tocs →
      CreateTocTree indent md (node_toc md indent +:+ String.concat "" tocs).
#[local] Set Elimination Schemes.

(** ** main *)

(** How [main] comes to its last statement: [log.Fatal(err)] on the error of
    the walk, the table of contents is handed to [os.WriteFile], or, without
    the flag [-out], nothing is done with it. *)
Variant exit :=
  | Fatal (err : error)
  | WriteFile (name : string) (data : string)
  | Nothing.

(** [main] after [flag.Parse()], up to the call of [os.WriteFile], may come
    to [ex]. *)
Inductive main (wd outFile title getwd : string) (walked : list WalkEntry)
    : outcome exit → Prop :=
  | main_panic :
      ListMDFiles wd walked = Panic → main wd outFile title getwd walked Panic
  | main_fatal files err :
      ListMDFiles wd walked = Ok (files, Some err) →
      main wd outFile title getwd walked (Ok (Fatal err))
  | main_toc files toc :
      ListMDFiles wd walked = Ok (files, None) →
      CreateTocTree "  " (set_title files (root_title wd title getwd)) toc →
      main wd outFile title getwd walked
        (Ok (if decide (outFile = "") then Nothing else WriteFile outFile toc)).

(** [main] with its last statement may end in [ex]: [write name data] is
    what [os.WriteFile(name, data, 0644)] returns; when it is an error the
    run ends in [log.Fatal] with it, and [WriteFile name data] stands for the
    file written. *)
Inductive main_exit (wd outFile title getwd : string)
    (walked : list WalkEntry) (write : string → string → option error)
    : outcome exit → Prop :=
  | main_exit_panic :
      main wd outFile title getwd walked Panic →
      main_exit wd outFile title getwd walked write Panic
  | main_exit_fatal err :
      main wd outFile title getwd walked (Ok (Fatal err)) →
      main_exit wd outFile title getwd walked write (Ok (Fatal err))
  | main_exit_nothing :
      main wd outFile title getwd walked (Ok Nothing) →
      main_exit wd outFile title getwd walked write (Ok Nothing)
  | main_exit_written name data :
      main wd outFile title getwd walked (Ok (WriteFile name data)) →
      write name data = None →
      main_exit wd outFile title getwd walked write (Ok (WriteFile name data))
  | main_exit_write_fails name data err :
      main wd outFile title getwd walked (Ok (WriteFile name data)) →
      write name data = Some err →
      main_exit wd outFile title getwd walked write (Ok (Fatal err)).

End v1.

(** The node of the later version for a node of the earlier one: the name
    is dropped, and below the root a directory has its name as title. *)
Fixpoint upgrade (md : v1.MDFileInfo) : MDFileInfo :=
  {| IsDir := v1.IsDir md;
     Children :=
       match v1.Children md with
       | Some ch => Some (upgrade <$> ch)
       | None => None
       end;
     Title :=
       match v1.Level md with
       | 0 => v1.Title md
       | _ => if v1.IsDir md then v1.Name md else v1.Title md
       end;
     Level := v1.Level md;
     Path := v1.Path md |}.

Definition upgraded (o : outcome (v1.MDFileInfo * option error))
    : outcome (MDFileInfo * option error) :=
  match o with
  | Ok (root, err) => Ok (upgrade root, err)
  | Panic => Panic
  end.

(** * File systems with ordinary names, walked from a clean directory *)

(** A name that an entry of a directory can have: not empty, not [.] or
    [..], and without a separator. *)
Definition file_name (n : string) : bool :=
  negb (String.eqb n "") && negb (String.eqb n ".") && negb (String.eqb n "..")
  && forallb (λ c, negb (IsPathSeparator c)) (String.list_ascii_of_string n).

(** The names [ns], each after a separator. *)
Definition below (ns : list string) : string :=
  String.concat "" ((λ n, "/" +:+ n) <$> ns).

(** The clean relative path with the elements [ns]: [.] when there is
    none. *)
Definition path_of (ns : list string) : string :=
  match ns with
  | [] => "."
  | n :: ns' => n +:+ below ns'
  end.

(** The entries of every directory have names, each once. *)
Fixpoint well_named (fs : FSNode) : bool :=
  match fs with
  | FSDir entries _ =>
      bool_decide (NoDup entries.*1)
      && forallb (λ '(n, child), file_name n && well_named child) entries
  | _ => true
  end.

(** Nothing in the file system stops the walk. *)
Fixpoint readable (fs : FSNode) : bool :=
  match fs with
  | FSFile _ => true
  | FSDir entries None => forallb (λ '(_, child), readable child) entries
  | FSDir _ (Some _) => false
  | FSNoStat _ => false
  end.

(** [stored fs ns node]: the names [ns] lead from [fs] to [node], through
    directories that can be read. *)
Inductive stored : FSNode → list string → FSNode → Prop :=
  | stored_here fs : stored fs [] fs
  | stored_below entries n child ns node :
      (n, child) ∈ entries → stored child ns node →
      stored (FSDir entries None) (n :: ns) node.

(** The names that lead to the entries of the file system that are no
    directories, in the order of the walk. *)
Fixpoint fs_leaves (fs : FSNode) : list (list string) :=
  match fs with
  | FSFile _ | FSNoStat _ => [[]]
  | FSDir entries None =>
      flat_map (λ '(n, child), (n ::.) <$> fs_leaves child) entries
  | FSDir _ (Some _) => []
  end.

(** The relative path that [walkFn] computes for a file with the elements
    [ns] below the directory with the elements [ds]. *)
Definition rel_path (ds ns : list string) : string :=
  match ds with
  | [] => path_of ns
  | _ => "./" +:+ path_of ns
  end.

(** * Lemmas *)

(** ** Induction on trees *)

Lemma map_fold_sum_lookup {A} (f : A → nat) (m : gmap string A) key x :
  m !! key = Some x →
  map_fold (λ _ y n, f y + n) 0 m
  = f x + map_fold (λ _ y n, f y + n) 0 (delete key m).
Proof.
  intros Hx. apply (map_fold_delete_L (λ _ y n, f y + n)); [|done].
  intros. lia.
Qed.

Lemma map_fold_sum_insert {A} (f : A → nat) (m : gmap string A) key x :
  map_fold (λ _ y n, f y + n) 0 (<[key := x]> m)
  = f x + map_fold (λ _ y n, f y + n) 0 (delete key m).
Proof.
  rewrite <- insert_delete_eq.
  apply (map_fold_insert_L (λ _ y n, f y + n)); [|apply lookup_delete_eq].
  intros. lia.
Qed.

Lemma md_size_child md ch key child :
  Children md = Some ch → ch !! key = Some child → md_size child < md_size md.
Proof.
  intros Hch Hkey. destruct md as [d c t l p]. simpl in *. subst c.
  rewrite (map_fold_sum_lookup md_size _ _ _ Hkey). lia.
Qed.

Lemma MDFileInfo_ind (P : MDFileInfo → Prop) :
  (∀ md,
      (∀ ch key child, Children md = Some ch → ch !! key = Some child → P child) →
      P md) →
  ∀ md, P md.
Proof.
  intros IH md. remember (md_size md) as n eqn:Hn.
  revert md Hn. induction n as [n IHn] using lt_wf_ind. intros md ->.
  apply IH. intros ch key child Hch Hkey.
  eapply IHn; [|reflexivity]. eauto using md_size_child.
Qed.

(** ** The order of the keys *)

Lemma Strings_sorted keys : StronglySorted sort.string_le (sort.Strings keys).
Proof. apply StronglySorted_merge_sort; apply _. Qed.

Lemma ReverseStrings_sorted keys :
  StronglySorted (flip sort.string_le) (sort.ReverseStrings keys).
Proof. apply StronglySorted_merge_sort; apply _. Qed.

Lemma Strings_perm keys : sort.Strings keys ≡ₚ keys.
Proof. apply merge_sort_Permutation. Qed.

Lemma ReverseStrings_perm keys : sort.ReverseStrings keys ≡ₚ keys.
Proof. apply merge_sort_Permutation. Qed.

(** Sorting downwards is sorting upwards, reversed. *)
Lemma ReverseStrings_reverse keys :
  sort.ReverseStrings keys = reverse (sort.Strings keys).
Proof.
  apply (Sorted_unique (flip sort.string_le)).
  - apply Sorted_merge_sort; apply _.
  - apply Sorted_reverse, Sorted_merge_sort; apply _.
  - by rewrite ReverseStrings_perm, reverse_Permutation, Strings_perm.
Qed.

(** The order of [MapKeys()] does not matter to the sorted keys. *)
Lemma Strings_of_perm keys1 keys2 :
  keys1 ≡ₚ keys2 → sort.Strings keys1 = sort.Strings keys2.
Proof.
  intros Hp. apply (Sorted_unique sort.string_le).
  - apply Sorted_merge_sort; apply _.
  - apply Sorted_merge_sort; apply _.
  - by rewrite !Strings_perm.
Qed.

Lemma ReverseStrings_of_perm keys1 keys2 :
  keys1 ≡ₚ keys2 → sort.ReverseStrings keys1 = sort.ReverseStrings keys2.
Proof.
  intros Hp. by rewrite !ReverseStrings_reverse, (Strings_of_perm _ _ Hp).
Qed.

(** ** Strings *)

Lemma append_cons c (s1 s2 : string) : String c s1 +:+ s2 = String c (s1 +:+ s2).
Proof. reflexivity. Qed.

Lemma append_assoc (s1 s2 s3 : string) : (s1 +:+ s2) +:+ s3 = s1 +:+ s2 +:+ s3.
Proof.
  induction s1 as [|c s1 IH]; [done|]. by rewrite !append_cons, IH.
Qed.

Lemma append_empty_r (s : string) : s +:+ "" = s.
Proof. induction s as [|c s IH]; [done|]. by rewrite append_cons, IH. Qed.

Lemma concat_cons (s : string) (l : list string) :
  String.concat "" (s :: l) = s +:+ String.concat "" l.
Proof. destruct l; [by rewrite append_empty_r|done]. Qed.

Lemma foldl_append {A} (g : A → string) (toc : string) (keys : list A) :
  foldl (λ toc key, toc +:+ g key) toc keys
  = toc +:+ String.concat "" (g <$> keys).
Proof.
  revert toc. induction keys as [|key keys IH]; intros toc.
  - by rewrite append_empty_r.
  - rewrite fmap_cons, concat_cons. cbn [foldl]. by rewrite IH, append_assoc.
Qed.

(** ** CreateTocTree *)

(** The function as the source has it: the lines of the node, then the
    tables of the children, key by key. *)
Lemma CreateTocTree_eq md indent sortAsc :
  CreateTocTree md indent sortAsc
  = node_toc md indent
    +:+ String.concat ""
          ((λ key, CreateTocTree (child_of md key) indent sortAsc)
             <$> stringKeys md sortAsc).
Proof.
  unfold stringKeys, child_of.
  destruct md as [d [ch|] t l p]; simpl.
  - rewrite foldl_append. do 2 f_equal.
    apply list_fmap_ext. intros _ key _.
    rewrite lookup_fmap. by destruct (ch !! key).
  - unfold sorted_keys. rewrite map_to_list_empty. simpl.
    by destruct sortAsc; rewrite append_empty_r.
Qed.

Lemma elem_of_sorted_keys {A} (ch : gmap string A) sortAsc key :
  key ∈ sorted_keys ch sortAsc ↔ is_Some (ch !! key).
Proof.
  unfold sorted_keys.
  assert (key ∈ (map_to_list ch).*1 ↔ is_Some (ch !! key)) as <-.
  { rewrite list_elem_of_fmap. split.
    - intros [[k x] [-> Hx]]. apply elem_of_map_to_list in Hx. by exists x.
    - intros [x Hx]. exists (key, x). by rewrite elem_of_map_to_list. }
  destruct sortAsc; [by rewrite Strings_perm|by rewrite ReverseStrings_perm].
Qed.

Lemma elem_of_stringKeys md sortAsc key :
  key ∈ stringKeys md sortAsc →
  ∃ ch, Children md = Some ch ∧ ch !! key = Some (child_of md key).
Proof.
  unfold stringKeys, child_of. intros Hkey%elem_of_sorted_keys.
  destruct (Children md) as [ch|]; simpl in *.
  - exists ch. destruct Hkey as [child Hchild]. by rewrite Hchild.
  - by rewrite lookup_empty in Hkey; destruct Hkey.
Qed.

Lemma stringKeys_descending md :
  stringKeys md false = reverse (stringKeys md true).
Proof. apply ReverseStrings_reverse. Qed.

Lemma omap_total {A B} (f : A → option B) (g : A → B) (l : list A) :
  (∀ x, x ∈ l → f x = Some (g x)) → omap f l = g <$> l.
Proof.
  induction l as [|x l IH]; intros Hf; [done|].
  cbn [omap list_omap]. rewrite (Hf x) by left. rewrite fmap_cons. f_equal.
  apply IH. intros y Hy. apply Hf. by right.
Qed.

(** The outline of a node: its lines, then the outlines of its children, key
    by key. *)
Lemma outline_eq md indent sortAsc :
  outline md indent sortAsc
  = Block (node_toc md indent)
      ((λ key, outline (child_of md key) indent sortAsc)
         <$> stringKeys md sortAsc).
Proof.
  unfold stringKeys, child_of.
  destruct md as [d [ch|] t l p]; simpl; f_equal.
  - apply omap_total. intros key [child Hchild]%elem_of_sorted_keys.
    by rewrite lookup_fmap, Hchild.
  - unfold sorted_keys. rewrite map_to_list_empty. by destruct sortAsc.
Qed.

(** The table of contents is the outline, its groupings run together. *)
Lemma flatten_outline md indent sortAsc :
  flatten (outline md indent sortAsc) = CreateTocTree md indent sortAsc.
Proof.
  induction md as [md IH] using MDFileInfo_ind.
  rewrite outline_eq, CreateTocTree_eq. cbn [flatten]. do 2 f_equal.
  rewrite <- list_fmap_compose. apply list_fmap_ext. intros i key Hkey.
  apply list_elem_of_lookup_2, elem_of_stringKeys in Hkey as (ch & Hch & Hchild).
  simpl. eauto.
Qed.

(** The outline in descending order is the outline in ascending order with
    the groupings of every level reversed. *)
Lemma reverse_all_outline md indent :
  reverse_all (outline md indent true) = outline md indent false.
Proof.
  induction md as [md IH] using MDFileInfo_ind.
  rewrite !outline_eq. cbn [reverse_all]. f_equal.
  rewrite stringKeys_descending, fmap_reverse, <- list_fmap_compose. f_equal.
  apply list_fmap_ext. intros i key Hkey.
  apply list_elem_of_lookup_2, elem_of_stringKeys in Hkey as (ch & Hch & Hchild).
  simpl. eauto.
Qed.

(** ** The pattern of [h1Regex] *)

Lemma skip_space_idemp s :
  regexp.skip_space (regexp.skip_space s) = regexp.skip_space s.
Proof.
  induction s as [|c s IH]; [done|]. simpl.
  destruct (regexp.is_space c) eqn:Hc; [done|]. simpl. by rewrite Hc.
Qed.

Lemma skip_space_app ws s :
  all_space ws → regexp.skip_space (ws +:+ s) = regexp.skip_space s.
Proof.
  unfold all_space. induction ws as [|c ws IH]; [done|].
  intros H. rewrite append_cons. simpl in *.
  apply andb_prop in H as [Hc Hws]. rewrite Hc. auto.
Qed.

(** What [skip_space] skips. *)
Lemma skip_space_split s :
  ∃ ws, all_space ws ∧ s = ws +:+ regexp.skip_space s.
Proof.
  induction s as [|c s (ws & Hws & Hs)]; [by exists ""|]. simpl.
  destruct (regexp.is_space c) eqn:Hc.
  - exists (String c ws). split; [|by rewrite append_cons, <- Hs].
    unfold all_space in *. simpl. by rewrite Hc.
  - by exists "".
Qed.

(** The pattern matches the heading lines, and captures their text. *)
Lemma h1Regex_spec line text :
  regexp.h1Regex line = Some text ↔ h1_line line text.
Proof.
  split.
  - destruct line as [|c0 [|c rest]]; [done..|]. simpl.
    destruct (Ascii.eqb_spec c0 "#") as [->|]; [|done].
    destruct (regexp.is_space c) eqn:Hc; [|done]. simpl.
    destruct (regexp.has_newline _) eqn:Hnl; [done|]. intros [= <-].
    destruct (skip_space_split rest) as (ws & Hws & Hrest).
    exists (String c ws). split_and!; [| done | | apply skip_space_idemp | done].
    + by rewrite !append_cons, <- Hrest.
    + unfold all_space in *. simpl. by rewrite Hc.
  - intros (ws & -> & Hne & Hws & Hskip & Hnl).
    destruct ws as [|c ws]; [done|].
    unfold all_space in Hws. simpl in Hws. apply andb_prop in Hws as [Hc Hws].
    rewrite !append_cons. simpl. rewrite Hc, skip_space_app, Hskip, Hnl by done.
    done.
Qed.

Lemma h1Regex_begins line text :
  regexp.h1Regex line = Some text → begins_h1 line.
Proof.
  destruct line as [|c0 [|c rest]]; [done..|]. simpl.
  destruct (Ascii.eqb_spec c0 "#") as [->|]; [|done].
  destruct (regexp.is_space c) eqn:Hc; [|done]. intros _. by exists c, rest.
Qed.

Lemma has_newline_app s1 s2 :
  regexp.has_newline (s1 +:+ s2) = regexp.has_newline s1 || regexp.has_newline s2.
Proof.
  induction s1 as [|c s1 IH]; [done|]. rewrite append_cons. simpl.
  by rewrite IH, orb_assoc.
Qed.


Lemma scan_title_none lines :
  Forall (λ line, regexp.h1Regex line = None) lines → scan_title lines = "".
Proof. induction 1 as [|line lines Hline _ IH]; simpl; [done|by rewrite Hline]. Qed.

Lemma scan_title_first pre line text post :
  Forall (λ line, regexp.h1Regex line = None) pre →
  regexp.h1Regex line = Some text →
  scan_title (pre ++ line :: post) = text.
Proof.
  intros Hpre Hline. induction Hpre as [|l pre Hl _ IH]; simpl.
  - by rewrite Hline.
  - by rewrite Hl.
Qed.

Lemma not_begins_h1_none lines :
  Forall (λ line, ¬ begins_h1 line) lines →
  Forall (λ line, regexp.h1Regex line = None) lines.
Proof.
  intros H. eapply Forall_impl; [exact H|]. clear H. intros line Hline. simpl.
  destruct (regexp.h1Regex line) as [text|] eqn:H; [|done].
  by apply h1Regex_begins in H.
Qed.

(** ** Walk *)

Lemma Walk_app {St} (fn : WalkEntry → St → outcome (St * option error))
    (pre rest : list WalkEntry) (st : St) :
  Walk (pre ++ rest) fn st
  = match Walk pre fn st with
    | Ok (st', None) => Walk rest fn st'
    | stopped => stopped
    end.
Proof.
  revert st. induction pre as [|e pre IH]; intros st; [done|].
  rewrite <- app_comm_cons. cbn [Walk].
  destruct (fn e st) as [[st' [err|]]|]; [done| |done]. apply IH.
Qed.

Lemma Walk_invariant {St} (I : St → Prop)
    (fn : WalkEntry → St → outcome (St * option error)) entries st res err :
  (∀ e st st' err, I st → fn e st = Ok (st', err) → I st') →
  I st → Walk entries fn st = Ok (res, err) → I res.
Proof.
  intros Hfn. revert st. induction entries as [|e entries IH]; intros st Hst.
  - by intros [= <- <-].
  - cbn [Walk]. destruct (fn e st) as [[st' [err'|]]|] eqn:He; [| |done].
    + intros [= <- <-]. eauto.
    + eauto.
Qed.

Lemma walkFn_err dirPath e root err :
  we_err e = Some err → walkFn dirPath e root = Ok (root, Some err).
Proof. unfold walkFn. by intros ->. Qed.

Lemma walkFn_no_err dirPath e root root' err :
  we_err e = None → walkFn dirPath e root = Ok (root', err) → err = None.
Proof.
  unfold walkFn. intros ->. destruct (is_markdown e); [|by intros [= <- <-]].
  destruct (insert_doc _ _ _ _ _); [|done]. by intros [= <- <-].
Qed.

(** Entries without an error do not stop the walk with one. *)
Lemma Walk_no_err dirPath entries root res err :
  Forall (λ e, we_err e = None) entries →
  Walk entries (walkFn dirPath) root = Ok (res, err) → err = None.
Proof.
  intros Hentries. revert root.
  induction Hentries as [|e entries He _ IH]; intros root.
  - by intros [= <- <-].
  - cbn [Walk]. destruct (walkFn dirPath e root) as [[root' [err'|]]|] eqn:Hfn;
      [|by eauto|done].
    by apply walkFn_no_err in Hfn.
Qed.

Lemma delivered_no_err entries :
  Forall (λ e, we_err e = None) (delivered entries).
Proof.
  induction entries as [|e entries IH]; simpl; [done|].
  destruct (we_err e) eqn:He; [done|]. by constructor.
Qed.

(** The walk is the walk of the calls before the first error, which it
    returns if there is one. *)
Lemma Walk_delivered dirPath entries root :
  Walk entries (walkFn dirPath) root
  = match Walk (delivered entries) (walkFn dirPath) root with
    | Ok (root', _) => Ok (root', first_error entries)
    | Panic => Panic
    end.
Proof.
  revert root. induction entries as [|e entries IH]; intros root; [done|].
  simpl. destruct (we_err e) as [err|] eqn:He.
  - by rewrite (walkFn_err _ _ _ err).
  - cbn [Walk].
    destruct (walkFn dirPath e root) as [[root' [err'|]]|] eqn:Hfn; [|done..].
    by apply walkFn_no_err in Hfn.
Qed.

(** ** Nodes and their children *)

Lemma md_at_cons md ch key keys :
  Children md = Some ch →
  md_at md (key :: keys) = ch !! key ≫= λ child, md_at child keys.
Proof. intros Hch. simpl. rewrite Hch. by destruct (ch !! key). Qed.

Lemma md_at_no_children md key keys :
  Children md = None ∨ Children md = Some ∅ → md_at md (key :: keys) = None.
Proof. simpl. intros [->| ->]; [done|]. by rewrite lookup_empty. Qed.

Lemma md_at_set_child_eq md ch key child keys :
  md_at (set_child md ch key child) (key :: keys) = md_at child keys.
Proof. simpl. by rewrite lookup_insert_eq. Qed.

Lemma md_at_set_child_ne md ch key child key' keys :
  Children md = Some ch → key ≠ key' →
  md_at (set_child md ch key child) (key' :: keys) = md_at md (key' :: keys).
Proof. intros Hch Hne. simpl. by rewrite Hch, lookup_insert_ne. Qed.

Lemma well_leveled_child md ch key child :
  well_leveled md → Children md = Some ch → ch !! key = Some child →
  Level child = Level md + 1 ∧ well_leveled child.
Proof. intros [H]. apply H. Qed.

Lemma well_leveled_set_child md ch key child :
  well_leveled md → Children md = Some ch →
  Level child = Level md + 1 → well_leveled child →
  well_leveled (set_child md ch key child).
Proof.
  intros Hmd Hch Hlevel Hchild. constructor. simpl.
  intros ? key' child' [= <-] Hkey'.
  destruct (decide (key = key')) as [<-|Hne].
  - rewrite lookup_insert_eq in Hkey'. by simplify_eq.
  - rewrite lookup_insert_ne in Hkey' by done.
    by eapply well_leveled_child.
Qed.

Lemma well_leveled_leaf md :
  Children md = None ∨ Children md = Some ∅ → well_leveled md.
Proof.
  intros H. constructor. intros ch key child Hch.
  destruct H as [H|H]; rewrite H in Hch; [done|]. simplify_eq.
  by rewrite lookup_empty.
Qed.

Lemma all_nodes_here P md : all_nodes P md → P md.
Proof. by intros [H _]. Qed.

Lemma all_nodes_child P md ch key child :
  all_nodes P md → Children md = Some ch → ch !! key = Some child →
  all_nodes P child.
Proof. intros [_ H]. apply H. Qed.

Lemma all_nodes_leaf P md :
  P md → Children md = None ∨ Children md = Some ∅ → all_nodes P md.
Proof.
  intros Hmd H. constructor; [done|]. intros ch key child Hch.
  destruct H as [H|H]; rewrite H in Hch; [done|]. simplify_eq.
  by rewrite lookup_empty.
Qed.

Lemma all_nodes_set_child P md ch key child :
  (∀ md ch key child, P md → P (set_child md ch key child)) →
  all_nodes P md → Children md = Some ch → all_nodes P child →
  all_nodes P (set_child md ch key child).
Proof.
  intros Hset Hmd Hch Hchild. constructor; [by apply Hset, all_nodes_here|].
  simpl. intros ? key' child' [= <-] Hkey'.
  destruct (decide (key = key')) as [<-|Hne].
  - rewrite lookup_insert_eq in Hkey'. by simplify_eq.
  - rewrite lookup_insert_ne in Hkey' by done. eauto using all_nodes_child.
Qed.

Lemma all_nodes_md_at P md keys n :
  all_nodes P md → md_at md keys = Some n → P n.
Proof.
  revert md. induction keys as [|key keys IH]; intros md Hmd.
  - intros [= <-]. by apply all_nodes_here.
  - simpl. destruct (Children md) as [ch|] eqn:Hch; [|done].
    destruct (ch !! key) as [child|] eqn:Hchild; [|done].
    eauto using all_nodes_child.
Qed.

(** The levels are the depths. *)
Lemma well_leveled_md_at md keys n :
  well_leveled md → md_at md keys = Some n →
  Level n = Level md + length keys ∧ well_leveled n.
Proof.
  revert md. induction keys as [|key keys IH]; intros md Hmd.
  - intros [= <-]. simpl. split; [lia|done].
  - simpl. destruct (Children md) as [ch|] eqn:Hch; [|done].
    destruct (ch !! key) as [child|] eqn:Hchild; [|done]. intros Hn.
    destruct (well_leveled_child _ _ _ _ Hmd Hch Hchild) as [Hlevel Hwl].
    destruct (IH _ Hwl Hn) as [-> ?]. split; [lia|done].
Qed.

Lemma count_docs_set_child md ch key child :
  Children md = Some ch →
  count_docs (set_child md ch key child) + from_option count_docs 0 (ch !! key)
  = count_docs md + count_docs child.
Proof.
  intros Hch. destruct md as [d c t l p]. simpl in *. subst c.
  rewrite (map_fold_sum_insert count_docs).
  destruct (ch !! key) as [old|] eqn:Hold; simpl.
  - rewrite (map_fold_sum_lookup count_docs ch key old) by done. lia.
  - rewrite delete_id by done. lia.
Qed.

Lemma count_docs_doc p title path : count_docs (doc_MDFileInfo p title path) = 1.
Proof. done. Qed.

Lemma count_docs_dir p d : count_docs (dir_MDFileInfo p d) = 0.
Proof. simpl. by rewrite map_fold_empty. Qed.

Lemma place_of_dot dirs name : place_of ("." :: dirs) name = place_of dirs name.
Proof. unfold place_of. by rewrite filter_cons_False by naive_solver. Qed.

Lemma place_of_cons d dirs name :
  d ≠ "." → place_of (d :: dirs) name = d :: place_of dirs name.
Proof. intros Hd. unfold place_of. by rewrite filter_cons_True. Qed.

Lemma place_of_not_nil dirs name : place_of dirs name ≠ [].
Proof. unfold place_of. by destruct (filter _ dirs). Qed.

(** ** Filing a document *)

Section insert_doc.
Context (name title path : string).

(** The step of the loop of [insert_doc], on a directory other than ["."]. *)
Lemma insert_doc_cons p ch d dirs :
  d ≠ "." → Children p = Some ch →
  insert_doc p (d :: dirs) name title path
  = match insert_doc (default (dir_MDFileInfo p d) (ch !! d)) dirs name title path with
    | Ok child' => Ok (set_child p ch d child')
    | Panic => Panic
    end.
Proof.
  intros Hd Hch. simpl. rewrite decide_False, Hch by done. by destruct (ch !! d).
Qed.

(** Every run of [insert_doc] without a panic is one of the three cases. *)
Lemma insert_doc_inserts p dirs p' :
  insert_doc p dirs name title path = Ok p' →
  inserts name title path p dirs p'.
Proof.
  revert p p'. induction dirs as [|d dirs IH]; intros p p'.
  - simpl. destruct (Children p) as [ch|] eqn:Hch; [|done].
    intros [= <-]. by constructor.
  - destruct (decide (d = ".")) as [->|Hd].
    { simpl. intros Hins. constructor. by apply IH. }
    destruct (Children p) as [ch|] eqn:Hch; [|by simpl; rewrite decide_False, Hch].
    rewrite (insert_doc_cons _ ch) by done.
    destruct (insert_doc _ dirs _ _ _) as [child'|] eqn:Hins; [|done].
    intros [= <-]. constructor; auto.
Qed.

(** And each of the three cases is a run of [insert_doc]. *)
Lemma inserts_insert_doc p dirs p' :
  inserts name title path p dirs p' →
  insert_doc p dirs name title path = Ok p'.
Proof.
  induction 1 as [p ch Hch|p dirs p' _ IH|p ch d dirs child' Hd Hch _ IH].
  - simpl. by rewrite Hch.
  - done.
  - by rewrite (insert_doc_cons _ ch), IH.
Qed.

Lemma fileable_empty p dirs : Children p = Some ∅ → fileable p dirs = true.
Proof.
  intros Hp. induction dirs as [|d dirs IH]; simpl; rewrite Hp; [done|].
  case_decide; [done|]. by rewrite lookup_empty.
Qed.

(** [insert_doc] does not panic where the directories can be gone through. *)
Lemma insert_doc_fileable p dirs :
  fileable p dirs = true → ∃ p', insert_doc p dirs name title path = Ok p'.
Proof.
  revert p. induction dirs as [|d dirs IH]; intros p.
  - simpl. destruct (Children p); [eauto|done].
  - destruct (decide (d = ".")) as [->|Hd].
    + simpl. destruct (Children p); [|done]. auto.
    + destruct (Children p) as [ch|] eqn:Hch; [|by simpl; rewrite Hch].
      rewrite (insert_doc_cons _ ch) by done. simpl. rewrite Hch, decide_False by done.
      intros Hf.
      destruct (IH (default (dir_MDFileInfo p d) (ch !! d))) as [child' ->]; [|eauto].
      destruct (ch !! d); [done|]. by apply fileable_empty.
Qed.

(** The node gone from keeps its fields, and has a map. *)
Lemma inserts_fields p dirs p' :
  inserts name title path p dirs p' →
  IsDir p' = IsDir p ∧ Level p' = Level p ∧ Title p' = Title p
  ∧ Path p' = Path p ∧ is_Some (Children p').
Proof. induction 1; simpl; eauto. Qed.

Lemma inserts_well_leveled p dirs p' :
  inserts name title path p dirs p' → well_leveled p → well_leveled p'.
Proof.
  induction 1 as [p ch Hch|p dirs p' _ IH|p ch d dirs child' Hd Hch Hins IH];
    intros Hp.
  - apply well_leveled_set_child; [done..|]. apply well_leveled_leaf. by left.
  - auto.
  - assert (Level (default (dir_MDFileInfo p d) (ch !! d)) = Level p + 1
            ∧ well_leveled (default (dir_MDFileInfo p d) (ch !! d)))
      as [Hlevel Hchild].
    { destruct (ch !! d) as [child|] eqn:Hchild; simpl.
      - by eapply well_leveled_child.
      - split; [done|]. apply well_leveled_leaf. by right. }
    apply well_leveled_set_child; [done..| |by apply IH].
    by apply inserts_fields in Hins as (_ & -> & _).
Qed.

(** A property of the nodes that new directories and the document have, and
    that does not look at the map of a node, is kept. *)
Lemma inserts_all_nodes (P : MDFileInfo → Prop) p dirs p' :
  (∀ q d, P (dir_MDFileInfo q d)) →
  (∀ q, P (doc_MDFileInfo q title path)) →
  (∀ md ch key child, P md → P (set_child md ch key child)) →
  inserts name title path p dirs p' → all_nodes P p → all_nodes P p'.
Proof.
  intros Hdir Hdoc Hset.
  induction 1 as [p ch Hch|p dirs p' _ IH|p ch d dirs child' Hd Hch _ IH];
    intros Hp.
  - apply all_nodes_set_child; [done..|]. apply all_nodes_leaf; [done|by left].
  - auto.
  - apply all_nodes_set_child; [done..|]. apply IH.
    destruct (ch !! d) as [child|] eqn:Hchild; simpl.
    + eauto using all_nodes_child.
    + apply all_nodes_leaf; [done|by right].
Qed.

(** The document is at its place. *)
Lemma inserts_place p dirs p' :
  inserts name title path p dirs p' →
  ∃ doc, md_at p' (place_of dirs name) = Some doc
         ∧ IsDir doc = false ∧ Children doc = None
         ∧ Title doc = title ∧ Path doc = path.
Proof.
  induction 1 as [p ch Hch|p dirs p' _ IH|p ch d dirs child' Hd Hch _ IH].
  - eexists. unfold place_of. simpl. by rewrite lookup_insert_eq.
  - by rewrite place_of_dot.
  - by rewrite place_of_cons, md_at_set_child_eq.
Qed.

(** The nodes on the way to the document are directories with a map. *)
Lemma inserts_way p dirs p' keys :
  inserts name title path p dirs p' →
  keys `prefix_of` filter (λ d, d ≠ ".") dirs →
  ∃ n, md_at p' keys = Some n ∧ is_Some (Children n).
Proof.
  intros Hins. revert keys.
  induction Hins as [p ch Hch|p dirs p' _ IH|p ch d dirs child' Hd Hch _ IH];
    intros keys.
  - intros ->%prefix_nil_inv. by eexists.
  - rewrite filter_cons_False by naive_solver. apply IH.
  - rewrite filter_cons_True by done. intros Hkeys.
    destruct keys as [|key keys]; [by eexists|].
    pose proof (prefix_cons_inv_1 _ _ _ _ Hkeys) as ->.
    apply prefix_cons_inv_2 in Hkeys. rewrite md_at_set_child_eq. eauto.
Qed.

(** The nodes off the way to the document are as they were, but for what
    was below its place. *)
Lemma inserts_other p dirs p' keys :
  inserts name title path p dirs p' →
  ¬ keys `prefix_of` place_of dirs name →
  md_at p' keys
  = if decide (place_of dirs name `prefix_of` keys) then None else md_at p keys.
Proof.
  intros Hins. revert keys.
  induction Hins as [p ch Hch|p dirs p' _ IH|p ch d dirs child' Hd Hch _ IH];
    intros keys Hkeys.
  - unfold place_of in *. simpl in *.
    destruct keys as [|key keys]; [by destruct Hkeys; apply prefix_nil|].
    destruct (decide (name = key)) as [<-|Hne].
    + rewrite md_at_set_child_eq, decide_True by (apply prefix_cons, prefix_nil).
      destruct keys as [|key keys]; [by destruct Hkeys|]. done.
    + rewrite md_at_set_child_ne, decide_False; [done| |done..].
      by intros ?%prefix_cons_inv_1.
  - rewrite place_of_dot in *. auto.
  - rewrite place_of_cons in * by done.
    destruct keys as [|key keys]; [by destruct Hkeys; apply prefix_nil|].
    destruct (decide (d = key)) as [<-|Hne].
    + rewrite md_at_set_child_eq.
      assert (¬ keys `prefix_of` place_of dirs name) as Hkeys'
        by (by intros ?; apply Hkeys, prefix_cons).
      rewrite (IH _ Hkeys').
      destruct (decide (place_of dirs name `prefix_of` keys)) as [Hp|Hp].
      { by rewrite decide_True by (by apply prefix_cons). }
      rewrite decide_False by (by intros ?%prefix_cons_inv_2).
      rewrite (md_at_cons _ ch) by done.
      destruct (ch !! d) as [child|]; [done|]. simpl.
      destruct keys as [|key keys]; [by destruct Hkeys'; apply prefix_nil|].
      apply md_at_no_children. by right.
    + rewrite md_at_set_child_ne, decide_False; [done| |done..].
      by intros ?%prefix_cons_inv_1.
Qed.

(** A document filed at a free place is one document more. *)
Lemma inserts_count p dirs p' :
  inserts name title path p dirs p' →
  md_at p (place_of dirs name) = None →
  count_docs p' = count_docs p + 1.
Proof.
  induction 1 as [p ch Hch|p dirs p' _ IH|p ch d dirs child' Hd Hch _ IH].
  - intros Hfree. unfold place_of in Hfree. simpl in Hfree. rewrite Hch in Hfree.
    pose proof (count_docs_set_child p ch name
                  (doc_MDFileInfo p title path) Hch) as Hcount.
    rewrite count_docs_doc in Hcount.
    destruct (ch !! name); [done|]. cbn [from_option] in Hcount. lia.
  - by rewrite place_of_dot.
  - rewrite place_of_cons, (md_at_cons _ ch) by done. intros Hfree.
    pose proof (count_docs_set_child p ch d child' Hch) as Hcount.
    destruct (ch !! d) as [child|] eqn:Hchild;
      cbn [from_option default mbind option_bind] in *; unfold id in *.
    + rewrite (IH Hfree) in Hcount. lia.
    + rewrite IH, count_docs_dir in Hcount; [lia|].
      destruct (place_of dirs name) eqn:Hplace; [by apply place_of_not_nil in Hplace|].
      apply md_at_no_children. by right.
Qed.

End insert_doc.

Lemma walkFn_root dirPath e root root' err :
  walkFn dirPath e root = Ok (root', err) →
  (Level root = 0 ∧ IsDir root = true ∧ well_leveled root) →
  Level root' = 0 ∧ IsDir root' = true ∧ well_leveled root'.
Proof.
  unfold walkFn. destruct (we_err e); [by intros [= <- <-]|].
  destruct (is_markdown e); [|by intros [= <- <-]].
  destruct (insert_doc _ _ _ _ _) as [r|] eqn:Hins; [|done].
  intros [= <- <-] (Hl & Hd & Hw). apply insert_doc_inserts in Hins.
  pose proof (inserts_fields _ _ _ _ _ _ Hins) as (-> & -> & _).
  eauto using inserts_well_leveled.
Qed.

(** ** Trees of documents filed apart *)

Lemma prefix_snoc_inv {A} (keys l : list A) x :
  keys `prefix_of` l ++ [x] → keys = l ++ [x] ∨ keys `prefix_of` l.
Proof.
  intros [k Hk]. destruct k as [|y k _] using rev_ind.
  - left. by rewrite app_nil_r in Hk.
  - right. rewrite app_assoc in Hk. apply app_inj_tail in Hk as [-> _].
    by apply prefix_app_r.
Qed.

Lemma fileable_way p dirs :
  (∀ keys n, keys `prefix_of` filter (λ d, d ≠ ".") dirs →
             md_at p keys = Some n → is_Some (Children n)) →
  fileable p dirs = true.
Proof.
  revert p. induction dirs as [|d dirs IH]; intros p Hway.
  - destruct (Hway [] p) as [ch Hch]; [done..|]. simpl. by rewrite Hch.
  - destruct (Hway [] p) as [ch Hch]; [apply prefix_nil|done|].
    simpl. rewrite Hch. case_decide as Hd.
    + subst d. apply IH. intros keys n Hkeys. apply Hway.
      by rewrite filter_cons_False by naive_solver.
    + destruct (ch !! d) as [child|] eqn:Hchild; [|done].
      apply IH. intros keys n Hkeys Hn. apply (Hway (d :: keys)).
      * rewrite filter_cons_True by done. by apply prefix_cons.
      * by rewrite (md_at_cons _ ch), Hchild.
Qed.

Lemma filed_root : filed root_MDFileInfo [].
Proof.
  split_and!.
  - simpl. by rewrite map_fold_empty.
  - intros [|key keys] n; [done|]. by rewrite md_at_no_children by (by right).
  - intros [|key keys] n; [by intros [= <-]|].
    by rewrite md_at_no_children by (by right).
Qed.

(** A document filed apart from the others is one document more, and the
    tree again holds the documents filed and nothing else. *)
Lemma filed_insert_doc root places dirs name title path :
  filed root places →
  Forall (apart (place_of dirs name)) places →
  ∃ root', insert_doc root dirs name title path = Ok root'
           ∧ filed root' (place_of dirs name :: places).
Proof.
  intros (Hcount & Hnodes & Hdocs) Hapart. rewrite Forall_forall in Hapart.
  assert (md_at root (place_of dirs name) = None) as Hfree.
  { destruct (md_at root (place_of dirs name)) as [n|] eqn:Hn; [|done].
    destruct (Hnodes _ _ Hn) as (place & Hplace & Hpre).
    - apply place_of_not_nil.
    - by destruct (Hapart _ Hplace). }
  destruct (insert_doc_fileable name title path root dirs) as [root' Hins].
  { apply fileable_way. intros keys n Hkeys Hn.
    destruct (Children n) eqn:Hch; [done|].
    destruct (Hapart _ (Hdocs _ _ Hn Hch)) as [_ []]. by apply prefix_app_r. }
  exists root'. split; [done|]. apply insert_doc_inserts in Hins. split_and!.
  - rewrite (inserts_count _ _ _ _ _ _ Hins Hfree), Hcount. simpl. lia.
  - intros keys n Hn Hne.
    destruct (decide (keys `prefix_of` place_of dirs name)) as [Hpre|Hpre].
    { eexists. split; [left|done]. }
    rewrite (inserts_other _ _ _ _ _ _ _ Hins Hpre) in Hn.
    case_decide; [done|].
    destruct (Hnodes _ _ Hn Hne) as (place & ? & ?). exists place. split; [by right|done].
  - intros keys n Hn Hch.
    destruct (decide (keys `prefix_of` place_of dirs name)) as [Hpre|Hpre].
    { apply prefix_snoc_inv in Hpre as [->|Hpre]; [left|].
      destruct (inserts_way _ _ _ _ _ _ _ Hins Hpre) as (n' & Hn' & Hch').
      rewrite Hn in Hn'. simplify_eq. rewrite Hch in Hch'. by destruct Hch'. }
    rewrite (inserts_other _ _ _ _ _ _ _ Hins Hpre) in Hn.
    case_decide; [done|]. right. eauto.
Qed.

Lemma apart_sym place1 place2 : apart place1 place2 → apart place2 place1.
Proof. by intros []. Qed.

Lemma doc_places_cons dirPath e walked :
  doc_places dirPath (e :: walked)
  = if is_markdown e then key_path dirPath e :: doc_places dirPath walked
    else doc_places dirPath walked.
Proof.
  unfold doc_places. destruct (is_markdown e) eqn:He.
  - by rewrite filter_cons_True.
  - rewrite filter_cons_False; [done|]. by rewrite He.
Qed.

(** The walk files every Markdown document it meets, when the walk has no
    error and the places of the documents are apart. *)
Lemma Walk_filed dirPath walked root places :
  Forall (λ e, we_err e = None) walked →
  filed root places →
  collision_free (doc_places dirPath walked) →
  Forall (λ place, Forall (apart place) places) (doc_places dirPath walked) →
  ∃ root', Walk walked (walkFn dirPath) root = Ok (root', None)
           ∧ filed root' (reverse (doc_places dirPath walked) ++ places).
Proof.
  intros Hwalked. revert root places.
  induction Hwalked as [|e walked He _ IH]; intros root places Hroot Hfree Hapart.
  { by exists root. }
  cbn [Walk]. unfold walkFn at 1. rewrite He.
  rewrite doc_places_cons in Hfree, Hapart |- *.
  destruct (is_markdown e); [|by apply IH].
  destruct Hfree as [Hfree1 Hfree]. apply Forall_cons in Hapart as [Hapart1 Hapart].
  destruct (filed_insert_doc root places (dirs_of dirPath e) (Name (we_info e))
              (GetMDTitle (we_file e)) (url.PathEscape (relPath dirPath e)))
    as (root1 & -> & Hroot1); [done..|].
  destruct (IH root1 (key_path dirPath e :: places)) as (root' & Hwalk & Hroot');
    [done|done| |].
  { rewrite Forall_forall in Hapart, Hfree1 |- *. intros place Hplace.
    apply Forall_cons. split; [|by apply Hapart]. by apply apart_sym, Hfree1. }
  exists root'. split; [done|]. by rewrite reverse_cons, <- app_assoc.
Qed.

(** ** Escaping *)

Lemma upperhex_not_separator n : url.upperhex n ≠ "/"%char.
Proof.
  unfold url.upperhex.
  destruct (nth_in_or_default (N.to_nat n)
              (String.list_ascii_of_string "0123456789ABCDEF") "0"%char)
    as [Hin| ->]; [|done].
  intros Heq. rewrite Heq in Hin. simpl in Hin.
  repeat (destruct Hin as [Hin|Hin]; [discriminate Hin|]). done.
Qed.

Lemma list_ascii_of_string_app s1 s2 :
  String.list_ascii_of_string (s1 +:+ s2)
  = String.list_ascii_of_string s1 ++ String.list_ascii_of_string s2.
Proof.
  induction s1 as [|c s1 IH]; [done|]. rewrite append_cons. simpl. by rewrite IH.
Qed.

(** No separator is left in an escaped path. *)
Lemma PathEscape_no_separator s : no_separator (url.PathEscape s).
Proof.
  unfold no_separator. induction s as [|c s IH]; simpl; [apply not_elem_of_nil|].
  rewrite list_ascii_of_string_app, elem_of_app. intros [Hc|Hs]; [|done].
  unfold url.escape_byte in Hc. destruct (url.shouldEscape c) eqn:Hesc; simpl in Hc.
  - rewrite !elem_of_cons in Hc. destruct Hc as [Hc|[Hc|[Hc|Hc]]].
    + discriminate Hc.
    + by eapply upperhex_not_separator.
    + by eapply upperhex_not_separator.
    + by apply elem_of_nil in Hc.
  - apply list_elem_of_singleton in Hc. by subst c.
Qed.

(** No path kept in a tree of [ListMDFiles] holds a separator. *)
Lemma ListMDFiles_no_separator dirPath walked root err :
  ListMDFiles dirPath walked = Ok (root, err) →
  all_nodes (λ md, no_separator (Path md)) root.
Proof.
  unfold ListMDFiles.
  apply (Walk_invariant (all_nodes (λ md, no_separator (Path md)))).
  - intros e st st' err' Hst. unfold walkFn.
    destruct (we_err e); [by intros [= <- <-]|].
    destruct (is_markdown e); [|by intros [= <- <-]].
    destruct (insert_doc _ _ _ _ _) as [r|] eqn:Hins; [|done].
    intros [= <- <-]. apply insert_doc_inserts in Hins.
    eapply inserts_all_nodes; [| | |exact Hins|exact Hst]; simpl;
      auto using PathEscape_no_separator.
  - apply all_nodes_leaf; [|by right]. unfold no_separator. simpl.
    by intros ?%list_elem_of_singleton.
Qed.

(** ** The order of strings, byte by byte *)

Lemma string_le_empty s : sort.string_le "" s.
Proof. by destruct s. Qed.

Lemma string_le_not_empty c s : ¬ sort.string_le (String c s) "".
Proof. by intros ?. Qed.

Lemma string_le_cons a s b t :
  sort.string_le (String a s) (String b t)
  ↔ (N_of_ascii a < N_of_ascii b)%N ∨ (a = b ∧ sort.string_le s t).
Proof.
  unfold sort.string_le, String.le, String.leb. simpl. unfold Ascii.compare.
  destruct (N.compare_spec (N_of_ascii a) (N_of_ascii b)) as [Heq|Hlt|Hgt].
  - assert (a = b) as -> by (by rewrite <- (ascii_N_embedding a), Heq, ascii_N_embedding).
    split; [by right|]. intros [?|[_ ?]]; [lia|done].
  - split; [by left|done].
  - split; [done|]. intros [?|[-> _]]; lia.
Qed.

Lemma node_toc_list_item md indent :
  2 ≤ Level md →
  node_toc md indent
  = strings.Repeat indent (Level md - 2) +:+ spec_list_item md +:+ LF.
Proof.
  unfold node_toc, spec_list_item. intros Hlevel.
  destruct (Level md) as [|[|n]]; [lia..|].
  destruct (IsDir md); by rewrite ?append_assoc.
Qed.

(** * More lemmas *)

(** ** Titles *)

Lemma h1Regex_text line text :
  regexp.h1Regex line = Some text →
  regexp.has_newline text = false ∧ regexp.skip_space text = text.
Proof. intros (ws & _ & _ & _ & ? & ?)%h1Regex_spec. done. Qed.

Lemma scan_title_text lines :
  regexp.has_newline (scan_title lines) = false
  ∧ regexp.skip_space (scan_title lines) = scan_title lines.
Proof.
  induction lines as [|line lines IH]; simpl; [done|].
  destruct (regexp.h1Regex line) as [text|] eqn:Hline; [|done].
  by apply h1Regex_text in Hline.
Qed.

Lemma GetMDTitle_text file :
  regexp.has_newline (GetMDTitle file) = false
  ∧ regexp.skip_space (GetMDTitle file) = GetMDTitle file.
Proof. destruct file; [done|apply scan_title_text]. Qed.

(** ** More on filing a document *)

Section insert_doc_more.
Context (name title path : string).

(** The map of the node gone from is not empty afterwards. *)
Lemma inserts_not_empty p dirs p' :
  inserts name title path p dirs p' →
  ∃ ch, Children p' = Some ch ∧ ch ≠ ∅.
Proof.
  induction 1 as [p ch Hch|p dirs p' _ IH|p ch d dirs child' Hd Hch _ IH];
    [|done|]; eexists; (split; [done|]); apply insert_non_empty.
Qed.

(** A run of [insert_doc] without a panic goes through the directories. *)
Lemma inserts_fileable p dirs p' :
  inserts name title path p dirs p' → fileable p dirs = true.
Proof.
  induction 1 as [p ch Hch|p dirs p' Hins IH|p ch d dirs child' Hd Hch _ IH].
  - simpl. by rewrite Hch.
  - apply inserts_fields in Hins as (_ & _ & _ & _ & Hsome).
    simpl. destruct (Children p) eqn:Hch; [done|].
    destruct dirs; simpl in IH; by rewrite Hch in IH.
  - simpl. rewrite Hch, decide_False by done. by destruct (ch !! d).
Qed.

(** [insert_doc] panics exactly where the directories cannot be gone
    through. *)
Lemma insert_doc_panic p dirs :
  insert_doc p dirs name title path = Panic ↔ fileable p dirs = false.
Proof.
  split.
  - intros Hpanic. destruct (fileable p dirs) eqn:Hf; [|done].
    apply (insert_doc_fileable name title path) in Hf as [p' Hp'].
    by rewrite Hp' in Hpanic.
  - intros Hf. destruct (insert_doc p dirs name title path) as [p'|] eqn:Hins;
      [|done].
    apply insert_doc_inserts, inserts_fileable in Hins. by rewrite Hins in Hf.
Qed.

(** Filing adds one document at most. *)
Lemma inserts_count_le p dirs p' :
  inserts name title path p dirs p' → count_docs p' ≤ count_docs p + 1.
Proof.
  induction 1 as [p ch Hch|p dirs p' _ IH|p ch d dirs child' Hd Hch _ IH].
  - pose proof (count_docs_set_child p ch name
                  (doc_MDFileInfo p title path) Hch) as Hcount.
    rewrite count_docs_doc in Hcount. lia.
  - done.
  - pose proof (count_docs_set_child p ch d child' Hch) as Hcount.
    destruct (ch !! d) as [child|] eqn:Hchild;
      cbn [from_option default] in *; unfold id in *.
    + lia.
    + rewrite count_docs_dir in IH. lia.
Qed.

End insert_doc_more.

(** ** Properties of the nodes below the root *)

Lemma all_children_child Q md ch key child :
  all_children Q md → Children md = Some ch → ch !! key = Some child →
  Q key child ∧ all_children Q child.
Proof. intros [H]. apply H. Qed.

Lemma all_children_leaf Q md :
  Children md = None ∨ Children md = Some ∅ → all_children Q md.
Proof.
  intros H. constructor. intros ch key child Hch.
  destruct H as [H|H]; rewrite H in Hch; [done|]. simplify_eq.
  by rewrite lookup_empty.
Qed.

Lemma all_children_set_child Q md ch key child :
  all_children Q md → Children md = Some ch →
  Q key child → all_children Q child →
  all_children Q (set_child md ch key child).
Proof.
  intros Hmd Hch HQ Hchild. constructor. simpl.
  intros ? key' child' [= <-] Hkey'.
  destruct (decide (key = key')) as [<-|Hne].
  - rewrite lookup_insert_eq in Hkey'. by simplify_eq.
  - rewrite lookup_insert_ne in Hkey' by done.
    eauto using all_children_child.
Qed.

Lemma all_children_md_at Q md keys key n :
  all_children Q md → md_at md (keys ++ [key]) = Some n → Q key n.
Proof.
  revert md. induction keys as [|k keys IH]; intros md Hmd; simpl;
    destruct (Children md) as [ch|] eqn:Hch; try done.
  - destruct (ch !! key) as [child|] eqn:Hchild; [|done]. intros [= <-].
    by eapply all_children_child.
  - destruct (ch !! k) as [child|] eqn:Hchild; [|done].
    apply IH. by eapply all_children_child.
Qed.

(** A property of the nodes below [p] is kept by [insert_doc], when the
    document has it, a directory gone into keeps it, and a new directory
    has it once it is gone into. *)
Lemma inserts_all_children (Q : string → MDFileInfo → Prop)
    name title path p dirs p' :
  (∀ q, Q name (doc_MDFileInfo q title path)) →
  (∀ key n dirs n', Q key n → inserts name title path n dirs n' → Q key n') →
  (∀ q d dirs n',
      inserts name title path (dir_MDFileInfo q d) dirs n' → Q d n') →
  inserts name title path p dirs p' → all_children Q p → all_children Q p'.
Proof.
  intros Hdoc Hkeep Hnew.
  induction 1 as [p ch Hch|p dirs p' _ IH|p ch d dirs child' Hd Hch Hins IH];
    intros Hp.
  - apply all_children_set_child; [done..|]. apply all_children_leaf. by left.
  - auto.
  - destruct (ch !! d) as [child|] eqn:Hchild; simpl in *.
    + destruct (all_children_child _ _ _ _ _ Hp Hch Hchild) as [HQ Hbelow].
      apply all_children_set_child; eauto.
    + apply all_children_set_child; [done..|by eapply Hnew|].
      apply IH, all_children_leaf. by right.
Qed.

Lemma inserts_dir_shape name title path key n dirs n' :
  IsDir n = true → Title n = key →
  inserts name title path n dirs n' → node_shape key n'.
Proof.
  unfold node_shape, dir_shape. intros Hdir Htitle Hins.
  pose proof (inserts_fields _ _ _ _ _ _ Hins) as (-> & _ & -> & _).
  rewrite Hdir. split; [done|]. by eapply inserts_not_empty.
Qed.

Lemma inserts_node_shape name title path key n dirs n' :
  node_shape key n → inserts name title path n dirs n' → node_shape key n'.
Proof.
  unfold node_shape. intros Hn Hins.
  destruct (IsDir n) eqn:Hdir.
  - destruct Hn as [Hkey _]. by eapply inserts_dir_shape.
  - destruct Hn as [Hch _]. apply inserts_fileable in Hins.
    destruct dirs; simpl in Hins; by rewrite Hch in Hins.
Qed.

(** The nodes below the root of a tree of [ListMDFiles] have the shape of a
    directory or of a document. *)
Lemma ListMDFiles_node_shape dirPath walked root err :
  ListMDFiles dirPath walked = Ok (root, err) → all_children node_shape root.
Proof.
  unfold ListMDFiles. apply (Walk_invariant (all_children node_shape)).
  - intros e st st' err' Hst. unfold walkFn.
    destruct (we_err e); [by intros [= <- <-]|].
    destruct (is_markdown e) eqn:Hmd; [|by intros [= <- <-]].
    destruct (insert_doc _ _ _ _ _) as [r|] eqn:Hins; [|done].
    intros [= <- <-]. apply insert_doc_inserts in Hins.
    eapply inserts_all_children; [| | |exact Hins|exact Hst].
    + intros q. unfold node_shape, doc_shape. simpl.
      destruct (GetMDTitle_text (we_file e)) as [? ?]. split_and!; [done| |done..].
      unfold is_markdown in Hmd. intros Hname. rewrite Hname in Hmd.
      by rewrite andb_false_r in Hmd.
    + intros key n dirs n'. apply inserts_node_shape.
    + intros q d dirs n' Hnew. by eapply inserts_dir_shape; [| |exact Hnew].
  - apply all_children_leaf. by right.
Qed.

(** ** Filing two documents *)

Lemma insert_doc_no_map p dirs name title path :
  Children p = None → insert_doc p dirs name title path = Panic.
Proof.
  intros Hp. induction dirs as [|d dirs IH]; simpl; rewrite ?Hp; [done|].
  by case_decide.
Qed.

Lemma insert_doc_nil p ch name title path :
  Children p = Some ch →
  insert_doc p [] name title path
  = Ok (set_child p ch name (doc_MDFileInfo p title path)).
Proof. intros Hch. simpl. by rewrite Hch. Qed.

Lemma insert_doc_filter p dirs name title path :
  insert_doc p dirs name title path
  = insert_doc p (filter (λ d, d ≠ ".") dirs) name title path.
Proof.
  revert p. induction dirs as [|d dirs IH]; intros p; [done|].
  destruct (decide (d = ".")) as [->|Hd].
  - rewrite filter_cons_False by naive_solver. simpl. apply IH.
  - rewrite filter_cons_True by done.
    destruct (Children p) as [ch|] eqn:Hch; [|by rewrite !insert_doc_no_map].
    by rewrite !(insert_doc_cons _ _ _ _ ch), IH.
Qed.

Lemma apart_cons key place1 place2 :
  apart (key :: place1) (key :: place2) → apart place1 place2.
Proof. intros [H1 H2]. split; intros ?; [apply H1|apply H2]; by apply prefix_cons. Qed.

Lemma apart_head key1 place1 key2 place2 :
  apart (key1 :: place1) (key2 :: place2) → place1 = [] ∨ place2 = [] →
  key1 ≠ key2.
Proof.
  intros [H1 H2] [->| ->] <-; [apply H1|apply H2]; apply prefix_cons, prefix_nil.
Qed.

(** Two documents filed at places apart come to the same tree in either
    order, and to a panic in either order. *)
Lemma insert_doc_comm p dirs1 name1 title1 path1 dirs2 name2 title2 path2 :
  Forall (λ d, d ≠ ".") dirs1 → Forall (λ d, d ≠ ".") dirs2 →
  apart (dirs1 ++ [name1]) (dirs2 ++ [name2]) →
  and_then (insert_doc p dirs1 name1 title1 path1)
    (λ p1, insert_doc p1 dirs2 name2 title2 path2)
  = and_then (insert_doc p dirs2 name2 title2 path2)
      (λ p2, insert_doc p2 dirs1 name1 title1 path1).
Proof.
  revert p dirs2. induction dirs1 as [|d1 dirs1 IH]; intros p dirs2 Hd1 Hd2 Hap;
    (destruct (Children p) as [ch|] eqn:Hch;
      [|by rewrite !insert_doc_no_map]);
    destruct dirs2 as [|d2 dirs2].
  - assert (name1 ≠ name2) as Hne by (eapply apart_head; eauto).
    rewrite !(insert_doc_nil _ ch) by done. cbn [and_then].
    erewrite !insert_doc_nil by done.
    unfold set_child. simpl. by rewrite insert_insert_ne.
  - apply Forall_cons in Hd2 as [Hd2 _].
    assert (name1 ≠ d2) as Hne by (eapply apart_head; eauto).
    rewrite (insert_doc_cons _ _ _ _ ch), (insert_doc_nil _ ch) by done.
    cbn [and_then].
    rewrite (insert_doc_cons _ _ _ _ (<[name1:=doc_MDFileInfo p title1 path1]> ch))
      by done.
    rewrite lookup_insert_ne by done.
    change (dir_MDFileInfo (set_child p ch name1 (doc_MDFileInfo p title1 path1)) d2)
      with (dir_MDFileInfo p d2).
    destruct (insert_doc _ dirs2 _ _ _) as [child2|]; [|done].
    cbn [and_then]. erewrite insert_doc_nil by done.
    unfold set_child. simpl. by rewrite insert_insert_ne.
  - apply Forall_cons in Hd1 as [Hd1 _].
    assert (d1 ≠ name2) as Hne by (eapply apart_head; eauto).
    rewrite (insert_doc_cons _ _ _ _ ch), (insert_doc_nil _ ch) by done.
    cbn [and_then].
    rewrite (insert_doc_cons _ _ _ _ (<[name2:=doc_MDFileInfo p title2 path2]> ch))
      by done.
    rewrite lookup_insert_ne by done.
    change (dir_MDFileInfo (set_child p ch name2 (doc_MDFileInfo p title2 path2)) d1)
      with (dir_MDFileInfo p d1).
    destruct (insert_doc _ dirs1 _ _ _) as [child1|]; [|done].
    cbn [and_then]. erewrite insert_doc_nil by done.
    unfold set_child. simpl. by rewrite insert_insert_ne.
  - apply Forall_cons in Hd1 as [Hd1 Hdirs1].
    apply Forall_cons in Hd2 as [Hd2 Hdirs2].
    rewrite !(insert_doc_cons _ _ _ _ ch) by done.
    destruct (decide (d1 = d2)) as [<-|Hne].
    + specialize (IH (default (dir_MDFileInfo p d1) (ch !! d1)) dirs2
                    Hdirs1 Hdirs2 (apart_cons _ _ _ Hap)).
      destruct (insert_doc _ dirs1 name1 _ _) as [child1|] eqn:H1;
        destruct (insert_doc _ dirs2 name2 _ _) as [child2|] eqn:H2;
        cbn [and_then] in *; [| | |done].
      * rewrite (insert_doc_cons _ _ _ _ (<[d1:=child1]> ch)),
          (insert_doc_cons _ _ _ _ (<[d1:=child2]> ch)) by done.
        rewrite !lookup_insert_eq. cbn [default from_option]. unfold id.
        rewrite IH.
        destruct (insert_doc child2 dirs1 _ _ _) as [child21|]; [|done].
        unfold set_child. simpl. by rewrite !insert_insert_eq.
      * rewrite (insert_doc_cons _ _ _ _ (<[d1:=child1]> ch)) by done.
        rewrite lookup_insert_eq. cbn [default from_option]. unfold id.
        by rewrite IH.
      * rewrite (insert_doc_cons _ _ _ _ (<[d1:=child2]> ch)) by done.
        rewrite lookup_insert_eq. cbn [default from_option]. unfold id.
        by rewrite <- IH.
    + destruct (insert_doc _ dirs1 name1 _ _) as [child1|] eqn:H1;
        destruct (insert_doc _ dirs2 name2 _ _) as [child2|] eqn:H2;
        cbn [and_then]; [| | |done].
      * rewrite (insert_doc_cons _ _ _ _ (<[d1:=child1]> ch)),
          (insert_doc_cons _ _ _ _ (<[d2:=child2]> ch)) by done.
        rewrite !lookup_insert_ne by done.
        change (dir_MDFileInfo (set_child p ch d1 child1) d2)
          with (dir_MDFileInfo p d2).
        change (dir_MDFileInfo (set_child p ch d2 child2) d1)
          with (dir_MDFileInfo p d1).
        rewrite H1, H2. unfold set_child. simpl. by rewrite insert_insert_ne.
      * rewrite (insert_doc_cons _ _ _ _ (<[d1:=child1]> ch)) by done.
        rewrite lookup_insert_ne by done.
        change (dir_MDFileInfo (set_child p ch d1 child1) d2)
          with (dir_MDFileInfo p d2).
        by rewrite H2.
      * rewrite (insert_doc_cons _ _ _ _ (<[d2:=child2]> ch)) by done.
        rewrite lookup_insert_ne by done.
        change (dir_MDFileInfo (set_child p ch d2 child2) d1)
          with (dir_MDFileInfo p d1).
        by rewrite H1.
Qed.

(** ** The order of the walk *)

Lemma Forall_filter_dirs dirs : Forall (λ d, d ≠ ".") (filter (λ d, d ≠ ".") dirs).
Proof. apply Forall_forall. by intros d [? _]%list_elem_of_filter. Qed.

Lemma and_then_ext {A B} (o : outcome A) (f g : A → outcome B) :
  (∀ a, f a = g a) → and_then o f = and_then o g.
Proof. intros Hfg. destruct o; simpl; auto. Qed.

Lemma and_then_assoc {A B C} (o : outcome A) (f : A → outcome B)
    (g : B → outcome C) :
  and_then (and_then o f) g = and_then o (λ a, and_then (f a) g).
Proof. by destruct o. Qed.

Lemma and_then_Ok {A} (o : outcome A) : and_then o Ok = o.
Proof. by destruct o. Qed.

Lemma walkFn_step dirPath e root :
  we_err e = None →
  walkFn dirPath e root
  = and_then (step dirPath e root) (λ root', Ok (root', None)).
Proof.
  intros He. unfold walkFn, step. rewrite He. destruct (is_markdown e); [|done].
  by destruct (insert_doc _ _ _ _ _).
Qed.

Lemma Walk_cons_step dirPath e entries root :
  we_err e = None →
  Walk (e :: entries) (walkFn dirPath) root
  = and_then (step dirPath e root) (Walk entries (walkFn dirPath)).
Proof.
  intros He. cbn [Walk]. rewrite walkFn_step by done.
  by destruct (step dirPath e root).
Qed.

(** Two steps whose documents are filed at places apart come to the same in
    either order. *)
Lemma step_comm dirPath e1 e2 root :
  (is_markdown e1 = true → is_markdown e2 = true →
   apart (key_path dirPath e1) (key_path dirPath e2)) →
  and_then (step dirPath e1 root) (step dirPath e2)
  = and_then (step dirPath e2 root) (step dirPath e1).
Proof.
  intros Hap. unfold step.
  destruct (is_markdown e1) eqn:Hmd1, (is_markdown e2) eqn:Hmd2; cbn [and_then].
  - rewrite (insert_doc_filter root (dirs_of dirPath e1)),
      (insert_doc_filter root (dirs_of dirPath e2)).
    rewrite (and_then_ext _ _
               (λ p, insert_doc p (filter (λ d, d ≠ ".") (dirs_of dirPath e2))
                       (Name (we_info e2)) (GetMDTitle (we_file e2))
                       (url.PathEscape (relPath dirPath e2))))
      by (intros; apply insert_doc_filter).
    rewrite (and_then_ext (insert_doc root _ (Name (we_info e2)) _ _) _
               (λ p, insert_doc p (filter (λ d, d ≠ ".") (dirs_of dirPath e1))
                       (Name (we_info e1)) (GetMDTitle (we_file e1))
                       (url.PathEscape (relPath dirPath e1))))
      by (intros; apply insert_doc_filter).
    apply insert_doc_comm; [apply Forall_filter_dirs..|by apply Hap].
  - by rewrite and_then_Ok.
  - by rewrite and_then_Ok.
  - done.
Qed.

(** Two entries whose documents are filed at places apart can be walked in
    either order. *)
Lemma Walk_swap dirPath e1 e2 entries root :
  we_err e1 = None → we_err e2 = None →
  (is_markdown e1 = true → is_markdown e2 = true →
   apart (key_path dirPath e1) (key_path dirPath e2)) →
  Walk (e1 :: e2 :: entries) (walkFn dirPath) root
  = Walk (e2 :: e1 :: entries) (walkFn dirPath) root.
Proof.
  intros He1 He2 Hap.
  rewrite (Walk_cons_step _ e1), (Walk_cons_step _ e2) by done.
  rewrite (and_then_ext _ _
             (λ r, and_then (step dirPath e2 r) (Walk entries (walkFn dirPath))))
    by (intros; by apply Walk_cons_step).
  rewrite (and_then_ext (step dirPath e2 root) _
             (λ r, and_then (step dirPath e1 r) (Walk entries (walkFn dirPath))))
    by (intros; by apply Walk_cons_step).
  by rewrite <- !and_then_assoc, step_comm.
Qed.

Lemma collision_free_perm places1 places2 :
  places1 ≡ₚ places2 → collision_free places1 → collision_free places2.
Proof.
  induction 1 as [|place l1 l2 Hl IH|place1 place2 l|l1 l2 l3 _ IH1 _ IH2];
    simpl; [done| | |auto].
  - intros [Hplace Hfree]. split; [by rewrite <- Hl|auto].
  - intros [[H12 H1]%Forall_cons [H2 Hfree]].
    split_and!; [|done..]. apply Forall_cons. split; [by apply apart_sym|done].
Qed.

(** The tree does not depend on the order of the walk, when the walk has no
    error and the documents are filed at places apart. *)
Lemma Walk_perm dirPath walked1 walked2 :
  walked1 ≡ₚ walked2 →
  Forall (λ e, we_err e = None) walked1 →
  collision_free (doc_places dirPath walked1) →
  ∀ root, Walk walked1 (walkFn dirPath) root = Walk walked2 (walkFn dirPath) root.
Proof.
  induction 1 as [|e l1 l2 Hl IH|e1 e2 l|l1 l2 l3 Hl12 IH1 Hl23 IH2];
    intros Herr Hfree root.
  - done.
  - apply Forall_cons in Herr as [He Herr]. rewrite !(Walk_cons_step _ e) by done.
    apply and_then_ext. intros r. apply IH; [done|].
    rewrite doc_places_cons in Hfree. by destruct (is_markdown e); [destruct Hfree|].
  - apply Forall_cons in Herr as [He2 [He1 Herr]%Forall_cons].
    apply Walk_swap; [done..|]. intros Hmd1 Hmd2.
    rewrite !doc_places_cons, Hmd1, Hmd2 in Hfree.
    destruct Hfree as [[H21 _]%Forall_cons _]. done.
  - rewrite IH1 by done. apply IH2.
    + by rewrite <- Hl12.
    + eapply collision_free_perm; [|exact Hfree]. unfold doc_places.
      by rewrite Hl12.
Qed.

(** ** The scanner on the bytes of a file *)

Lemma Split_not_nil s sep : strings.Split s sep ≠ [].
Proof.
  destruct s as [|c s]; simpl; [done|].
  destruct (Ascii.eqb c sep); [done|]. by destruct (strings.Split s sep).
Qed.

Lemma Split_line line rest :
  regexp.has_newline line = false →
  strings.Split (line +:+ String bufio.newline rest) bufio.newline
  = line :: strings.Split rest bufio.newline.
Proof.
  induction line as [|c line IH]; intros Hline.
  - change ("" +:+ String bufio.newline rest) with (String bufio.newline rest).
    cbn [strings.Split]. by rewrite Ascii.eqb_refl.
  - simpl in Hline. apply orb_false_elim in Hline as [Hc Hline].
    rewrite append_cons. cbn [strings.Split]. by rewrite Hc, IH.
Qed.

Lemma Split_last line :
  regexp.has_newline line = false →
  strings.Split line bufio.newline = [line].
Proof.
  induction line as [|c line IH]; intros Hline; [done|].
  simpl in Hline. apply orb_false_elim in Hline as [Hc Hline].
  cbn [strings.Split]. by rewrite Hc, IH.
Qed.

(** A line that fits the buffer is the first token, without its end of line
    marker; the scanner goes on with what follows. *)
Lemma ScanLines_line line rest :
  regexp.has_newline line = false → bufio.fits line = true →
  bufio.ScanLines (line +:+ LF +:+ rest)
  = (bufio.dropCR line :: (bufio.ScanLines rest).1, (bufio.ScanLines rest).2).
Proof.
  intros Hline Hfits. unfold bufio.ScanLines, LF. rewrite append_cons.
  change ("" +:+ rest) with rest. rewrite Split_line by done.
  cbn [bufio.tokens]. rewrite Hfits.
  pose proof (Split_not_nil rest bufio.newline) as Hrest.
  destruct (strings.Split rest bufio.newline) as [|piece pieces]; [done|].
  by destruct (bufio.tokens (piece :: pieces)).
Qed.

(** At a line that does not fit the buffer the scanner stops, with no
    token. *)
Lemma ScanLines_too_long line rest :
  regexp.has_newline line = false → bufio.fits line = false →
  bufio.ScanLines line = ([], ReadError)
  ∧ bufio.ScanLines (line +:+ LF +:+ rest) = ([], ReadError).
Proof.
  intros Hline Hfits. unfold bufio.ScanLines, LF. rewrite append_cons.
  change ("" +:+ rest) with rest. rewrite Split_line, Split_last by done.
  cbn [bufio.tokens]. by rewrite Hfits.
Qed.

Lemma string_of_list_ascii_app l1 l2 :
  String.string_of_list_ascii (l1 ++ l2)
  = String.string_of_list_ascii l1 +:+ String.string_of_list_ascii l2.
Proof. induction l1 as [|c l1 IH]; [done|]. simpl. by rewrite IH, append_cons. Qed.

(** [dropCR] takes one carriage return from the end, or nothing. *)
Lemma dropCR_spec data :
  (data = bufio.dropCR data +:+ String bufio.carriage_return "")
  ∨ (bufio.dropCR data = data
     ∧ ∀ data', data ≠ data' +:+ String bufio.carriage_return "").
Proof.
  unfold bufio.dropCR.
  destruct (rev (String.list_ascii_of_string data)) as [|c rdata] eqn:Hrev.
  - right. split; [done|]. intros data' ->.
    rewrite list_ascii_of_string_app, rev_app_distr in Hrev. done.
  - assert (data = String.string_of_list_ascii (rev rdata) +:+ String c "")
      as Hdata.
    { rewrite <- (String.string_of_list_ascii_of_string data),
        <- (rev_involutive (String.list_ascii_of_string data)), Hrev.
      simpl. by rewrite string_of_list_ascii_app. }
    destruct (Ascii.eqb_spec c bufio.carriage_return) as [->|Hc]; [by left|].
    right. split; [done|]. intros data' ->.
    rewrite list_ascii_of_string_app, rev_app_distr in Hrev. simpl in Hrev.
    congruence.
Qed.

Lemma append_snoc_inj (s1 s2 : string) c1 c2 :
  s1 +:+ String c1 "" = s2 +:+ String c2 "" → s1 = s2 ∧ c1 = c2.
Proof.
  revert s2. induction s1 as [|a s1 IH]; intros [|b s2]; rewrite ?append_cons.
  - by intros [= ->].
  - change ("" +:+ String c1 "") with (String c1 ""). intros [= -> H].
    by destruct s2.
  - change ("" +:+ String c2 "") with (String c2 ""). intros [= -> H].
    by destruct s1.
  - intros [= -> H]. by destruct (IH _ H) as [-> ->].
Qed.

Lemma append_ends pre text s c :
  text ≠ "" → pre +:+ text = s +:+ String c "" →
  ∃ s', text = s' +:+ String c "".
Proof.
  intros Htext. revert s. induction pre as [|a pre IH]; intros s Hs.
  - by exists s.
  - rewrite append_cons in Hs. destruct s as [|b s].
    + change ("" +:+ String c "") with (String c "") in Hs.
      injection Hs as _ Hs. destruct pre; [by destruct text|done].
    + rewrite append_cons in Hs. injection Hs as _ Hs. eauto.
Qed.

(** The terminal carriage return of a line with something before the text
    is that of the text. *)
Lemma dropCR_app pre text :
  text ≠ "" → bufio.dropCR (pre +:+ text) = pre +:+ bufio.dropCR text.
Proof.
  intros Htext.
  destruct (dropCR_spec text) as [Ht|[Ht Hno]],
    (dropCR_spec (pre +:+ text)) as [Hp|[Hp Hpno]].
  - assert ((pre +:+ bufio.dropCR text) +:+ String bufio.carriage_return ""
            = bufio.dropCR (pre +:+ text) +:+ String bufio.carriage_return "")
      as Heq by (by rewrite append_assoc, <- Ht).
    by apply append_snoc_inj in Heq as [-> _].
  - destruct (Hpno (pre +:+ bufio.dropCR text)).
    by rewrite append_assoc, <- Ht.
  - destruct (append_ends _ _ _ _ Htext Hp) as [s' Hs']. by destruct (Hno s').
  - by rewrite Ht, Hp.
Qed.

Lemma skip_space_length s :
  String.length (regexp.skip_space s) ≤ String.length s.
Proof.
  induction s as [|c s IH]; simpl; [done|].
  destruct (regexp.is_space c); simpl; lia.
Qed.

Lemma skip_space_fixed c s :
  regexp.skip_space (String c s) = String c s ↔ regexp.is_space c = false.
Proof.
  simpl. destruct (regexp.is_space c); [|done]. split; [|done].
  intros Hs. pose proof (skip_space_length s) as Hlen. rewrite Hs in Hlen.
  simpl in Hlen. lia.
Qed.

Lemma dropCR_text title :
  regexp.has_newline title = false → regexp.skip_space title = title →
  regexp.has_newline (bufio.dropCR title) = false
  ∧ regexp.skip_space (bufio.dropCR title) = bufio.dropCR title.
Proof.
  intros Hnl Hskip. destruct (dropCR_spec title) as [Ht|[-> _]]; [|done].
  rewrite Ht, has_newline_app in Hnl. apply orb_false_elim in Hnl as [Hnl _].
  split; [done|]. destruct (bufio.dropCR title) as [|c s] eqn:Hdrop; [done|].
  rewrite Ht, append_cons in Hskip. apply skip_space_fixed in Hskip.
  by apply skip_space_fixed.
Qed.

Lemma dropCR_not_begins line : ¬ begins_h1 line → ¬ begins_h1 (bufio.dropCR line).
Proof.
  intros Hline (c & rest & Hdrop & Hc). apply Hline.
  destruct (dropCR_spec line) as [Hl|[Hl _]].
  - rewrite Hl, Hdrop, !append_cons. by eexists _, _.
  - rewrite <- Hl, Hdrop. by eexists _, _.
Qed.

Lemma unlines_cons line lines :
  unlines (line :: lines) = line +:+ LF +:+ unlines lines.
Proof. unfold unlines. by rewrite fmap_cons, concat_cons, append_assoc. Qed.

(** The scanner on lines that are no heading lines, and what follows. *)
Lemma scan_title_plain pre rest :
  Forall plain_line pre →
  scan_title (bufio.ScanLines (unlines pre +:+ rest)).1
  = scan_title (bufio.ScanLines rest).1.
Proof.
  induction 1 as [|line pre (Hnl & Hfits & Hline) _ IH]; [done|].
  rewrite unlines_cons, !append_assoc, ScanLines_line by done.
  cbn [fst scan_title]. rewrite <- IH.
  assert (regexp.h1Regex (bufio.dropCR line) = None) as ->; [|done].
  destruct (regexp.h1Regex (bufio.dropCR line)) as [text|] eqn:Hre; [|done].
  apply h1Regex_begins in Hre. by apply dropCR_not_begins in Hre.
Qed.

Lemma GetMDTitle_file_of data :
  GetMDTitle (file_of data) = scan_title (bufio.ScanLines data).1.
Proof. unfold file_of. by destruct (bufio.ScanLines data). Qed.

(** The first heading line of a file, after lines that are none: its text,
    without a terminal carriage return, is the title. *)
Lemma GetMDTitle_heading pre ws title rest :
  Forall plain_line pre →
  ws ≠ "" → all_space ws → regexp.has_newline ws = false →
  title ≠ "" → regexp.skip_space title = title →
  regexp.has_newline title = false →
  bufio.fits ("#" +:+ ws +:+ title) = true →
  GetMDTitle (file_of (unlines pre +:+ ("#" +:+ ws +:+ title) +:+ LF +:+ rest))
  = bufio.dropCR title.
Proof.
  intros Hpre Hws Hsp Hwsnl Htitle Hskip Hnl Hfits.
  rewrite GetMDTitle_file_of, scan_title_plain by done.
  rewrite ScanLines_line; [|by rewrite !has_newline_app, Hwsnl, Hnl|done].
  cbn [scan_title fst].
  rewrite <- !append_assoc, dropCR_app by done. rewrite append_assoc.
  destruct (dropCR_text title Hnl Hskip) as [Hnl' Hskip'].
  assert (regexp.h1Regex ("#" +:+ ws +:+ bufio.dropCR title)
          = Some (bufio.dropCR title)) as ->; [|done].
  apply h1Regex_spec. by exists ws.
Qed.

(** A line too long for the buffer of the scanner, met before a heading
    line, leaves the file without a title, whatever follows it. *)
Lemma GetMDTitle_too_long pre line rest :
  Forall plain_line pre →
  regexp.has_newline line = false → bufio.fits line = false →
  GetMDTitle (file_of (unlines pre +:+ line)) = ""
  ∧ GetMDTitle (file_of (unlines pre +:+ line +:+ LF +:+ rest)) = "".
Proof.
  intros Hpre Hnl Hfits. rewrite !GetMDTitle_file_of, !scan_title_plain by done.
  destruct (ScanLines_too_long line rest Hnl Hfits) as [-> ->]. done.
Qed.








(** ** The number of documents, with collisions *)

Lemma Walk_count_le dirPath walked root root' err :
  Walk walked (walkFn dirPath) root = Ok (root', err) →
  count_docs root'
  ≤ count_docs root
    + length (filter (λ e, is_markdown e = true) (delivered walked)).
Proof.
  revert root. induction walked as [|e walked IH]; intros root.
  - intros [= <- <-]. simpl. lia.
  - cbn [Walk delivered]. destruct (we_err e) as [err'|] eqn:He.
    + rewrite (walkFn_err _ _ _ err') by done. intros [= <- <-]. simpl. lia.
    + rewrite walkFn_step by done. unfold step.
      destruct (is_markdown e) eqn:Hmd.
      * destruct (insert_doc _ _ _ _ _) as [root1|] eqn:Hins; [|done].
        cbn [and_then]. intros Hwalk%IH.
        apply insert_doc_inserts, inserts_count_le in Hins.
        rewrite filter_cons_True by done. simpl. lia.
      * cbn [and_then]. intros Hwalk%IH.
        rewrite filter_cons_False by (by rewrite Hmd). lia.
Qed.

(** ** When the walk panics *)

Lemma fileable_true p dirs keys n :
  fileable p dirs = true →
  keys `prefix_of` filter (λ d, d ≠ ".") dirs →
  md_at p keys = Some n → is_Some (Children n).
Proof.
  revert p keys. induction dirs as [|d dirs IH]; intros p keys Hp Hkeys Hn.
  - apply prefix_nil_inv in Hkeys as ->. injection Hn as <-.
    simpl in Hp. by destruct (Children p).
  - simpl in Hp. destruct (Children p) as [ch|] eqn:Hch; [|done].
    case_decide as Hd.
    + subst d. rewrite filter_cons_False in Hkeys by naive_solver. eauto.
    + rewrite filter_cons_True in Hkeys by done.
      destruct keys as [|key keys]; [injection Hn as <-; by rewrite Hch|].
      apply prefix_cons_inv_1 in Hkeys as Hkey. subst key.
      apply prefix_cons_inv_2 in Hkeys.
      rewrite (md_at_cons _ ch) in Hn by done.
      destruct (ch !! d) as [child|] eqn:Hchild; [|done]. simpl in Hn. eauto.
Qed.

(** The directories cannot be gone through when a node without a map, a
    document, is met on the way. *)
Lemma fileable_false p dirs :
  fileable p dirs = false
  ↔ ∃ keys n, keys `prefix_of` filter (λ d, d ≠ ".") dirs
              ∧ md_at p keys = Some n ∧ Children n = None.
Proof.
  split.
  - revert p. induction dirs as [|d dirs IH]; intros p Hp.
    + simpl in Hp. destruct (Children p) as [ch|] eqn:Hch; [done|].
      by exists [], p.
    + simpl in Hp. destruct (Children p) as [ch|] eqn:Hch;
        [|exists [], p; split_and!; [apply prefix_nil|done..]].
      case_decide as Hd.
      * subst d. rewrite filter_cons_False by naive_solver. auto.
      * rewrite filter_cons_True by done.
        destruct (ch !! d) as [child|] eqn:Hchild; [|done].
        destruct (IH child Hp) as (keys & n & Hkeys & Hn & Hnch).
        exists (d :: keys), n. split_and!; [by apply prefix_cons| |done].
        by rewrite (md_at_cons _ ch), Hchild.
  - intros (keys & n & Hkeys & Hn & Hch).
    destruct (fileable p dirs) eqn:Hf; [|done].
    destruct (fileable_true p dirs keys n Hf Hkeys Hn) as [ch Hch'].
    congruence.
Qed.

(** The function of the walk panics on a Markdown file whose directories
    run through a document, and on nothing else. *)
Lemma walkFn_panic dirPath e root :
  walkFn dirPath e root = Panic
  ↔ we_err e = None ∧ is_markdown e = true
    ∧ ∃ keys n, keys `prefix_of` filter (λ d, d ≠ ".") (dirs_of dirPath e)
                ∧ md_at root keys = Some n ∧ Children n = None.
Proof.
  rewrite <- fileable_false,
    <- (insert_doc_panic (Name (we_info e)) (GetMDTitle (we_file e))
          (url.PathEscape (relPath dirPath e))).
  unfold walkFn. destruct (we_err e); [by split; [|intros [? _]]|].
  destruct (is_markdown e); [|by split; [|intros (_ & ? & _)]].
  destruct (insert_doc _ _ _ _ _); [by split; [|intros (_ & _ & ?)]|done].
Qed.

(** ** Looking up the documents of a walk *)

Lemma Walk_root dirPath walked root err :
  Walk walked (walkFn dirPath) root_MDFileInfo = Ok (root, err) →
  Level root = 0 ∧ IsDir root = true ∧ well_leveled root.
Proof.
  apply (Walk_invariant
           (λ root, Level root = 0 ∧ IsDir root = true ∧ well_leveled root)).
  - intros e st st' err' Hst Hfn. by eapply walkFn_root.
  - split_and!; [done..|]. apply well_leveled_leaf. by right.
Qed.

Lemma Walk_snoc dirPath walked e root :
  Forall (λ e, we_err e = None) walked → we_err e = None →
  Walk (walked ++ [e]) (walkFn dirPath) root
  = and_then
      (and_then (Walk walked (walkFn dirPath) root) (λ r, Ok r.1))
      (λ r, and_then (step dirPath e r) (λ r', Ok (r', None))).
Proof.
  intros Hwalked He. rewrite Walk_app.
  destruct (Walk walked _ _) as [[r err]|] eqn:Hwalk; [|done].
  apply Walk_no_err in Hwalk as ->; [|done]. cbn [and_then fst].
  rewrite Walk_cons_step by done. by destruct (step dirPath e r).
Qed.

(** Every Markdown file of a walk without errors and collisions is in the
    tree, at its place. *)
Lemma Walk_lookup dirPath walked e :
  Forall (λ e, we_err e = None) walked →
  collision_free (doc_places dirPath walked) →
  e ∈ walked → is_markdown e = true →
  ∃ root doc,
    Walk walked (walkFn dirPath) root_MDFileInfo = Ok (root, None)
    ∧ md_at root (key_path dirPath e) = Some doc
    ∧ IsDir doc = false ∧ Children doc = None
    ∧ Title doc = GetMDTitle (we_file e)
    ∧ Path doc = url.PathEscape (relPath dirPath e)
    ∧ Level doc = length (key_path dirPath e).
Proof.
  intros Herr Hfree [pre [post ->]]%list_elem_of_split Hmd.
  destruct (Walk_filed dirPath (pre ++ e :: post) root_MDFileInfo []
              Herr filed_root Hfree) as (root & Hwalk & _).
  { apply Forall_forall. intros place _. constructor. }
  exists root.
  assert (pre ++ e :: post ≡ₚ (pre ++ post) ++ [e]) as Hperm.
  { by rewrite <- Permutation_middle, <- Permutation_cons_append. }
  pose proof Hwalk as Hwalk'.
  rewrite (Walk_perm _ _ _ Hperm Herr Hfree) in Hwalk'.
  assert (Forall (λ e, we_err e = None) (pre ++ post) ∧ we_err e = None)
    as [Herr' He].
  { apply Forall_app in Herr as [Hpre [He Hpost]%Forall_cons].
    split; [by apply Forall_app|done]. }
  rewrite Walk_snoc in Hwalk' by done.
  destruct (Walk (pre ++ post) _ _) as [[r err]|]; [|done].
  cbn [and_then fst] in Hwalk'. unfold step in Hwalk'. rewrite Hmd in Hwalk'.
  destruct (insert_doc _ _ _ _ _) as [root'|] eqn:Hins; [|done].
  injection Hwalk' as ->.
  destruct (inserts_place _ _ _ _ _ _ (insert_doc_inserts _ _ _ _ _ _ Hins))
    as (doc & Hdoc & Hdir & Hch & Hdt & Hdp).
  exists doc. split_and!; [done..|].
  destruct (Walk_root _ _ _ _ Hwalk) as (Hlevel & _ & Hwl).
  destruct (well_leveled_md_at _ _ _ Hwl Hdoc) as [Hdl _].
  unfold key_path. lia.
Qed.

(** Every document of the tree of a walk without errors and collisions is
    a Markdown file of the walk. *)
Lemma Walk_documents dirPath walked root err keys n :
  Forall (λ e, we_err e = None) walked →
  collision_free (doc_places dirPath walked) →
  Walk walked (walkFn dirPath) root_MDFileInfo = Ok (root, err) →
  md_at root keys = Some n → Children n = None →
  ∃ e, e ∈ walked ∧ is_markdown e = true ∧ keys = key_path dirPath e.
Proof.
  intros Herr Hfree Hwalk Hn Hch.
  destruct (Walk_filed dirPath walked root_MDFileInfo []
              Herr filed_root Hfree) as (root' & Hwalk' & _ & _ & Hdocs).
  { apply Forall_forall. intros place _. constructor. }
  rewrite Hwalk in Hwalk'. injection Hwalk' as <- _.
  specialize (Hdocs keys n Hn Hch).
  rewrite app_nil_r, elem_of_reverse in Hdocs. unfold doc_places in Hdocs.
  apply list_elem_of_fmap in Hdocs as (e & -> & [He Hmd]%list_elem_of_filter).
  by exists e.
Qed.

(** ** Every node is rendered *)

Lemma concat_app (l1 l2 : list string) :
  String.concat "" (l1 ++ l2) = String.concat "" l1 +:+ String.concat "" l2.
Proof.
  induction l1 as [|s l1 IH]; [done|].
  by rewrite <- app_comm_cons, !concat_cons, IH, append_assoc.
Qed.

Lemma CreateTocTree_child md ch key child indent sortAsc :
  Children md = Some ch → ch !! key = Some child →
  ∃ before after,
    CreateTocTree md indent sortAsc
    = (node_toc md indent +:+ before)
      +:+ CreateTocTree child indent sortAsc +:+ after.
Proof.
  intros Hch Hchild. rewrite CreateTocTree_eq.
  assert (key ∈ stringKeys md sortAsc) as [l1 [l2 Hkeys]]%list_elem_of_split.
  { unfold stringKeys. rewrite Hch. apply elem_of_sorted_keys. by eexists. }
  rewrite Hkeys, fmap_app, fmap_cons, concat_app, concat_cons.
  assert (child_of md key = child) as ->.
  { unfold child_of. rewrite Hch. simpl. by rewrite Hchild. }
  eexists _, _. by rewrite append_assoc.
Qed.

Lemma CreateTocTree_md_at md keys n indent sortAsc :
  md_at md keys = Some n →
  ∃ before after,
    CreateTocTree md indent sortAsc
    = before +:+ CreateTocTree n indent sortAsc +:+ after.
Proof.
  revert md. induction keys as [|key keys IH]; intros md Hn.
  - injection Hn as <-. exists "", "". by rewrite append_empty_r.
  - simpl in Hn. destruct (Children md) as [ch|] eqn:Hch; [|done].
    destruct (ch !! key) as [child|] eqn:Hchild; [|done].
    destruct (IH _ Hn) as (before & after & Hchildtoc).
    destruct (CreateTocTree_child md ch key child indent sortAsc Hch Hchild)
      as (before' & after' & ->).
    rewrite Hchildtoc. exists ((node_toc md indent +:+ before') +:+ before),
      (after +:+ after').
    by rewrite !append_assoc.
Qed.

(** ** main *)

Lemma ListMDFiles_nothing dirPath walked :
  Forall (λ e, we_err e = None) walked →
  Forall (λ e, is_markdown e = false) walked →
  ListMDFiles dirPath walked = Ok (root_MDFileInfo, None).
Proof.
  unfold ListMDFiles. generalize root_MDFileInfo.
  induction walked as [|e walked IH]; intros root; [done|].
  intros [He Herr]%Forall_cons [Hmd Hnone]%Forall_cons.
  rewrite Walk_cons_step by done. unfold step. rewrite Hmd. cbn [and_then]. auto.
Qed.

Lemma stringKeys_empty md sortAsc :
  Children md = Some ∅ → stringKeys md sortAsc = [].
Proof.
  intros Hch. unfold stringKeys, sorted_keys. rewrite Hch. simpl.
  rewrite map_to_list_empty. by destruct sortAsc.
Qed.

Lemma main_eq wd title sortAsc getwd walked :
  main wd title sortAsc getwd walked
  = and_then (ListMDFiles wd walked)
      (λ '(files, err),
         match err with
         | Some err => Ok (Fatal err)
         | None =>
             Ok (Output
                   (CreateTocTree (set_title files (root_title wd title getwd))
                      "  " sortAsc))
         end).
Proof.
  unfold main, root_title.
  by destruct (ListMDFiles wd walked) as [[files [err|]]|].
Qed.

Lemma ListMDFiles_first_error dirPath walked root err :
  ListMDFiles dirPath walked = Ok (root, err) → err = first_error walked.
Proof.
  unfold ListMDFiles. rewrite Walk_delivered.
  destruct (Walk (delivered walked) _ _) as [[root' err']|]; [|done].
  by intros [= _ <-].
Qed.

(** ** Escaping, undone *)

Lemma unescape_escape_byte c rest :
  unescape (url.escape_byte c +:+ rest) = String c (unescape rest).
Proof.
  unfold url.escape_byte. destruct (url.shouldEscape c) eqn:Hesc.
  - rewrite !append_cons. change ("" +:+ rest) with rest.
    cbn [unescape]. rewrite Ascii.eqb_refl. f_equal.
    clear Hesc rest. by destruct c as [[] [] [] [] [] [] [] []]; vm_compute.
  - rewrite append_cons. change ("" +:+ rest) with rest. cbn [unescape].
    destruct (Ascii.eqb_spec c "%") as [->|]; [done|done].
Qed.

Lemma unescape_PathEscape s : unescape (url.PathEscape s) = s.
Proof.
  induction s as [|c s IH]; [done|].
  cbn [url.PathEscape]. by rewrite unescape_escape_byte, IH.
Qed.

Lemma PathEscape_inj s1 s2 : url.PathEscape s1 = url.PathEscape s2 → s1 = s2.
Proof.
  intros Heq. by rewrite <- (unescape_PathEscape s1), Heq, unescape_PathEscape.
Qed.

Lemma escape_byte_path_bytes c :
  forallb path_byte (String.list_ascii_of_string (url.escape_byte c)) = true.
Proof. by destruct c as [[] [] [] [] [] [] [] []]; vm_compute. Qed.

Lemma PathEscape_path_bytes s :
  forallb path_byte (String.list_ascii_of_string (url.PathEscape s)) = true.
Proof.
  induction s as [|c s IH]; [done|]. cbn [url.PathEscape].
  by rewrite list_ascii_of_string_app, forallb_app, escape_byte_path_bytes, IH.
Qed.

Lemma ListMDFiles_paths (P : string → Prop) dirPath walked root err :
  P "." → (∀ s, P (url.PathEscape s)) →
  ListMDFiles dirPath walked = Ok (root, err) →
  all_nodes (λ md, P (Path md)) root.
Proof.
  intros Hdot Hesc. unfold ListMDFiles.
  apply (Walk_invariant (all_nodes (λ md, P (Path md)))).
  - intros e st st' err' Hst. unfold walkFn.
    destruct (we_err e); [by intros [= <- <-]|].
    destruct (is_markdown e); [|by intros [= <- <-]].
    destruct (insert_doc _ _ _ _ _) as [r|] eqn:Hins; [|done].
    intros [= <- <-]. apply insert_doc_inserts in Hins.
    eapply inserts_all_nodes; [| | |exact Hins|exact Hst]; simpl; auto.
  - by apply all_nodes_leaf; [|right].
Qed.

(** ** List items and their lines *)

Lemma Repeat_replicate s n :
  strings.Repeat s n = String.concat "" (replicate n s).
Proof.
  induction n as [|n IH]; [done|].
  cbn [strings.Repeat replicate]. by rewrite concat_cons, IH.
Qed.

Lemma append_length (s1 s2 : string) :
  String.length (s1 +:+ s2) = String.length s1 + String.length s2.
Proof.
  induction s1 as [|c s1 IH]; [done|]. rewrite append_cons. simpl. by rewrite IH.
Qed.

Lemma Repeat_length s n :
  String.length (strings.Repeat s n) = n * String.length s.
Proof.
  induction n as [|n IH]; [done|].
  cbn [strings.Repeat]. rewrite append_length, IH. lia.
Qed.

Lemma has_newline_Repeat s n :
  regexp.has_newline s = false → regexp.has_newline (strings.Repeat s n) = false.
Proof.
  intros Hs. induction n as [|n IH]; [done|].
  cbn [strings.Repeat]. by rewrite has_newline_app, Hs, IH.
Qed.

Lemma path_bytes_no_newline s :
  forallb path_byte (String.list_ascii_of_string s) = true →
  regexp.has_newline s = false.
Proof.
  induction s as [|c s IH]; [done|]. simpl.
  intros [Hc Hs]%andb_prop. rewrite IH, orb_false_r by done.
  destruct (Ascii.eqb_spec c bufio.newline) as [->|]; [done|done].
Qed.

Lemma spec_list_item_no_newline md :
  regexp.has_newline (Title md) = false →
  (IsDir md = false → regexp.has_newline (Path md) = false) →
  regexp.has_newline (spec_list_item md) = false.
Proof.
  intros Htitle Hpath. unfold spec_list_item. destruct (IsDir md).
  - by rewrite has_newline_app, Htitle.
  - by rewrite !has_newline_app, Htitle, Hpath.
Qed.

(** A document of a tree of [ListMDFiles] holds no newline in its title
    nor in its path. *)
Lemma ListMDFiles_doc_no_newline dirPath walked root err keys n :
  ListMDFiles dirPath walked = Ok (root, err) →
  md_at root keys = Some n → IsDir n = false →
  regexp.has_newline (Title n) = false ∧ regexp.has_newline (Path n) = false.
Proof.
  intros Hlist Hn Hdir. split.
  - destruct (Walk_root _ _ _ _ Hlist) as (_ & Hroot & _).
    destruct keys as [|key keys _] using rev_ind.
    + injection Hn as <-. congruence.
    + apply ListMDFiles_node_shape in Hlist.
      pose proof (all_children_md_at _ _ _ _ _ Hlist Hn) as Hshape.
      unfold node_shape in Hshape. rewrite Hdir in Hshape. apply Hshape.
  - apply path_bytes_no_newline.
    apply (ListMDFiles_paths
             (λ s, forallb path_byte (String.list_ascii_of_string s) = true))
      in Hlist; [|done|apply PathEscape_path_bytes].
    apply (all_nodes_md_at _ _ _ _ Hlist Hn).
Qed.

(** ** main, to its end *)

Lemma main_exit_eq wd outFile title sortAsc getwd walked write :
  main_exit wd outFile title sortAsc getwd walked write
  = and_then (main wd title sortAsc getwd walked)
      (λ ex,
         match ex with
         | Fatal err => Ok (LogFatal err)
         | Output toc =>
             if decide (outFile = "") then Ok (Printed (toc +:+ LF))
             else match write outFile toc with
                  | Some err => Ok (LogFatal err)
                  | None => Ok (Written outFile toc)
                  end
         end).
Proof.
  unfold main_exit.
  by destruct (main wd title sortAsc getwd walked) as [[err|toc]|].
Qed.

(** What [main] hands over when it hands over a table. *)
Lemma main_Output wd title sortAsc getwd walked toc :
  main wd title sortAsc getwd walked = Ok (Output toc) →
  first_error walked = None
  ∧ ∃ rest, toc = "# " +:+ root_title wd title getwd +:+ LF +:+ rest.
Proof.
  rewrite main_eq.
  destruct (ListMDFiles wd walked) as [[files err]|] eqn:Hlist; [|done].
  cbn [and_then]. pose proof (ListMDFiles_first_error _ _ _ _ Hlist) as Herr.
  destruct err as [err|]; [done|]. intros Hex.
  replace toc with
    (CreateTocTree (set_title files (root_title wd title getwd)) "  " sortAsc)
    by congruence.
  split; [done|]. destruct (Walk_root _ _ _ _ Hlist) as (Hlevel & _).
  rewrite CreateTocTree_eq. unfold node_toc at 1. cbn [set_title Level].
  rewrite Hlevel. eexists. by rewrite !append_assoc.
Qed.

Lemma main_Fatal wd title sortAsc getwd walked err :
  main wd title sortAsc getwd walked = Ok (Fatal err) →
  first_error walked = Some err.
Proof.
  rewrite main_eq.
  destruct (ListMDFiles wd walked) as [[files err']|] eqn:Hlist; [|done].
  cbn [and_then]. pose proof (ListMDFiles_first_error _ _ _ _ Hlist) as Herr.
  destruct err' as [err'|]; [|done]. congruence.
Qed.

(** ** The two versions of the program *)

Lemma upgrade_root : upgrade v1.root_MDFileInfo = root_MDFileInfo.
Proof. unfold root_MDFileInfo. simpl. by rewrite fmap_empty. Qed.

Lemma upgrade_dir p d :
  upgrade (v1.dir_MDFileInfo p d) = dir_MDFileInfo (upgrade p) d.
Proof.
  destruct p as [n dir ch t l p]. unfold dir_MDFileInfo. simpl.
  by rewrite fmap_empty, Nat.add_1_r.
Qed.

Lemma upgrade_doc p name title path :
  upgrade (v1.doc_MDFileInfo p name title path)
  = doc_MDFileInfo (upgrade p) title path.
Proof.
  destruct p as [n dir ch t l p]. unfold doc_MDFileInfo. simpl.
  by rewrite Nat.add_1_r.
Qed.

Lemma upgrade_set_child p ch key v :
  upgrade (v1.set_child p ch key v)
  = set_child (upgrade p) (upgrade <$> ch) key (upgrade v).
Proof.
  destruct p as [n dir c t l p]. unfold set_child. simpl. by rewrite fmap_insert.
Qed.

Lemma Children_upgrade md :
  Children (upgrade md)
  = (λ ch : gmap string v1.MDFileInfo, upgrade <$> ch) <$> v1.Children md.
Proof. by destruct md as [n d [ch|] t l p]. Qed.

(** Filing a document does the same to the trees of both versions. *)
Lemma insert_doc_upgrade p dirs name title path :
  insert_doc (upgrade p) dirs name title path
  = match v1.insert_doc p dirs name title path with
    | Ok p' => Ok (upgrade p')
    | Panic => Panic
    end.
Proof.
  revert p. induction dirs as [|d dirs IH]; intros p.
  - cbn [insert_doc v1.insert_doc]. rewrite Children_upgrade.
    destruct (v1.Children p) as [ch|]; [|done]. cbn [fmap option_fmap option_map].
    by rewrite upgrade_set_child, upgrade_doc.
  - cbn [insert_doc v1.insert_doc]. case_decide; [done|].
    rewrite Children_upgrade.
    destruct (v1.Children p) as [ch|]; [|done]. cbn [fmap option_fmap option_map].
    rewrite lookup_fmap.
    destruct (ch !! d) as [child|]; cbn [fmap option_fmap option_map].
    + rewrite IH. destruct (v1.insert_doc child _ _ _ _); [|done].
      by rewrite upgrade_set_child.
    + rewrite <- upgrade_dir, IH.
      destruct (v1.insert_doc (v1.dir_MDFileInfo p d) _ _ _ _); [|done].
      by rewrite upgrade_set_child.
Qed.

Lemma walkFn_upgrade dirPath e root :
  walkFn dirPath e (upgrade root) = upgraded (v1.walkFn dirPath e root).
Proof.
  unfold walkFn, v1.walkFn, info_name. destruct (we_err e); [done|].
  destruct (is_markdown e); [|done]. rewrite insert_doc_upgrade.
  by destruct (v1.insert_doc _ _ _ _ _).
Qed.

Lemma Walk_upgrade dirPath walked root :
  Walk walked (walkFn dirPath) (upgrade root)
  = upgraded (Walk walked (v1.walkFn dirPath) root).
Proof.
  revert root. induction walked as [|e walked IH]; intros root; [done|].
  cbn [Walk]. rewrite walkFn_upgrade.
  destruct (v1.walkFn dirPath e root) as [[root' [err|]]|]; [done| |done].
  apply IH.
Qed.

Lemma ListMDFiles_upgrade dirPath walked :
  ListMDFiles dirPath walked = upgraded (v1.ListMDFiles dirPath walked).
Proof.
  unfold ListMDFiles, v1.ListMDFiles. by rewrite <- Walk_upgrade, upgrade_root.
Qed.

Lemma node_toc_upgrade md indent :
  node_toc (upgrade md) indent = v1.node_toc md indent.
Proof.
  unfold node_toc, v1.node_toc. destruct md as [n d ch t l p]. simpl.
  destruct l as [|[|l]]; [done|by destruct d..].
Qed.

Lemma keys_upgrade (ch : gmap string v1.MDFileInfo) :
  (map_to_list (upgrade <$> ch)).*1 ≡ₚ (map_to_list ch).*1.
Proof.
  rewrite map_to_list_fmap, <- list_fmap_compose.
  apply reflexive_eq, list_fmap_ext. by intros i [key child].
Qed.

(** The table of contents of the later version, in either order, is one of
    those that the earlier version may return. *)
Lemma CreateTocTree_upgrade md indent sortAsc :
  v1.CreateTocTree indent md (CreateTocTree (upgrade md) indent sortAsc).
Proof.
  remember (upgrade md) as md2 eqn:Hmd2. revert md Hmd2.
  induction md2 as [md2 IH] using MDFileInfo_ind. intros md ->.
  rewrite CreateTocTree_eq, node_toc_upgrade.
  apply (v1.CreateTocTree_range indent md (stringKeys (upgrade md) sortAsc)
           ((λ key, CreateTocTree (child_of (upgrade md) key) indent sortAsc)
              <$> stringKeys (upgrade md) sortAsc)).
  - unfold stringKeys, sorted_keys. rewrite Children_upgrade.
    destruct (v1.Children md) as [ch|]; simpl.
    + rewrite <- keys_upgrade.
      destruct sortAsc; [apply Strings_perm|apply ReverseStrings_perm].
    + rewrite map_to_list_empty. by destruct sortAsc.
  - apply Forall2_fmap_r, Forall_Forall2_diag, Forall_forall.
    intros key (ch2 & Hch2 & Hchild2)%elem_of_stringKeys.
    rewrite Children_upgrade in Hch2.
    destruct (v1.Children md) as [ch|] eqn:Hch; [|done].
    injection Hch2 as <-. rewrite lookup_fmap in Hchild2.
    destruct (ch !! key) as [child|] eqn:Hchild; [|done].
    injection Hchild2 as Hchild2. exists child. split; [done|].
    rewrite <- Hchild2.
    apply (IH (upgrade <$> ch) key (upgrade child)); [|  |done].
    + by rewrite Children_upgrade, Hch.
    + by rewrite lookup_fmap, Hchild.
Qed.

(** ** Names of documents in the earlier version *)

Lemma drop_while_app {A} (f : A → bool) (l1 l2 : list A) :
  forallb f l1 = true → drop_while f (l1 ++ l2) = drop_while f l2.
Proof.
  induction l1 as [|x l1 IH]; [done|]. simpl.
  intros [-> Hl1]%andb_prop. auto.
Qed.

Lemma TrimRight_app s suffix cutset :
  forallb (v1.in_cutset cutset) (String.list_ascii_of_string suffix) = true →
  v1.TrimRight (s +:+ suffix) cutset = v1.TrimRight s cutset.
Proof.
  intros Hsuffix. unfold v1.TrimRight.
  rewrite list_ascii_of_string_app, rev_app_distr, drop_while_app; [done|].
  rewrite forallb_forall in *. intros c Hc. apply Hsuffix. by apply in_rev.
Qed.

Lemma TrimRight_keeps s c cutset :
  v1.in_cutset cutset c = false →
  v1.TrimRight (s +:+ String c "") cutset = s +:+ String c "".
Proof.
  intros Hc. unfold v1.TrimRight.
  rewrite list_ascii_of_string_app, rev_app_distr. simpl. rewrite Hc.
  change (c :: rev (String.list_ascii_of_string s))
    with (rev [c] ++ rev (String.list_ascii_of_string s)).
  rewrite <- rev_app_distr, rev_involutive, string_of_list_ascii_app.
  by rewrite String.string_of_list_ascii_of_string.
Qed.

Lemma drop_while_length {A} (f : A → bool) (l : list A) :
  length (drop_while f l) ≤ length l.
Proof. induction l as [|x l IH]; simpl; [done|]. destruct (f x); simpl; lia. Qed.

Lemma string_of_list_ascii_length l :
  String.length (String.string_of_list_ascii l) = length l.
Proof. induction l as [|c l IH]; simpl; [done|]. by rewrite IH. Qed.

Lemma list_ascii_of_string_length s :
  length (String.list_ascii_of_string s) = String.length s.
Proof. induction s as [|c s IH]; simpl; [done|]. by rewrite IH. Qed.

Lemma TrimRight_length s cutset :
  String.length (v1.TrimRight s cutset) ≤ String.length s.
Proof.
  unfold v1.TrimRight. rewrite string_of_list_ascii_length, length_rev.
  rewrite <- list_ascii_of_string_length, <- (length_rev (String.list_ascii_of_string s)).
  apply drop_while_length.
Qed.

Lemma TrimRight_drops s c cutset :
  v1.in_cutset cutset c = true →
  v1.TrimRight (s +:+ String c "") cutset = v1.TrimRight s cutset
  ∧ v1.TrimRight (s +:+ String c "") cutset ≠ s +:+ String c "".
Proof.
  intros Hc.
  assert (v1.TrimRight (s +:+ String c "") cutset = v1.TrimRight s cutset) as ->.
  { apply TrimRight_app. simpl. by rewrite Hc. }
  split; [done|]. intros Heq. pose proof (TrimRight_length s cutset) as Hlen.
  rewrite Heq, append_length in Hlen. simpl in Hlen. lia.
Qed.

Lemma Ext_md stem : filepath.Ext (stem +:+ ".md") = ".md".
Proof.
  unfold filepath.Ext. by rewrite list_ascii_of_string_app, rev_app_distr.
Qed.

(** ** main in the earlier version *)

Lemma main_upgrade wd outFile title sortAsc getwd walked toc :
  main wd title sortAsc getwd walked = Ok (Output toc) →
  v1.main wd outFile title getwd walked
    (Ok (if decide (outFile = "") then v1.Nothing else v1.WriteFile outFile toc)).
Proof.
  rewrite main_eq, ListMDFiles_upgrade.
  destruct (v1.ListMDFiles wd walked) as [[files [err|]]|] eqn:Hlist; [done| |done].
  cbn [upgraded and_then]. intros Htoc.
  replace toc with
    (CreateTocTree (set_title (upgrade files) (root_title wd title getwd))
       "  " sortAsc) by congruence.
  apply (v1.main_toc _ _ _ _ _ files); [done|].
  assert (v1.Level files = 0) as Hlevel.
  { assert (ListMDFiles wd walked = Ok (upgrade files, None)) as Hlist2
      by (by rewrite ListMDFiles_upgrade, Hlist).
    destruct (Walk_root _ _ _ _ Hlist2) as (Hl & _).
    by destruct files. }
  assert (set_title (upgrade files) (root_title wd title getwd)
          = upgrade (v1.set_title files (root_title wd title getwd))) as ->.
  { destruct files as [n d ch t l p]. simpl in Hlevel. by subst l. }
  apply CreateTocTree_upgrade.
Qed.

Lemma main_fails_alike wd outFile title sortAsc getwd walked :
  (∀ err, v1.main wd outFile title getwd walked (Ok (v1.Fatal err))
          ↔ main wd title sortAsc getwd walked = Ok (Fatal err))
  ∧ (v1.main wd outFile title getwd walked Panic
     ↔ main wd title sortAsc getwd walked = Panic).
Proof.
  rewrite main_eq, ListMDFiles_upgrade. split; [intros err|]; split.
  - inversion 1 as [|files err' Hlist|files toc Hlist Htoc Hex].
    + by rewrite Hlist.
    + by destruct (decide (outFile = "")).
  - destruct (v1.ListMDFiles wd walked) as [[files [err'|]]|] eqn:Hlist;
      [|done..].
    intros [= ->]. by apply (v1.main_fatal _ _ _ _ _ files).
  - inversion 1 as [Hlist| |]. by rewrite Hlist.
  - destruct (v1.ListMDFiles wd walked) as [[files [err'|]]|] eqn:Hlist;
      [done..|].
    intros _. by apply v1.main_panic.
Qed.

Lemma main_without_out wd title getwd walked ex :
  v1.main wd "" title getwd walked ex →
  ∀ name data, ex ≠ Ok (v1.WriteFile name data).
Proof. inversion 1; intros name data; done. Qed.

(** ** main to its end, in both versions *)

Lemma v1_main_write wd outFile title getwd walked name data :
  v1.main wd outFile title getwd walked (Ok (v1.WriteFile name data)) →
  outFile ≠ "" ∧ name = outFile ∧ first_error walked = None.
Proof.
  inversion 1 as [| |files toc Hlist Htoc Hex].
  destruct (decide (outFile = "")) as [|Hout]; [done|].
  injection Hex as <- <-. split_and!; [done..|].
  assert (ListMDFiles wd walked = Ok (upgrade files, None)) as Hlist2
    by (by rewrite ListMDFiles_upgrade, Hlist).
  by apply ListMDFiles_first_error in Hlist2.
Qed.

Lemma main_exit_panics_alike wd outFile title sortAsc getwd walked write :
  v1.main_exit wd outFile title getwd walked write Panic
  ↔ main_exit wd outFile title sortAsc getwd walked write = Panic.
Proof.
  destruct (main_fails_alike wd outFile title sortAsc getwd walked)
    as [_ Hpanic].
  rewrite main_exit_eq. split.
  - inversion 1 as [Hmain| | | |]. apply Hpanic in Hmain. by rewrite Hmain.
  - destruct (main wd title sortAsc getwd walked) as [[err|toc]|] eqn:Hmain.
    + done.
    + cbn [and_then]. destruct (decide (outFile = "")); [done|].
      by destruct (write outFile toc).
    + intros _. by apply v1.main_exit_panic, Hpanic.
Qed.

(** A failure of the later version is a failure that the earlier one may
    end in. *)
Lemma main_exit_fatal_upgrade wd outFile title sortAsc getwd walked write err :
  main_exit wd outFile title sortAsc getwd walked write = Ok (LogFatal err) →
  v1.main_exit wd outFile title getwd walked write (Ok (v1.Fatal err)).
Proof.
  destruct (main_fails_alike wd outFile title sortAsc getwd walked)
    as [Hfatal _].
  rewrite main_exit_eq.
  destruct (main wd title sortAsc getwd walked) as [[err'|toc]|] eqn:Hmain;
    [| |done]; cbn [and_then].
  - intros [= ->]. by apply v1.main_exit_fatal, Hfatal.
  - pose proof (main_upgrade wd outFile title sortAsc getwd walked toc Hmain)
      as Hv1.
    destruct (decide (outFile = "")) as [|Hout]; [done|].
    destruct (write outFile toc) as [err'|] eqn:Hwrite; [|done].
    intros [= ->]. by eapply v1.main_exit_write_fails.
Qed.

(** Where a failure of the earlier version comes from. *)
Lemma v1_main_exit_fatal wd outFile title getwd walked write err :
  v1.main_exit wd outFile title getwd walked write (Ok (v1.Fatal err)) →
  first_error walked = Some err
  ∨ (first_error walked = None ∧ outFile ≠ ""
     ∧ ∃ toc, write outFile toc = Some err).
Proof.
  inversion 1 as [|err' Hmain| | |name data err' Hmain Hwrite].
  - left. destruct (main_fails_alike wd outFile title true getwd walked)
      as [Hfatal _].
    apply Hfatal in Hmain. by apply main_Fatal in Hmain.
  - right. apply v1_main_write in Hmain as (Hout & -> & Herr).
    split_and!; [done..|]. by exists data.
Qed.

Lemma v1_main_exit_without_out wd title getwd walked write ex :
  v1.main_exit wd "" title getwd walked write ex →
  (∀ name data, ex ≠ Ok (v1.WriteFile name data))
  ∧ (∀ err, ex = Ok (v1.Fatal err) → first_error walked = Some err).
Proof.
  intros Hex. split.
  - intros name data ->. inversion Hex as [| | |name' data' Hmain|].
    by apply v1_main_write in Hmain as [? _].
  - intros err ->. by apply v1_main_exit_fatal in Hex as [?|(_ & ? & _)].
Qed.

(** When the walk met an error, or when no write fails, the earlier [main]
    ends in [log.Fatal] only with an error the later one ends with. *)
Lemma v1_main_exit_fatal_later wd outFile title sortAsc getwd walked write err :
  (is_Some (first_error walked) ∨ ∀ name data, write name data = None) →
  v1.main_exit wd outFile title getwd walked write (Ok (v1.Fatal err)) →
  main_exit wd outFile title sortAsc getwd walked write = Ok (LogFatal err).
Proof.
  intros Hcase.
  destruct (main_fails_alike wd outFile title sortAsc getwd walked)
    as [Hfatal _].
  inversion 1 as [|err' Hmain| | |name data err' Hmain Hwrite].
  - apply Hfatal in Hmain. by rewrite main_exit_eq, Hmain.
  - apply v1_main_write in Hmain as (_ & _ & Hnone).
    destruct Hcase as [[e He]|Hcase]; [congruence|].
    by rewrite Hcase in Hwrite.
Qed.

(** ** Clean paths *)

Lemma file_name_spec n :
  file_name n = true
  ↔ n ≠ "" ∧ n ≠ "." ∧ n ≠ ".."
    ∧ forallb (λ c, negb (IsPathSeparator c)) (String.list_ascii_of_string n)
      = true.
Proof.
  unfold file_name. rewrite !andb_true_iff, !negb_true_iff.
  rewrite !(String.eqb_neq n). tauto.
Qed.

Lemma element_name n r :
  forallb (λ c, negb (IsPathSeparator c)) (String.list_ascii_of_string n) = true →
  filepath.ends_element r = true →
  filepath.element (n +:+ r) = (String.list_ascii_of_string n, r).
Proof.
  intros Hn Hr. induction n as [|c n IH].
  - destruct r as [|c r]; [done|]. simpl in Hr.
    change ("" +:+ String c r) with (String c r). simpl. by rewrite Hr.
  - simpl in Hn. apply andb_prop in Hn as [Hc%negb_true_iff Hn].
    rewrite append_cons. simpl. by rewrite Hc, IH.
Qed.

Lemma ends_element_app n r :
  n ≠ "" →
  forallb (λ c, negb (IsPathSeparator c)) (String.list_ascii_of_string n) = true →
  filepath.ends_element (n +:+ r) = false.
Proof.
  destruct n as [|c n]; [done|]. intros _ Hn. simpl in Hn.
  apply andb_prop in Hn as [Hc%negb_true_iff Hn]. by rewrite append_cons.
Qed.

Lemma classify_name c n r :
  file_name (String c n) = true → filepath.ends_element r = true →
  filepath.classify c (n +:+ r) = filepath.RealElement.
Proof.
  intros (_ & Hdot & Hdotdot & Hsep)%file_name_spec Hr.
  simpl in Hsep. apply andb_prop in Hsep as [Hc%negb_true_iff Hn].
  unfold filepath.classify. rewrite Hc.
  destruct (Ascii.eqb_spec c ".") as [->|Hcdot]; [|cbn [andb]; by destruct (n +:+ r)].
  cbn [andb]. destruct n as [|c1 n]; [by destruct Hdot|].
  rewrite ends_element_app by done. rewrite append_cons.
  pose proof Hn as Hn1. cbn [String.list_ascii_of_string forallb] in Hn1.
  apply andb_prop in Hn1 as [_ Hn1].
  destruct (Ascii.eqb_spec c1 ".") as [->|Hc1]; [|done].
  cbn [andb]. destruct n as [|c2 n]; [by destruct Hdotdot|].
  by rewrite ends_element_app.
Qed.

(** One element of a clean path is copied to the buffer, after a separator
    when the buffer holds something. *)
Lemma clean_loop_name fuel n r out dotdot :
  file_name n = true → filepath.ends_element r = true →
  String.length (n +:+ r) ≤ fuel →
  filepath.clean_loop fuel false (n +:+ r) out dotdot
  = filepath.clean_loop (fuel - 1) false r
      (rev (String.list_ascii_of_string n)
       ++ (if negb (length out =? 0) then "/"%char :: out else out))
      dotdot.
Proof.
  intros Hn Hr Hfuel. pose proof Hn as (Hne & _ & _ & Hsep)%file_name_spec.
  destruct n as [|c n]; [done|]. rewrite append_cons in *.
  destruct fuel as [|fuel]; [simpl in Hfuel; lia|].
  cbn [filepath.clean_loop]. rewrite classify_name by done.
  rewrite <- append_cons, element_name by done.
  cbn [andb orb negb]. by replace (S fuel - 1) with fuel by lia.
Qed.

Lemma below_cons n ns : below (n :: ns) = "/" +:+ n +:+ below ns.
Proof. unfold below. by rewrite fmap_cons, concat_cons, append_assoc. Qed.

Lemma below_app ns1 ns2 : below (ns1 ++ ns2) = below ns1 +:+ below ns2.
Proof. unfold below. by rewrite fmap_app, concat_app. Qed.

Lemma ends_element_below ns t :
  filepath.ends_element t = true → filepath.ends_element (below ns +:+ t) = true.
Proof. destruct ns as [|n ns]; [done|]. by rewrite below_cons. Qed.

(** The elements that follow the first one are copied to the buffer, each
    after a separator; a separator at the end is left out. *)
Lemma clean_loop_below ns t fuel out dotdot :
  Forall (λ n, file_name n = true) ns → out ≠ [] → t = "" ∨ t = "/" →
  String.length (below ns +:+ t) ≤ fuel →
  filepath.clean_loop fuel false (below ns +:+ t) out dotdot
  = rev (String.list_ascii_of_string (below ns)) ++ out.
Proof.
  intros Hns. revert fuel out.
  induction Hns as [|n ns Hn Hns IH]; intros fuel out Hout Ht Hfuel.
  - change (below [] +:+ t) with t in *. destruct Ht as [->| ->].
    + by destruct fuel.
    + destruct fuel as [|fuel]; [simpl in Hfuel; lia|]. by destruct fuel.
  - rewrite below_cons, !append_assoc in *.
    destruct fuel as [|fuel]; [simpl in Hfuel; lia|].
    change ("/" +:+ n +:+ below ns +:+ t)
      with (String "/" (n +:+ below ns +:+ t)) in *.
    cbn [filepath.clean_loop filepath.classify IsPathSeparator Ascii.eqb
           Bool.eqb].
    simpl in Hfuel.
    assert (filepath.ends_element (below ns +:+ t) = true) as Hends.
    { apply ends_element_below. by destruct Ht as [->| ->]. }
    rewrite clean_loop_name by (done || lia).
    destruct out as [|c out]; [done|]. cbn [length Nat.eqb negb].
    pose proof Hn as (Hne & _)%file_name_spec.
    rewrite IH; [| |done|].
    + rewrite !list_ascii_of_string_app. simpl.
      rewrite !rev_app_distr. simpl. by rewrite <- !app_assoc.
    + intros Hnil. symmetry in Hnil. by apply app_cons_not_nil in Hnil.
    + rewrite append_length in Hfuel. destruct n; [done|]. simpl in Hfuel. lia.
Qed.

Lemma Clean_eq c rest :
  IsPathSeparator c = false →
  filepath.Clean (String c rest)
  = match filepath.clean_loop (String.length (String c rest)) false
            (String c rest) [] 0 with
    | [] => "."
    | out => String.string_of_list_ascii (rev out)
    end.
Proof.
  intros Hc. unfold filepath.Clean. cbv zeta. rewrite Hc.
  by destruct (filepath.clean_loop _ _ _ _ _).
Qed.

Lemma clean_loop_path n ns t fuel :
  file_name n = true → Forall (λ n, file_name n = true) ns →
  t = "" ∨ t = "/" →
  String.length (n +:+ below ns +:+ t) ≤ fuel →
  filepath.clean_loop fuel false (n +:+ below ns +:+ t) [] 0
  = rev (String.list_ascii_of_string (n +:+ below ns)).
Proof.
  intros Hn Hns Ht Hfuel.
  assert (filepath.ends_element (below ns +:+ t) = true) as Hends.
  { apply ends_element_below. by destruct Ht as [->| ->]. }
  pose proof Hn as (Hne & _)%file_name_spec.
  rewrite (clean_loop_name fuel n (below ns +:+ t)); [|done..].
  cbn [length Nat.eqb negb].
  rewrite clean_loop_below; [|done| |done|].
  - by rewrite app_nil_r, list_ascii_of_string_app, rev_app_distr.
  - rewrite app_nil_r. destruct n as [|c n]; [done|]. simpl.
    intros Hnil. symmetry in Hnil. by apply app_cons_not_nil in Hnil.
  - rewrite append_length in Hfuel. destruct n; [done|]. simpl in Hfuel. lia.
Qed.

(** [Clean] leaves a clean path as it is, and takes [./] from its head and a
    separator from its end. *)
Lemma Clean_path pre ns t :
  pre = "" ∨ pre = "./" → t = "" ∨ t = "/" →
  ns ≠ [] → Forall (λ n, file_name n = true) ns →
  filepath.Clean (pre +:+ path_of ns +:+ t) = path_of ns.
Proof.
  intros Hpre Ht Hne Hns. destruct ns as [|n ns]; [done|].
  apply Forall_cons in Hns as [Hn Hns]. cbn [path_of]. rewrite append_assoc.
  assert (∀ fuel,
    String.length (n +:+ below ns +:+ t) ≤ fuel →
    match filepath.clean_loop fuel false (n +:+ below ns +:+ t) [] 0 with
    | [] => "."
    | out => String.string_of_list_ascii (rev out)
    end = n +:+ below ns) as Hloop.
  { intros fuel Hfuel. rewrite clean_loop_path by done.
    rewrite <- (String.string_of_list_ascii_of_string (n +:+ below ns)) at 2.
    rewrite <- (rev_involutive (String.list_ascii_of_string (n +:+ below ns))) at 2.
    pose proof Hn as (Hnn & _)%file_name_spec.
    destruct (rev (String.list_ascii_of_string (n +:+ below ns))) eqn:Hrev;
      [|done].
    apply (f_equal (@rev ascii)) in Hrev. rewrite rev_involutive in Hrev.
    destruct n; [done|]. by rewrite append_cons in Hrev. }
  destruct Hpre as [->| ->].
  - change ("" +:+ n +:+ below ns +:+ t) with (n +:+ below ns +:+ t).
    pose proof Hn as (Hnn & _ & _ & Hsep)%file_name_spec.
    destruct n as [|c n]; [done|]. rewrite !append_cons in *.
    simpl in Hsep. apply andb_prop in Hsep as [Hc%negb_true_iff _].
    rewrite Clean_eq by done. by apply Hloop.
  - change ("./" +:+ n +:+ below ns +:+ t)
      with (String "." (String "/" (n +:+ below ns +:+ t))).
    rewrite Clean_eq by done. cbn [String.length filepath.clean_loop].
    cbn [filepath.classify IsPathSeparator Ascii.eqb Bool.eqb andb
           filepath.ends_element].
    apply Hloop. lia.
Qed.

Lemma path_of_snoc ns n :
  ns ≠ [] → path_of (ns ++ [n]) = path_of ns +:+ "/" +:+ n.
Proof.
  destruct ns as [|m ns]; [done|]. intros _. cbn [path_of app].
  rewrite below_app, below_cons. change (below []) with "".
  by rewrite append_empty_r, append_assoc.
Qed.

Lemma path_of_not_empty ns :
  Forall (λ n, file_name n = true) ns → path_of ns ≠ "".
Proof.
  destruct ns as [|n ns]; [done|]. intros [(Hn & _)%file_name_spec _]%Forall_cons.
  cbn [path_of]. by destruct n.
Qed.

(** [filepath.Join] of a clean path and a name. *)
Lemma Join_path ns n :
  Forall (λ n, file_name n = true) ns → file_name n = true →
  filepath.Join (path_of ns) n = path_of (ns ++ [n]).
Proof.
  intros Hns Hn. unfold filepath.Join.
  destruct (decide (path_of ns = "")) as [Hempty|_];
    [by apply path_of_not_empty in Hempty|].
  destruct (decide (ns = [])) as [->|Hne].
  - replace (path_of [] +:+ "/" +:+ n) with ("./" +:+ path_of [n] +:+ "").
    + apply (Clean_path "./" [n] ""); auto.
    + cbn [path_of]. change (below []) with "". by rewrite !append_empty_r.
  - rewrite <- path_of_snoc by done.
    rewrite <- (append_empty_r (path_of (ns ++ [n]))) at 1.
    apply (Clean_path "" (ns ++ [n]) ""); auto.
    + by destruct ns.
    + apply Forall_app. auto.
Qed.

(** ** The place of a file walked from a clean directory *)

Lemma no_separator_below n :
  file_name n = true →
  forallb (λ c, negb (IsPathSeparator c)) (String.list_ascii_of_string n) = true.
Proof. by intros (_ & _ & _ & Hsep)%file_name_spec. Qed.

Lemma drop_while_rev_name (l pre : list ascii) :
  forallb (λ c, negb (IsPathSeparator c)) l = true →
  drop_while (λ c, negb (IsPathSeparator c)) (rev l ++ pre)
  = drop_while (λ c, negb (IsPathSeparator c)) pre.
Proof.
  intros Hl. apply drop_while_app. rewrite forallb_forall in *.
  intros c Hc. apply Hl. by apply in_rev.
Qed.

(** [filepath.Dir] of a name after a prefix that is empty or ends in a
    separator is [Clean] of the prefix. *)
Lemma Dir_name pre name :
  pre = "" ∨ (∃ pre', pre = pre' +:+ "/") →
  file_name name = true →
  filepath.Dir (pre +:+ name) = filepath.Clean pre.
Proof.
  intros Hpre Hname%no_separator_below. unfold filepath.Dir. f_equal.
  rewrite list_ascii_of_string_app, rev_app_distr, drop_while_rev_name by done.
  destruct Hpre as [->|[pre' ->]]; [done|].
  rewrite list_ascii_of_string_app, rev_app_distr.
  change (rev (String.list_ascii_of_string "/")) with ["/"%char].
  cbn [app drop_while IsPathSeparator Ascii.eqb Bool.eqb negb rev].
  rewrite rev_involutive, string_of_list_ascii_app.
  by rewrite String.string_of_list_ascii_of_string.
Qed.

Lemma Split_name n :
  forallb (λ c, negb (IsPathSeparator c)) (String.list_ascii_of_string n) = true →
  strings.Split n "/" = [n].
Proof.
  induction n as [|c n IH]; [done|]. simpl.
  intros [Hc%negb_true_iff Hn]%andb_prop. unfold IsPathSeparator in Hc.
  by rewrite Hc, IH.
Qed.

Lemma Split_name_sep n r :
  forallb (λ c, negb (IsPathSeparator c)) (String.list_ascii_of_string n) = true →
  strings.Split (n +:+ "/" +:+ r) "/" = n :: strings.Split r "/".
Proof.
  induction n as [|c n IH]; [done|]. intros Hn.
  cbn [String.list_ascii_of_string forallb] in Hn.
  apply andb_prop in Hn as [Hc%negb_true_iff Hn]. unfold IsPathSeparator in Hc.
  rewrite append_cons. cbn [strings.Split]. by rewrite Hc, IH.
Qed.

Lemma path_of_cons n m ns :
  path_of (n :: m :: ns) = n +:+ "/" +:+ path_of (m :: ns).
Proof. cbn [path_of]. by rewrite below_cons. Qed.

(** The elements of a clean path. *)
Lemma Split_path ns :
  ns ≠ [] → Forall (λ n, file_name n = true) ns →
  strings.Split (path_of ns) "/" = ns.
Proof.
  intros Hne Hns. induction Hns as [|n ns Hn%no_separator_below Hns IH]; [done|].
  destruct ns as [|m ns].
  - cbn [path_of]. change (below []) with "". rewrite append_empty_r.
    by apply Split_name.
  - rewrite path_of_cons, Split_name_sep by done. by rewrite IH.
Qed.

Lemma prefix_app (s r : string) : String.prefix s (s +:+ r) = true.
Proof.
  induction s as [|c s IH]; [by destruct r|]. rewrite append_cons.
  cbn [String.prefix]. by destruct (ascii_dec c c).
Qed.

Lemma drop_app (s r : string) : strings.drop (String.length s) (s +:+ r) = r.
Proof. induction s as [|c s IH]; [by destruct r|]. by rewrite append_cons. Qed.

Lemma path_of_app ds ns :
  ds ≠ [] → path_of (ds ++ ns) = path_of ds +:+ below ns.
Proof.
  destruct ds as [|d ds]; [done|]. intros _. cbn [path_of app].
  by rewrite below_app, append_assoc.
Qed.

Lemma path_of_not_dot ds :
  ds ≠ [] → Forall (λ n, file_name n = true) ds → path_of ds ≠ ".".
Proof.
  destruct ds as [|d ds]; [done|].
  intros _ [(Hne & Hdot & _)%file_name_spec _]%Forall_cons. cbn [path_of].
  destruct ds as [|d' ds].
  - change (below []) with "". by rewrite append_empty_r.
  - rewrite below_cons. destruct d as [|c d]; [done|]. rewrite append_cons.
    intros [= -> Hd]. by destruct d.
Qed.

(** The relative path that the function of the walk computes. *)
Lemma relPath_path ds ns e :
  Forall (λ n, file_name n = true) ds → ns ≠ [] →
  we_path e = path_of (ds ++ ns) →
  relPath (path_of ds) e = rel_path ds ns.
Proof.
  intros Hds Hns He. unfold relPath, strings.Replace1. rewrite He.
  destruct ds as [|d ds]; [done|].
  rewrite decide_False by (by apply path_of_not_dot).
  rewrite path_of_app by done. generalize (path_of (d :: ds)). intros s.
  destruct ns as [|n ns]; [done|]. unfold rel_path. cbn [path_of].
  rewrite below_cons.
  assert (∀ s r, strings.replace_first (s +:+ r) s "." = "." +:+ r) as ->; [|done].
  clear. intros s r. destruct s as [|c s].
  - destruct r; by cbn.
  - rewrite append_cons. cbn [strings.replace_first].
    rewrite <- append_cons, prefix_app, drop_app. done.
Qed.

Lemma filter_names ns :
  Forall (λ n, file_name n = true) ns → filter (λ d, d ≠ ".") ns = ns.
Proof.
  induction 1 as [|n ns (_ & Hdot & _)%file_name_spec _ IH]; [done|].
  by rewrite filter_cons_True, IH.
Qed.

(** The directories that the function of the walk goes through. *)
Lemma dirs_of_path ds ns name e :
  Forall (λ n, file_name n = true) ds →
  Forall (λ n, file_name n = true) ns → file_name name = true →
  we_path e = path_of (ds ++ ns ++ [name]) →
  filter (λ d, d ≠ ".") (dirs_of (path_of ds) e) = ns.
Proof.
  intros Hds Hns Hname He. unfold dirs_of.
  rewrite (relPath_path ds (ns ++ [name])) by (done || by destruct ns).
  assert (∃ pre, (pre = "" ∨ pre = "./") ∧ rel_path ds (ns ++ [name])
                 = pre +:+ path_of (ns ++ [name])) as (pre & Hpre & ->).
  { destruct ds; [by exists ""; split; [left|]|by exists "./"; split; [right|]]. }
  destruct (decide (ns = [])) as [->|Hne].
  - cbn [app path_of]. change (below []) with "". rewrite append_empty_r.
    rewrite Dir_name; [| |done].
    + by destruct Hpre as [->| ->].
    + destruct Hpre as [->| ->]; [by left|right; by exists "."].
  - rewrite path_of_snoc by done. rewrite <- !append_assoc, Dir_name;
      [| |done].
    + rewrite append_assoc, Clean_path by auto. rewrite Split_path by done.
      by apply filter_names.
    + right. by eexists.
Qed.

(** A file with the elements [ns] and then [name] below the directory is
    filed under these keys. *)
Lemma key_path_path ds ns name e :
  Forall (λ n, file_name n = true) ds →
  Forall (λ n, file_name n = true) ns → file_name name = true →
  we_path e = path_of (ds ++ ns ++ [name]) → Name (we_info e) = name →
  key_path (path_of ds) e = ns ++ [name].
Proof.
  intros Hds Hns Hname He Hn. unfold key_path, place_of.
  by rewrite (dirs_of_path ds ns name), Hn.
Qed.

Lemma ext_scan_name l pre suffix :
  forallb (λ c, negb (IsPathSeparator c)) l = true →
  filepath.ext_scan (l ++ "/"%char :: pre) suffix = filepath.ext_scan l suffix.
Proof.
  revert suffix. induction l as [|c l IH]; intros suffix; [done|].
  intros Hl. cbn [forallb] in Hl. apply andb_prop in Hl as [Hc%negb_true_iff Hl].
  cbn [app filepath.ext_scan]. rewrite Hc.
  destruct (Ascii.eqb c "."); [done|]. by apply IH.
Qed.

(** The extension of a path is that of its last element. *)
Lemma Ext_path ns name :
  file_name name = true →
  filepath.Ext (path_of (ns ++ [name])) = filepath.Ext name.
Proof.
  intros Hname%no_separator_below. unfold filepath.Ext.
  destruct (decide (ns = [])) as [->|Hne].
  - cbn [app path_of]. change (below []) with "". by rewrite append_empty_r.
  - rewrite path_of_snoc by done.
    rewrite !list_ascii_of_string_app, !rev_app_distr.
    change (rev (String.list_ascii_of_string "/")) with ["/"%char].
    rewrite <- app_assoc. cbn [app]. apply ext_scan_name.
    rewrite forallb_forall in *. intros c Hc. apply Hname. by apply in_rev.
Qed.

(** ** The walk of a file system with ordinary names *)

Lemma FSNode_ind (P : FSNode → Prop) :
  (∀ file, P (FSFile file)) →
  (∀ entries err, Forall (λ '(_, child), P child) entries →
                  P (FSDir entries err)) →
  (∀ err, P (FSNoStat err)) →
  ∀ fs, P fs.
Proof.
  intros Hfile Hdir Hnostat.
  refine (fix IH fs :=
            match fs with
            | FSFile file => Hfile file
            | FSDir entries err =>
                Hdir entries err
                  ((fix go (l : list (string * FSNode))
                      : Forall (λ '(_, child), P child) l :=
                      match l with
                      | [] => @List.Forall_nil _ _
                      | (n, child) :: l' =>
                          @List.Forall_cons _ _ (n, child) l' (IH child) (go l')
                      end) entries)
            | FSNoStat err => Hnostat err
            end).
Qed.

Lemma well_named_dir entries err :
  well_named (FSDir entries err) = true
  ↔ NoDup entries.*1
    ∧ Forall (λ '(n, child), file_name n = true ∧ well_named child = true)
        entries.
Proof.
  cbn [well_named]. rewrite andb_true_iff, bool_decide_eq_true.
  apply and_iff_compat_l. rewrite forallb_forall, Forall_forall.
  split; intros Hall [n child] Hin.
  - apply andb_prop, (Hall (n, child)). by apply list_elem_of_In.
  - apply andb_true_iff, (Hall (n, child)). by apply list_elem_of_In.
Qed.

(** The entries under a directory whose path has the elements [ns] below
    [ds]: the keys of those that are no directories. *)
Lemma walk_entries_leaves ds ns entries :
  Forall (λ n, file_name n = true) ds → Forall (λ n, file_name n = true) ns →
  Forall (λ '(n, child),
            file_name n = true
            ∧ key_path (path_of ds)
                <$> filter (λ e, InfoIsDir (we_info e) = false)
                      (fs_walk (path_of (ds ++ ns ++ [n])) n child)
              = ((ns ++ [n]) ++.) <$> fs_leaves child) entries →
  key_path (path_of ds)
    <$> filter (λ e, InfoIsDir (we_info e) = false)
          (flat_map (λ '(n, child),
                       fs_walk (filepath.Join (path_of (ds ++ ns)) n) n child)
             entries)
  = (ns ++.) <$> flat_map (λ '(n, child), (n ::.) <$> fs_leaves child) entries.
Proof.
  intros Hds Hns. induction 1 as [|[n child] entries [Hn Hchild] _ IH]; [done|].
  cbn [flat_map]. rewrite filter_app, !fmap_app, IH. f_equal.
  rewrite Join_path by (by rewrite ?Forall_app). rewrite <- app_assoc, Hchild.
  rewrite <- list_fmap_compose. apply list_fmap_ext. intros _ place _. simpl.
  by rewrite <- app_assoc.
Qed.

(** The keys of the entries that are no directories, in the walk of what is
    stored under the elements [ns] and then [n]. *)
Lemma walk_leaves fs ds ns n :
  Forall (λ n, file_name n = true) ds → Forall (λ n, file_name n = true) ns →
  file_name n = true → well_named fs = true →
  key_path (path_of ds)
    <$> filter (λ e, InfoIsDir (we_info e) = false)
          (fs_walk (path_of (ds ++ ns ++ [n])) n fs)
  = ((ns ++ [n]) ++.) <$> fs_leaves fs.
Proof.
  intros Hds. revert ns n.
  induction fs as [file|entries err IH|err] using FSNode_ind;
    intros ns n Hns Hn Hfs.
  - cbn [fs_walk fs_leaves]. rewrite filter_cons_True by done.
    cbn [filter list_filter fmap list_fmap]. rewrite app_nil_r.
    by rewrite (key_path_path ds ns n).
  - destruct err as [err|]; [done|]. cbn [fs_walk fs_leaves].
    rewrite filter_cons_False by done.
    apply well_named_dir in Hfs as [_ Hentries].
    replace (path_of (ds ++ ns ++ [n])) with (path_of (ds ++ (ns ++ [n])))
      by done.
    assert (Forall (λ n, file_name n = true) (ns ++ [n])) as Hns'
      by (apply Forall_app; split; [done|by constructor]).
    apply walk_entries_leaves; [done..|].
    rewrite Forall_forall in IH, Hentries. apply Forall_forall.
    intros [m child] Hin. destruct (Hentries _ Hin) as [Hm Hchild].
    split; [done|]. by apply (IH _ Hin (ns ++ [n]) m).
  - cbn [fs_walk fs_leaves]. rewrite filter_cons_True by done.
    cbn [filter list_filter fmap list_fmap]. rewrite app_nil_r.
    by rewrite (key_path_path ds ns n).
Qed.

(** ** No collisions below a clean directory *)

Lemma collision_free_app places1 places2 :
  collision_free (places1 ++ places2)
  ↔ collision_free places1 ∧ collision_free places2
    ∧ Forall (λ place, Forall (apart place) places2) places1.
Proof.
  induction places1 as [|place places1 IH]; simpl.
  - rewrite Forall_nil. tauto.
  - rewrite Forall_app, Forall_cons, IH. tauto.
Qed.

Lemma apart_same key place1 place2 :
  apart place1 place2 → apart (key :: place1) (key :: place2).
Proof.
  intros [H12 H21]. split; intros H%prefix_cons_inv_2; auto.
Qed.

Lemma apart_other key1 place1 key2 place2 :
  key1 ≠ key2 → apart (key1 :: place1) (key2 :: place2).
Proof. intros Hne. split; intros H%prefix_cons_inv_1; auto. Qed.

Lemma collision_free_below key places :
  collision_free places → collision_free ((key ::.) <$> places).
Proof.
  induction places as [|place places IH]; [done|]. simpl.
  intros [Hplace Hplaces]. split; [|auto].
  apply Forall_fmap. eapply Forall_impl; [exact Hplace|].
  intros place' Hap. by apply apart_same.
Qed.

Lemma collision_free_sublist places1 places2 :
  places1 `sublist_of` places2 →
  collision_free places2 → collision_free places1.
Proof.
  induction 1 as [|place l1 l2 Hl IH|place l1 l2 Hl IH]; simpl; [done| |].
  - intros [Hplace Hfree]. split; [|auto].
    rewrite Forall_forall in Hplace. apply Forall_forall.
    intros place' Hin. apply Hplace. by eapply elem_of_sublist.
  - intros [_ Hfree]. auto.
Qed.

(** In a file system whose directories hold each name once, no entry that
    is no directory is on the way to another one. *)
Lemma collision_free_leaves fs :
  well_named fs = true → collision_free (fs_leaves fs).
Proof.
  induction fs as [file|entries err IH|err] using FSNode_ind; intros Hfs.
  - by repeat constructor.
  - destruct err as [err|]; [done|]. cbn [fs_leaves].
    apply well_named_dir in Hfs as [Hnodup Hentries].
    induction entries as [|[n child] entries IHentries]; [done|].
    apply Forall_cons in IH as [IHchild IH].
    apply Forall_cons in Hentries as [[Hn Hchild] Hentries].
    rewrite fmap_cons in Hnodup. apply NoDup_cons in Hnodup as [Hnew Hnodup].
    cbn [flat_map]. apply collision_free_app. split_and!.
    + apply collision_free_below. auto.
    + auto.
    + apply Forall_fmap, Forall_forall. intros place _. simpl.
      apply Forall_forall. intros place' Hin.
      apply list_elem_of_In, in_flat_map in Hin as ([m child'] & Hm & Hin).
      apply list_elem_of_In, list_elem_of_fmap in Hin as (place'' & -> & _).
      apply apart_other. intros ->. apply Hnew.
      apply list_elem_of_fmap. exists (m, child'). split; [done|].
      by apply list_elem_of_In.
  - by repeat constructor.
Qed.

Lemma is_markdown_file e : is_markdown e = true → InfoIsDir (we_info e) = false.
Proof.
  unfold is_markdown. intros [[Hdir _]%andb_prop _]%andb_prop.
  by apply negb_true_iff.
Qed.

(** The places of the documents are among the keys of the entries that are
    no directories. *)
Lemma doc_places_sublist dirPath walked :
  doc_places dirPath walked
  `sublist_of` key_path dirPath
                 <$> filter (λ e, InfoIsDir (we_info e) = false) walked.
Proof.
  unfold doc_places. apply fmap_sublist.
  induction walked as [|e walked IH]; [done|].
  destruct (is_markdown e) eqn:Hmd.
  - rewrite !filter_cons_True by (done || by apply is_markdown_file).
    by apply sublist_skip.
  - rewrite (filter_cons_False (λ e, is_markdown e = true))
      by (by rewrite Hmd).
    destruct (InfoIsDir (we_info e)) eqn:Hdir.
    + by rewrite filter_cons_False by (by rewrite Hdir).
    + rewrite filter_cons_True by done. by apply sublist_cons.
Qed.

Lemma doc_places_delivered dirPath walked :
  doc_places dirPath (delivered walked) `sublist_of` doc_places dirPath walked.
Proof.
  unfold doc_places. apply fmap_sublist.
  induction walked as [|e walked IH]; [done|]. simpl.
  destruct (we_err e); [apply sublist_nil_l|].
  destruct (is_markdown e) eqn:Hmd.
  - rewrite !filter_cons_True by done. by apply sublist_skip.
  - by rewrite !filter_cons_False by (by rewrite Hmd).
Qed.

(** The walk of a file system with ordinary names from a clean directory
    files no two documents at places that collide. *)
Lemma walk_collision_free ds name fs :
  Forall (λ n, file_name n = true) ds → well_named fs = true →
  collision_free (doc_places (path_of ds) (fs_walk (path_of ds) name fs)).
Proof.
  intros Hds Hfs.
  assert (∀ e, collision_free (doc_places (path_of ds) [e])) as Hone.
  { intros e. rewrite doc_places_cons. destruct (is_markdown e); [|done].
    by repeat constructor. }
  destruct fs as [file|entries [err|]|err]; cbn [fs_walk];
    [apply Hone|apply Hone| |apply Hone].
  rewrite doc_places_cons.
  replace (is_markdown (entry (path_of ds) name true None (Opens [] ReadError)))
    with false by done.
  eapply collision_free_sublist; [apply doc_places_sublist|].
  pose proof (walk_entries_leaves ds [] entries Hds) as Hleaves.
  rewrite app_nil_r in Hleaves. rewrite Hleaves; [|done|].
  - rewrite list_fmap_id. by apply (collision_free_leaves (FSDir entries None)).
  - apply well_named_dir in Hfs as [_ Hentries].
    eapply Forall_impl; [exact Hentries|]. intros [n child] [Hn Hchild].
    split; [done|]. by apply (walk_leaves child ds []).
Qed.

(** ** The files stored below a clean directory *)

Lemma stored_names fs ns node :
  stored fs ns node → well_named fs = true →
  Forall (λ n, file_name n = true) ns ∧ well_named node = true.
Proof.
  induction 1 as [fs|entries n child ns node Hin _ IH]; intros Hfs; [done|].
  apply well_named_dir in Hfs as [_ Hentries].
  rewrite Forall_forall in Hentries. destruct (Hentries _ Hin) as [Hn Hchild].
  destruct (IH Hchild) as [Hns Hnode]. split; [by constructor|done].
Qed.

Lemma readable_walk fs path name :
  readable fs = true → Forall (λ e, we_err e = None) (fs_walk path name fs).
Proof.
  revert path name.
  induction fs as [file|entries err IH|err] using FSNode_ind;
    intros path name Hfs; [by repeat constructor| |done].
  destruct err as [err|]; [done|]. cbn [fs_walk readable] in *.
  constructor; [done|]. rewrite forallb_forall in Hfs.
  rewrite Forall_forall in IH. apply Forall_forall. intros e He.
  apply list_elem_of_In, in_flat_map in He as ([n child] & Hin & He).
  specialize (Hfs _ Hin). apply list_elem_of_In in Hin, He.
  specialize (IH _ Hin (filepath.Join path n) n Hfs).
  rewrite Forall_forall in IH. auto.
Qed.

(** A file that is stored under the elements [ns] is met by the walk, with
    the clean path of these elements and with its name. *)
Lemma stored_walk ds fs ns file :
  stored fs ns (FSFile file) →
  ∀ ns0 name0 name,
    Forall (λ n, file_name n = true) (ds ++ ns0) → well_named fs = true →
    last (name0 :: ns) = Some name →
    entry (path_of (ds ++ ns0 ++ ns)) name false None file
    ∈ fs_walk (path_of (ds ++ ns0)) name0 fs.
Proof.
  remember (FSFile file) as node eqn:Hnode.
  induction 1 as [fs|entries n child ns node Hin Hstored IH];
    intros ns0 name0 name Hns0 Hfs Hname.
  - subst fs. rewrite app_nil_r. injection Hname as <-. cbn [fs_walk]. left.
  - cbn [fs_walk]. right. apply list_elem_of_In, in_flat_map.
    exists (n, child). split; [by apply list_elem_of_In|].
    apply well_named_dir in Hfs as [_ Hentries].
    rewrite Forall_forall in Hentries. destruct (Hentries _ Hin) as [Hn Hchild].
    rewrite Join_path by done. apply list_elem_of_In.
    rewrite last_cons_cons in Hname.
    specialize (IH Hnode (ns0 ++ [n]) n name).
    rewrite <- !app_assoc in IH. rewrite <- (app_assoc ds ns0 [n]).
    apply IH; [|done..].
    rewrite !Forall_app in *. destruct Hns0. split_and!; [done..|by constructor].
Qed.

(** An entry of the walk that is no directory and has no error is a file
    that is stored, under the elements of its path. *)
Lemma walk_stored ds fs e :
  ∀ ns0 name0,
    e ∈ fs_walk (path_of (ds ++ ns0)) name0 fs →
    InfoIsDir (we_info e) = false → we_err e = None →
    Forall (λ n, file_name n = true) (ds ++ ns0) → well_named fs = true →
    ∃ ns, stored fs ns (FSFile (we_file e))
          ∧ we_path e = path_of (ds ++ ns0 ++ ns)
          ∧ last (name0 :: ns) = Some (Name (we_info e)).
Proof.
  induction fs as [file|entries err IH|err] using FSNode_ind;
    intros ns0 name0 He Hdir Herr Hns0 Hfs.
  - cbn [fs_walk] in He. apply list_elem_of_singleton in He as ->.
    exists []. rewrite app_nil_r. split_and!; [constructor|done..].
  - destruct err as [err|]; cbn [fs_walk] in He.
    + by apply list_elem_of_singleton in He as ->.
    + apply elem_of_cons in He as [->|He]; [done|].
      apply list_elem_of_In, in_flat_map in He as ([n child] & Hin & He).
      apply list_elem_of_In in Hin, He.
      apply well_named_dir in Hfs as [_ Hentries].
      rewrite Forall_forall in Hentries, IH.
      destruct (Hentries _ Hin) as [Hn Hchild].
      rewrite Join_path in He by done.
      destruct (IH _ Hin (ns0 ++ [n]) n) as (ns & Hstored & Hpath & Hname);
        [by rewrite <- app_assoc in He|done..| |done|].
      { rewrite !Forall_app in *. destruct Hns0.
        split_and!; [done..|by constructor]. }
      exists (n :: ns). split_and!.
      * by econstructor.
      * by rewrite Hpath, <- !app_assoc.
      * by rewrite last_cons_cons.
  - cbn [fs_walk] in He. by apply list_elem_of_singleton in He as ->.
Qed.

(** * Properties of the program *)

(** C1: the link target of a document is [url.PathEscape] of the whole
    relative path, which escapes the separators too.  For a root [root] with
    [docs/guide.md] the list item is [- [Guide](.%2Fdocs%2Fguide.md)], and
    scanning the directory ["."], the default, the target has no leading
    [./] either; no escaped path holds a [/], so no node of any tree that
    [ListMDFiles] returns has one in its [Path]. *)
Theorem C1_link_target_escapes_separators :
  main "root" "" true "/srv/root" (fs_walk "root" "root" guide_fs)
  = Ok (Output ("# root" +:+ LF +:+ LF +:+ "## docs" +:+ LF +:+ LF
                +:+ "- [Guide](.%2Fdocs%2Fguide.md)" +:+ LF))
  ∧ main "." "" true "/srv/root" (fs_walk "." "." guide_fs)
    = Ok (Output ("# root" +:+ LF +:+ LF +:+ "## docs" +:+ LF +:+ LF
                  +:+ "- [Guide](docs%2Fguide.md)" +:+ LF))
  ∧ (∀ s, no_separator (url.PathEscape s))
  ∧ (∀ dirPath walked root err keys n,
        ListMDFiles dirPath walked = Ok (root, err) →
        md_at root keys = Some n →
        no_separator (Path n) ∧ ∀ rest, Path n ≠ "./" +:+ rest).
Proof.
  split_and!; [by vm_compute..|apply PathEscape_no_separator|].
  intros dirPath walked root err keys n Hlist Hn.
  assert (no_separator (Path n)) as Hsep.
  { apply ListMDFiles_no_separator in Hlist.
    apply (all_nodes_md_at _ _ _ _ Hlist Hn). }
  split; [done|]. intros rest Hpath. apply Hsep. rewrite Hpath.
  simpl. right. left.
Qed.

(** C2 as stated fails: with [a.md] and a directory that cannot be read
    under the root, [ListMDFiles] returns the error together with a tree that
    holds the document filed before the error. *)
Lemma C2_partial_tree_returned :
  ∃ root doc,
    ListMDFiles_fs "root" unreadable_fs
    = Ok (root, Some "open root/private: permission denied")
    ∧ root ≠ root_MDFileInfo
    ∧ count_docs root = 1
    ∧ md_at root ["a.md"] = Some doc ∧ Title doc = "A".
Proof.
  exists (returned (ListMDFiles_fs "root" unreadable_fs)). eexists.
  split_and!; [by vm_compute| |by vm_compute|by vm_compute|by vm_compute].
  intros Heq. apply (f_equal count_docs) in Heq. by vm_compute in Heq.
Qed.

(** C2, amended: at the first error of the walk [ListMDFiles] stops and
    returns that error, whatever entries would follow; the tree it returns
    with the error is the tree of the entries before it; [main] then ends in
    [log.Fatal] and writes no table of contents. *)
Theorem C2_walk_error_surfaces dirPath pre e post err :
  Forall (λ e', we_err e' = None) pre → we_err e = Some err →
  ListMDFiles dirPath (pre ++ e :: post)
  = match ListMDFiles dirPath pre with
    | Ok (root, _) => Ok (root, Some err)
    | Panic => Panic
    end
  ∧ ∀ title sortAsc getwd,
      main dirPath title sortAsc getwd (pre ++ e :: post)
      = match ListMDFiles dirPath pre with
        | Ok _ => Ok (Fatal err)
        | Panic => Panic
        end.
Proof.
  intros Hpre He.
  assert (ListMDFiles dirPath (pre ++ e :: post)
          = match ListMDFiles dirPath pre with
            | Ok (root, _) => Ok (root, Some err)
            | Panic => Panic
            end) as Hlist.
  { unfold ListMDFiles. rewrite Walk_app.
    destruct (Walk pre _ _) as [[root err']|] eqn:Hwalk; [|done].
    apply Walk_no_err in Hwalk as ->; [|done].
    cbn [Walk]. by rewrite (walkFn_err _ _ _ err). }
  split; [done|]. intros title sortAsc getwd. unfold main. rewrite Hlist.
  by destruct (ListMDFiles dirPath pre) as [[root err']|].
Qed.

Lemma C2_walk_error_surfaces_witness :
  Forall (λ e', we_err e' = None) unreadable_walk
  ∧ we_err unreadable_entry = Some "open root/private: permission denied"
  ∧ fs_walk "root" "root" unreadable_fs = unreadable_walk ++ [unreadable_entry]
  ∧ ListMDFiles "root" (unreadable_walk ++ unreadable_entry :: [])
    = match ListMDFiles "root" unreadable_walk with
      | Ok (root, _) => Ok (root, Some "open root/private: permission denied")
      | Panic => Panic
      end
  ∧ ∀ title sortAsc getwd,
      main "root" title sortAsc getwd (unreadable_walk ++ unreadable_entry :: [])
      = match ListMDFiles "root" unreadable_walk with
        | Ok _ => Ok (Fatal "open root/private: permission denied")
        | Panic => Panic
        end.
Proof.
  assert (Forall (λ e', we_err e' = None) unreadable_walk) as Hpre
    by (repeat constructor).
  split; [exact Hpre|]. split; [reflexivity|]. split; [reflexivity|].
  apply C2_walk_error_surfaces; [exact Hpre|reflexivity].
Defined.

(** C3 as stated fails: with [a/b/x.md] and [a/b/y.md], the siblings are at
    the third level, and reversing the groupings of the top level and of the
    second level of the ascending outline leaves them in ascending order. *)
Lemma C3_two_levels_do_not_suffice :
  ∃ root,
    ListMDFiles_fs "root" nested_fs = Ok (root, None)
    ∧ flatten (reverse_groups 2 (outline root "  " true))
      ≠ CreateTocTree root "  " false.
Proof.
  exists (returned (ListMDFiles_fs "root" nested_fs)).
  split; [by vm_compute|]. by vm_compute.
Qed.

(** C3, amended: for every tree (the keys of a map never collide), the
    table of contents in ascending order with the groupings of every level
    reversed, not of the top two levels only, is the table of contents in
    descending order. *)
Theorem C3_descending_reverses_every_level md indent :
  flatten (outline md indent true) = CreateTocTree md indent true
  ∧ flatten (reverse_all (outline md indent true))
    = CreateTocTree md indent false.
Proof.
  split; [apply flatten_outline|].
  by rewrite reverse_all_outline, flatten_outline.
Qed.




(** C5: [CreateTocTree] renders the children of a node in the order of the
    sorted keys of its map of children: the keys of the map (the names of
    the files and directories, not the titles), each once, in ascending
    order byte by byte when [sortAsc] is true and in descending order when
    it is false, in whatever order the map lists its keys.  With [docs/a.md]
    and [docs/b.md], [a.md] comes first in ascending order and [b.md] first
    in descending order. *)
Theorem C5_children_in_key_order :
  (∀ md indent sortAsc,
      CreateTocTree md indent sortAsc
      = node_toc md indent
        +:+ String.concat ""
              ((λ key, CreateTocTree (child_of md key) indent sortAsc)
                 <$> stringKeys md sortAsc)
      ∧ stringKeys md sortAsc ≡ₚ (map_to_list (default ∅ (Children md))).*1
      ∧ StronglySorted
          (if sortAsc then sort.string_le else flip sort.string_le)
          (stringKeys md sortAsc))
  ∧ (∀ md keys,
        keys ≡ₚ (map_to_list (default ∅ (Children md))).*1 →
        sort.Strings keys = stringKeys md true
        ∧ sort.ReverseStrings keys = stringKeys md false)
  ∧ (∀ a s b t,
        sort.string_le (String a s) (String b t)
        ↔ (N_of_ascii a < N_of_ascii b)%N ∨ (a = b ∧ sort.string_le s t))
  ∧ (∀ s, sort.string_le "" s)
  ∧ (∀ c s, ¬ sort.string_le (String c s) "")
  ∧ main "root" "Docs" true "" (fs_walk "root" "root" siblings_fs)
    = Ok (Output ("# Docs" +:+ LF +:+ LF +:+ "## docs" +:+ LF +:+ LF
                  +:+ "- [Alpha](.%2Fdocs%2Fa.md)" +:+ LF
                  +:+ "- [Beta](.%2Fdocs%2Fb.md)" +:+ LF))
  ∧ main "root" "Docs" false "" (fs_walk "root" "root" siblings_fs)
    = Ok (Output ("# Docs" +:+ LF +:+ LF +:+ "## docs" +:+ LF +:+ LF
                  +:+ "- [Beta](.%2Fdocs%2Fb.md)" +:+ LF
                  +:+ "- [Alpha](.%2Fdocs%2Fa.md)" +:+ LF)).
Proof.
  split_and!; [| |apply string_le_cons|apply string_le_empty
               |apply string_le_not_empty|by vm_compute..].
  - intros md indent sortAsc. split_and!.
    + apply CreateTocTree_eq.
    + unfold stringKeys, sorted_keys.
      destruct sortAsc; [apply Strings_perm|apply ReverseStrings_perm].
    + unfold stringKeys, sorted_keys.
      destruct sortAsc; [apply Strings_sorted|apply ReverseStrings_sorted].
  - intros md keys Hkeys. unfold stringKeys, sorted_keys.
    split; [by apply Strings_of_perm|by apply ReverseStrings_of_perm].
Qed.

(** C6 as stated fails: scanning ["docs/"], the directory [-a.md] is filed
    under the key [.-a.md], and so is the file [.-a.md] that the walk meets
    after it; of the two Markdown files walked, one document is left in the
    tree. *)
Lemma C6_collision_loses_document :
  ∃ root,
    ListMDFiles_fs "docs/" colliding_fs = Ok (root, None)
    ∧ we_path <$> filter (λ e, is_markdown e = true)
                    (fs_walk "docs/" "docs" colliding_fs)
      = ["docs/-a.md/x.md"; "docs/.-a.md"]
    ∧ doc_places "docs/" (fs_walk "docs/" "docs" colliding_fs)
      = [[".-a.md"; "x.md"]; [".-a.md"]]
    ∧ count_docs root = 1.
Proof.
  exists (returned (ListMDFiles_fs "docs/" colliding_fs)).
  split_and!; by vm_compute.
Qed.

(** C6, amended: when no two documents collide (no document is filed under
    the keys of another one, or of a directory on the way to another one),
    [ListMDFiles] returns, with the first error of the walk if there is one,
    and the number of document nodes of the tree is the number of files
    walked before that error that are no directories, have the extension
    [.md] and are not named [README.md], at whatever depth; any other entry
    leaves the tree as it is and raises no error. *)
Theorem C6_document_count dirPath walked :
  collision_free (doc_places dirPath (delivered walked)) →
  (∃ root,
      ListMDFiles dirPath walked = Ok (root, first_error walked)
      ∧ count_docs root
        = length (filter (λ e, is_markdown e = true) (delivered walked)))
  ∧ (Forall (λ e, we_err e = None) walked →
     delivered walked = walked ∧ first_error walked = None)
  ∧ (∀ e root, we_err e = None → is_markdown e = false →
               walkFn dirPath e root = Ok (root, None)).
Proof.
  intros Hfree. split_and!.
  - destruct (Walk_filed dirPath (delivered walked) root_MDFileInfo []
                (delivered_no_err walked) filed_root Hfree)
      as (root & Hwalk & Hcount & _).
    { apply Forall_forall. intros place _. constructor. }
    exists root. split.
    + unfold ListMDFiles. by rewrite Walk_delivered, Hwalk.
    + rewrite Hcount, app_nil_r, length_reverse. unfold doc_places.
      by rewrite length_fmap.
  - clear Hfree. induction walked as [|e entries IH]; [done|].
    intros [He Hentries]%Forall_cons. destruct (IH Hentries) as [IH1 IH2].
    simpl. by rewrite He, IH1, IH2.
  - intros e root He Hmd. unfold walkFn. by rewrite He, Hmd.
Qed.

Lemma C6_document_count_witness :
  collision_free
    (doc_places "root" (delivered (fs_walk "root" "root" guide_fs)))
  ∧ (∃ root,
        ListMDFiles "root" (fs_walk "root" "root" guide_fs)
        = Ok (root, first_error (fs_walk "root" "root" guide_fs))
        ∧ count_docs root
          = length (filter (λ e, is_markdown e = true)
                      (delivered (fs_walk "root" "root" guide_fs))))
  ∧ (Forall (λ e, we_err e = None) (fs_walk "root" "root" guide_fs) →
     delivered (fs_walk "root" "root" guide_fs) = fs_walk "root" "root" guide_fs
     ∧ first_error (fs_walk "root" "root" guide_fs) = None)
  ∧ (∀ e root, we_err e = None → is_markdown e = false →
               walkFn "root" e root = Ok (root, None)).
Proof.
  assert (collision_free
            (doc_places "root" (delivered (fs_walk "root" "root" guide_fs))))
    as Hfree by (apply (bool_decide_unpack _); vm_compute; exact I).
  split; [exact Hfree|]. apply C6_document_count. exact Hfree.
Defined.

(** C7: in every tree that [ListMDFiles] returns, with or without an error,
    the root has level 0 and is a directory, and at every depth the level of
    a child, directory or document, is the level of its parent plus one; so
    the level of every node is the number of keys that lead to it from the
    root. *)
Theorem C7_levels dirPath walked root err :
  ListMDFiles dirPath walked = Ok (root, err) →
  Level root = 0 ∧ IsDir root = true ∧ well_leveled root
  ∧ ∀ keys n, md_at root keys = Some n → Level n = length keys.
Proof.
  unfold ListMDFiles. intros Hwalk.
  assert (Level root = 0 ∧ IsDir root = true ∧ well_leveled root)
    as (Hlevel & Hdir & Hwl).
  { eapply (Walk_invariant
              (λ root, Level root = 0 ∧ IsDir root = true ∧ well_leveled root));
      [|  |exact Hwalk].
    - intros e st st' err' Hst Hfn. by eapply walkFn_root.
    - split_and!; [done..|]. apply well_leveled_leaf. by right. }
  split_and!; [done..|]. intros keys n Hn.
  destruct (well_leveled_md_at _ _ _ Hwl Hn) as [-> _]. lia.
Qed.

Lemma C7_levels_witness :
  ListMDFiles "root" (fs_walk "root" "root" nested_fs)
  = Ok (returned (ListMDFiles_fs "root" nested_fs), None)
  ∧ Level (returned (ListMDFiles_fs "root" nested_fs)) = 0
  ∧ IsDir (returned (ListMDFiles_fs "root" nested_fs)) = true
  ∧ well_leveled (returned (ListMDFiles_fs "root" nested_fs))
  ∧ ∀ keys n, md_at (returned (ListMDFiles_fs "root" nested_fs)) keys = Some n →
              Level n = length keys.
Proof.
  assert (ListMDFiles "root" (fs_walk "root" "root" nested_fs)
          = Ok (returned (ListMDFiles_fs "root" nested_fs), None)) as Hlist
    by (vm_compute; reflexivity).
  split; [exact Hlist|]. exact (C7_levels _ _ _ _ Hlist).
Defined.

(** C8 as stated fails: a directory is rendered by its name, and the name
    of a directory may hold a newline; with [d.md] in a directory [a], newline,
    [b] under [x], the node of that directory is at depth 2 and its list item
    is two lines. *)
Lemma C8_directory_name_with_newline :
  ∃ root n,
    ListMDFiles_fs "root" newline_fs = Ok (root, None)
    ∧ md_at root ["x"; "a" +:+ LF +:+ "b"] = Some n
    ∧ IsDir n = true ∧ Level n = 2
    ∧ node_toc n "  " = "- a" +:+ LF +:+ "b" +:+ LF
    ∧ main "root" "" true "/srv/root" (fs_walk "root" "root" newline_fs)
      = Ok (Output ("# root" +:+ LF +:+ LF +:+ "## x" +:+ LF +:+ LF
                    +:+ "- a" +:+ LF +:+ "b" +:+ LF
                    +:+ "  - [D](.%2Fx%2Fa%0Ab%2Fd.md)" +:+ LF)).
Proof.
  exists (returned (ListMDFiles_fs "root" newline_fs)).
  exists (default zero_MDFileInfo
            (md_at (returned (ListMDFiles_fs "root" newline_fs))
               ["x"; "a" +:+ LF +:+ "b"])).
  split_and!; by vm_compute.
Qed.

(** C8, amended: the output of a node at depth 2 or more begins with its
    list item and a newline: depth minus 2 copies of the indent, one after
    another, then [- <title>] for a directory and [- [<title>](<linkTarget>)]
    for a document; the output of its children follows, and a document, which
    has none, is rendered as that and nothing else.  The item is one line
    when the indent, the title and, for a document, the link target hold no
    newline: so it is for every document of a tree that [ListMDFiles]
    returns, and for a directory unless its name holds a newline.  A document
    with an empty title is rendered as [[](<target>)]. *)
Theorem C8_list_item md indent sortAsc :
  2 ≤ Level md →
  strings.Repeat indent (Level md - 2)
  = String.concat "" (replicate (Level md - 2) indent)
  ∧ String.length (strings.Repeat indent (Level md - 2))
    = (Level md - 2) * String.length indent
  ∧ node_toc md indent
    = (String.concat "" (replicate (Level md - 2) indent)
       +:+ spec_list_item md) +:+ LF
  ∧ CreateTocTree md indent sortAsc
    = ((String.concat "" (replicate (Level md - 2) indent)
        +:+ spec_list_item md) +:+ LF)
      +:+ String.concat ""
            ((λ key, CreateTocTree (child_of md key) indent sortAsc)
               <$> stringKeys md sortAsc)
  ∧ (Children md = None →
     CreateTocTree md indent sortAsc
     = (String.concat "" (replicate (Level md - 2) indent)
        +:+ spec_list_item md) +:+ LF)
  ∧ (regexp.has_newline indent = false →
     regexp.has_newline (Title md) = false →
     (IsDir md = false → regexp.has_newline (Path md) = false) →
     regexp.has_newline
       (String.concat "" (replicate (Level md - 2) indent)
        +:+ spec_list_item md) = false)
  ∧ (∀ dirPath walked root err keys,
        ListMDFiles dirPath walked = Ok (root, err) →
        md_at root keys = Some md → IsDir md = false →
        regexp.has_newline indent = false →
        Children md = None
        ∧ regexp.has_newline
            (String.concat "" (replicate (Level md - 2) indent)
             +:+ spec_list_item md) = false)
  ∧ (IsDir md = false → Title md = "" →
     spec_list_item md = "- [](" +:+ Path md +:+ ")").
Proof.
  intros Hlevel.
  assert (node_toc md indent
          = (String.concat "" (replicate (Level md - 2) indent)
             +:+ spec_list_item md) +:+ LF) as Hnode
    by (by rewrite <- Repeat_replicate, node_toc_list_item, append_assoc).
  assert (regexp.has_newline indent = false →
          regexp.has_newline (Title md) = false →
          (IsDir md = false → regexp.has_newline (Path md) = false) →
          regexp.has_newline
            (String.concat "" (replicate (Level md - 2) indent)
             +:+ spec_list_item md) = false) as Hline.
  { intros Hindent Htitle Hpath.
    rewrite <- Repeat_replicate, has_newline_app, has_newline_Repeat by done.
    by apply spec_list_item_no_newline. }
  split_and!.
  - apply Repeat_replicate.
  - apply Repeat_length.
  - done.
  - by rewrite CreateTocTree_eq, Hnode.
  - intros Hch. rewrite <- Hnode.
    destruct md as [d ch t l p]. simpl in Hch. by subst ch.
  - done.
  - intros dirPath walked root err keys Hlist Hmd Hdir Hindent.
    destruct (ListMDFiles_doc_no_newline _ _ _ _ _ _ Hlist Hmd Hdir)
      as [Htitle Hpath].
    split; [|by apply Hline].
    destruct (Walk_root _ _ _ _ Hlist) as (_ & Hroot & _).
    destruct keys as [|key keys _] using rev_ind.
    + injection Hmd as <-. congruence.
    + apply ListMDFiles_node_shape in Hlist.
      pose proof (all_children_md_at _ _ _ _ _ Hlist Hmd) as Hshape.
      unfold node_shape in Hshape. rewrite Hdir in Hshape. apply Hshape.
  - unfold spec_list_item. by intros -> ->.
Qed.

Lemma C8_list_item_witness :
  let root := returned (ListMDFiles_fs "root" nested_fs) in
  let md := default zero_MDFileInfo (md_at root ["a"; "b"; "x.md"]) in
  let item := "  - [X](.%2Fa%2Fb%2Fx.md)" in
  2 ≤ Level md
  ∧ ListMDFiles "root" (fs_walk "root" "root" nested_fs) = Ok (root, None)
  ∧ md_at root ["a"; "b"; "x.md"] = Some md
  ∧ String.concat "" (replicate (Level md - 2) "  ") +:+ spec_list_item md
    = item
  ∧ node_toc md "  " = item +:+ LF
  ∧ CreateTocTree md "  " true = item +:+ LF
  ∧ regexp.has_newline item = false.
Proof.
  intros root md item.
  assert (2 ≤ Level md) as Hlevel by (vm_compute; lia).
  assert (ListMDFiles "root" (fs_walk "root" "root" nested_fs) = Ok (root, None))
    as Hlist by (vm_compute; reflexivity).
  assert (md_at root ["a"; "b"; "x.md"] = Some md) as Hmd
    by (vm_compute; reflexivity).
  assert (String.concat "" (replicate (Level md - 2) "  ")
          +:+ spec_list_item md = item) as Hitem by (vm_compute; reflexivity).
  destruct (C8_list_item md "  " true Hlevel)
    as (_ & _ & Hnode & _ & Hdoc & _ & Htree & _).
  destruct (Htree "root" _ root None ["a"; "b"; "x.md"] Hlist Hmd)
    as [Hch Hline]; [vm_compute; reflexivity|reflexivity|].
  rewrite Hitem in Hnode, Hdoc, Hline.
  split_and!; [exact Hlevel|exact Hlist|exact Hmd|exact Hitem|exact Hnode
              |exact (Hdoc Hch)|exact Hline].
Defined.




(** C10: when the first line that matches the pattern is a [#] followed by
    white space only, [GetMDTitle] returns the empty string whatever lines
    follow, a later heading included: the same result as for the lines
    before it alone, which hold no heading. *)
Theorem C10_empty_first_heading pre ws post stop :
  Forall (λ l, ¬ begins_h1 l) pre → ws ≠ "" → all_space ws →
  GetMDTitle (Opens (pre ++ ("#" +:+ ws) :: post) stop) = ""
  ∧ GetMDTitle (Opens (pre ++ ("#" +:+ ws) :: post) stop)
    = GetMDTitle (Opens pre stop).
Proof.
  intros Hpre Hne Hws.
  assert (GetMDTitle (Opens (pre ++ ("#" +:+ ws) :: post) stop) = "") as ->.
  { simpl. apply scan_title_first; [by apply not_begins_h1_none|].
    apply h1Regex_spec. exists ws. by rewrite append_empty_r. }
  split; [done|]. simpl. symmetry. by apply scan_title_none, not_begins_h1_none.
Qed.

Lemma C10_empty_first_heading_witness :
  GetMDTitle (Opens (["intro"] ++ ("#" +:+ " ") :: ["# Real Title"]) AtEOF) = ""
  ∧ GetMDTitle (Opens (["intro"] ++ ("#" +:+ " ") :: ["# Real Title"]) AtEOF)
    = GetMDTitle (Opens ["intro"] AtEOF).
Proof.
  apply C10_empty_first_heading; [|done|done].
  repeat constructor; intros (c & rest & H & Hc); by simplify_eq.
Defined.

(** * More properties of the program *)

(** X1: whatever the file, the title that [GetMDTitle] returns holds no
    newline and does not begin with white space: stripping the white space at
    its head leaves it as it is. *)
Theorem X1_title_is_clean file :
  regexp.has_newline (GetMDTitle file) = false
  ∧ regexp.skip_space (GetMDTitle file) = GetMDTitle file.
Proof. apply GetMDTitle_text. Qed.

(** X2: from the bytes of a file to its title.  When the file begins with
    lines that are no heading lines, each short enough for the scanner, and
    then holds the line [#], white space, [title], the title returned is
    [title] without its terminal carriage return, if it has one, whatever
    follows that line. *)
Theorem X2_heading_read_back pre ws title rest :
  Forall plain_line pre →
  ws ≠ "" → all_space ws → regexp.has_newline ws = false →
  title ≠ "" → regexp.skip_space title = title →
  regexp.has_newline title = false →
  bufio.fits ("#" +:+ ws +:+ title) = true →
  GetMDTitle (file_of (unlines pre +:+ ("#" +:+ ws +:+ title) +:+ LF +:+ rest))
  = bufio.dropCR title.
Proof. apply GetMDTitle_heading. Qed.

Lemma X2_heading_read_back_witness :
  let CR := String bufio.carriage_return "" in
  file_of (unlines ["---"; "## Not yet"] +:+ ("#" +:+ "  " +:+ ("The Guide" +:+ CR))
           +:+ LF +:+ "# Later" +:+ LF)
  = Opens ["---"; "## Not yet"; "#  The Guide"; "# Later"] AtEOF
  ∧ GetMDTitle
      (file_of (unlines ["---"; "## Not yet"]
                +:+ ("#" +:+ "  " +:+ ("The Guide" +:+ CR))
                +:+ LF +:+ "# Later" +:+ LF))
    = "The Guide".
Proof.
  intros CR. split; [vm_compute; reflexivity|].
  change "The Guide" with (bufio.dropCR ("The Guide" +:+ CR)) at 2.
  apply X2_heading_read_back; [|done|done|done|done|done|done|done].
  repeat constructor; intros (c & rest & H & Hc); by simplify_eq.
Defined.

(** X3: a line too long for the buffer of the scanner (64 KiB with its
    newline) stops the scan, and the program does not ask the scanner why:
    when such a line comes before the first heading line, the title is empty,
    whatever follows it, a heading line included. *)
Theorem X3_long_line_hides_title pre line rest :
  Forall plain_line pre →
  regexp.has_newline line = false → bufio.fits line = false →
  GetMDTitle (file_of (unlines pre +:+ line)) = ""
  ∧ GetMDTitle (file_of (unlines pre +:+ line +:+ LF +:+ rest)) = "".
Proof. apply GetMDTitle_too_long. Qed.

Lemma X3_long_line_hides_title_witness :
  let line := strings.Repeat "=" (N.to_nat 65536) in
  regexp.has_newline line = false ∧ bufio.fits line = false
  ∧ GetMDTitle (file_of (unlines [] +:+ line)) = ""
  ∧ GetMDTitle (file_of (unlines [] +:+ line +:+ LF +:+ "# Title" +:+ LF)) = "".
Proof.
  intros line.
  assert (regexp.has_newline line = false) as Hnl by (vm_compute; reflexivity).
  assert (bufio.fits line = false) as Hfits by (vm_compute; reflexivity).
  split; [exact Hnl|]. split; [exact Hfits|].
  apply X3_long_line_hides_title; [constructor|exact Hnl|exact Hfits].
Defined.

(** X4: in every tree that [ListMDFiles] returns, with or without an error,
    a directory below the root has its key, the name of the directory, as
    title, and a map of children that is not empty: a directory is in the
    tree only for a document filed below it. *)
Theorem X4_directories_of_the_tree dirPath walked root err keys key n :
  ListMDFiles dirPath walked = Ok (root, err) →
  md_at root (keys ++ [key]) = Some n → IsDir n = true →
  Title n = key ∧ ∃ ch, Children n = Some ch ∧ ch ≠ ∅.
Proof.
  intros Hlist Hn Hdir. apply ListMDFiles_node_shape in Hlist.
  pose proof (all_children_md_at _ _ _ _ _ Hlist Hn) as Hshape.
  unfold node_shape in Hshape. by rewrite Hdir in Hshape.
Qed.

Lemma X4_directories_of_the_tree_witness :
  let root := returned (ListMDFiles_fs "root" nested_fs) in
  let n := default zero_MDFileInfo (md_at root ["a"; "b"]) in
  ListMDFiles "root" (fs_walk "root" "root" nested_fs) = Ok (root, None)
  ∧ md_at root (["a"] ++ ["b"]) = Some n ∧ IsDir n = true
  ∧ Title n = "b" ∧ ∃ ch, Children n = Some ch ∧ ch ≠ ∅.
Proof.
  intros root n.
  assert (ListMDFiles "root" (fs_walk "root" "root" nested_fs) = Ok (root, None))
    as Hlist by (vm_compute; reflexivity).
  assert (md_at root (["a"] ++ ["b"]) = Some n) as Hn by (vm_compute; reflexivity).
  assert (IsDir n = true) as Hdir by (vm_compute; reflexivity).
  split; [exact Hlist|]. split; [exact Hn|]. split; [exact Hdir|].
  exact (X4_directories_of_the_tree _ _ _ _ _ _ _ Hlist Hn Hdir).
Defined.

(** X5: in every tree that [ListMDFiles] returns, the nodes below the root
    that are no directories are the nodes without a map of children; such a
    node is never filed under the key [README.md], and its title holds no
    newline and does not begin with white space. *)
Theorem X5_documents_of_the_tree dirPath walked root err keys key n :
  ListMDFiles dirPath walked = Ok (root, err) →
  md_at root (keys ++ [key]) = Some n →
  (IsDir n = false ↔ Children n = None)
  ∧ (IsDir n = false →
     key ≠ "README.md"
     ∧ regexp.has_newline (Title n) = false
     ∧ regexp.skip_space (Title n) = Title n).
Proof.
  intros Hlist Hn. apply ListMDFiles_node_shape in Hlist.
  pose proof (all_children_md_at _ _ _ _ _ Hlist Hn) as Hshape.
  unfold node_shape in Hshape. destruct (IsDir n).
  - destruct Hshape as (_ & ch & Hch & _). split; [|done].
    split; [done|]. by rewrite Hch.
  - destruct Hshape as (Hch & Hkey & Hnl & Hskip). by split.
Qed.

Lemma X5_documents_of_the_tree_witness :
  let root := returned (ListMDFiles_fs "root" guide_fs) in
  let n := default zero_MDFileInfo (md_at root ["docs"; "guide.md"]) in
  ListMDFiles "root" (fs_walk "root" "root" guide_fs) = Ok (root, None)
  ∧ md_at root (["docs"] ++ ["guide.md"]) = Some n
  ∧ (IsDir n = false ↔ Children n = None)
  ∧ (IsDir n = false →
     "guide.md" ≠ "README.md"
     ∧ regexp.has_newline (Title n) = false
     ∧ regexp.skip_space (Title n) = Title n).
Proof.
  intros root n.
  assert (ListMDFiles "root" (fs_walk "root" "root" guide_fs) = Ok (root, None))
    as Hlist by (vm_compute; reflexivity).
  assert (md_at root (["docs"] ++ ["guide.md"]) = Some n) as Hn
    by (vm_compute; reflexivity).
  split; [exact Hlist|]. split; [exact Hn|].
  exact (X5_documents_of_the_tree _ _ _ _ _ _ _ Hlist Hn).
Defined.

(** X6: with or without collisions, the tree that [ListMDFiles] returns
    never holds more documents than the walk met Markdown files before its
    first error. *)
Theorem X6_count_at_most_walked dirPath walked root err :
  ListMDFiles dirPath walked = Ok (root, err) →
  count_docs root
  ≤ length (filter (λ e, is_markdown e = true) (delivered walked)).
Proof.
  intros Hlist. apply Walk_count_le in Hlist.
  replace (count_docs root_MDFileInfo) with 0 in Hlist; [done|].
  simpl. by rewrite map_fold_empty.
Qed.

Lemma X6_count_at_most_walked_witness :
  let walked := fs_walk "docs/" "docs" colliding_fs in
  let root := returned (ListMDFiles_fs "docs/" colliding_fs) in
  ListMDFiles "docs/" walked = Ok (root, None)
  ∧ count_docs root
    ≤ length (filter (λ e, is_markdown e = true) (delivered walked)).
Proof.
  intros walked root.
  assert (ListMDFiles "docs/" walked = Ok (root, None)) as Hlist
    by (vm_compute; reflexivity).
  split; [exact Hlist|]. exact (X6_count_at_most_walked _ _ _ _ Hlist).
Defined.

(** X7: the function of the walk panics (an assignment to an entry of a nil
    map) exactly on a Markdown file, met without an error, whose directories
    lead through a node of the tree that has no map, a document; so does
    [ListMDFiles] on ["docs/"] with the file [.a.md] and the directory [a.md]
    that holds [x.md], both filed under the key [.a.md]. *)
Theorem X7_panic_on_blocked_directory :
  (∀ dirPath e root,
      walkFn dirPath e root = Panic
      ↔ we_err e = None ∧ is_markdown e = true
        ∧ ∃ keys n,
            keys `prefix_of` filter (λ d, d ≠ ".") (dirs_of dirPath e)
            ∧ md_at root keys = Some n ∧ Children n = None)
  ∧ doc_places "docs/" (fs_walk "docs/" "docs" blocked_fs)
    = [[".a.md"]; [".a.md"; "x.md"]]
  ∧ ListMDFiles_fs "docs/" blocked_fs = Panic
  ∧ ∀ title sortAsc getwd,
      main "docs/" title sortAsc getwd (fs_walk "docs/" "docs" blocked_fs)
      = Panic.
Proof.
  split; [apply walkFn_panic|]. split; [by vm_compute|].
  assert (ListMDFiles_fs "docs/" blocked_fs = Panic) as Hlist by (by vm_compute).
  split; [done|]. intros title sortAsc getwd. unfold main.
  unfold ListMDFiles_fs in Hlist.
  change (filepath.Base "docs/") with "docs" in Hlist. by rewrite Hlist.
Qed.

(** X8: when no two documents collide, the documents of the tree that
    [ListMDFiles] returns are the Markdown files that the walk met before its
    first error: each of them is found under its keys, the directories of its
    relative path and then its name, with the title of the file, the escaped
    relative path and the number of its keys as level; and every node of the
    tree that is no directory is found under the keys of one of them. *)
Theorem X8_documents_at_their_places dirPath walked :
  collision_free (doc_places dirPath (delivered walked)) →
  ∃ root,
    ListMDFiles dirPath walked = Ok (root, first_error walked)
    ∧ (∀ e, e ∈ delivered walked → is_markdown e = true →
            ∃ doc, md_at root (key_path dirPath e) = Some doc
                   ∧ IsDir doc = false
                   ∧ Title doc = GetMDTitle (we_file e)
                   ∧ Path doc = url.PathEscape (relPath dirPath e)
                   ∧ Level doc = length (key_path dirPath e))
    ∧ (∀ keys n, md_at root keys = Some n → IsDir n = false →
                 ∃ e, e ∈ delivered walked ∧ is_markdown e = true
                      ∧ keys = key_path dirPath e).
Proof.
  intros Hfree. pose proof (delivered_no_err walked) as Herr.
  destruct (Walk_filed dirPath (delivered walked) root_MDFileInfo []
              Herr filed_root Hfree) as (root & Hwalk & _).
  { apply Forall_forall. intros place _. constructor. }
  assert (ListMDFiles dirPath walked = Ok (root, first_error walked)) as Hlist.
  { unfold ListMDFiles. by rewrite Walk_delivered, Hwalk. }
  exists root. split_and!; [done| |].
  - intros e He Hmd.
    destruct (Walk_lookup dirPath (delivered walked) e Herr Hfree He Hmd)
      as (root' & doc & Hwalk' & Hdoc & Hdir & _ & Htitle & Hpath & Hlevel).
    rewrite Hwalk in Hwalk'. injection Hwalk' as <-. by exists doc.
  - intros keys n Hn Hdir.
    apply (Walk_documents dirPath (delivered walked) root None keys n);
      [done..|].
    destruct (Walk_root _ _ _ _ Hwalk) as (_ & Hroot & _).
    destruct keys as [|key keys _] using rev_ind.
    + injection Hn as <-. congruence.
    + apply ListMDFiles_node_shape in Hlist.
      pose proof (all_children_md_at _ _ _ _ _ Hlist Hn) as Hshape.
      unfold node_shape in Hshape. rewrite Hdir in Hshape. apply Hshape.
Qed.

Lemma X8_documents_at_their_places_witness :
  let walked := fs_walk "root" "root" guide_fs in
  collision_free (doc_places "root" (delivered walked))
  ∧ ∃ root,
      ListMDFiles "root" walked = Ok (root, first_error walked)
      ∧ (∀ e, e ∈ delivered walked → is_markdown e = true →
              ∃ doc, md_at root (key_path "root" e) = Some doc
                     ∧ IsDir doc = false
                     ∧ Title doc = GetMDTitle (we_file e)
                     ∧ Path doc = url.PathEscape (relPath "root" e)
                     ∧ Level doc = length (key_path "root" e))
      ∧ (∀ keys n, md_at root keys = Some n → IsDir n = false →
                   ∃ e, e ∈ delivered walked ∧ is_markdown e = true
                        ∧ keys = key_path "root" e).
Proof.
  intros walked.
  assert (collision_free (doc_places "root" (delivered walked))) as Hfree
    by (apply (bool_decide_unpack _); vm_compute; exact I).
  split; [exact Hfree|]. exact (X8_documents_at_their_places _ _ Hfree).
Defined.

(** X9: when the walk meets no error and no two documents collide, the
    result of [ListMDFiles] does not depend on the order in which the walk
    delivers the files: any other order of the same calls gives the same
    tree. *)
Theorem X9_order_of_the_walk dirPath walked1 walked2 :
  walked1 ≡ₚ walked2 →
  Forall (λ e, we_err e = None) walked1 →
  collision_free (doc_places dirPath walked1) →
  ListMDFiles dirPath walked1 = ListMDFiles dirPath walked2.
Proof. intros Hperm Herr Hfree. by apply Walk_perm. Qed.

Lemma X9_order_of_the_walk_witness :
  let walked := fs_walk "root" "root" nested_fs in
  reverse walked ≠ walked
  ∧ Forall (λ e, we_err e = None) walked
  ∧ collision_free (doc_places "root" walked)
  ∧ ListMDFiles "root" walked = ListMDFiles "root" (reverse walked).
Proof.
  intros walked.
  assert (Forall (λ e, we_err e = None) walked) as Herr by (repeat constructor).
  assert (collision_free (doc_places "root" walked)) as Hfree
    by (apply (bool_decide_unpack _); vm_compute; exact I).
  split; [by vm_compute|]. split; [exact Herr|]. split; [exact Hfree|].
  apply X9_order_of_the_walk; [|exact Herr|exact Hfree].
  symmetry. apply reverse_Permutation.
Defined.

(** X10: [CreateTocTree] leaves no node out: the rendering of every node of
    the tree, with all that is below it, is a part of the table of contents
    of the tree, in one piece. *)
Theorem X10_every_node_rendered md keys n indent sortAsc :
  md_at md keys = Some n →
  ∃ before after,
    CreateTocTree md indent sortAsc
    = before +:+ CreateTocTree n indent sortAsc +:+ after.
Proof. apply CreateTocTree_md_at. Qed.

Lemma X10_every_node_rendered_witness :
  let root := returned (ListMDFiles_fs "root" nested_fs) in
  let n := default zero_MDFileInfo (md_at root ["a"; "b"; "x.md"]) in
  md_at root ["a"; "b"; "x.md"] = Some n
  ∧ CreateTocTree n "  " true = "  - [X](.%2Fa%2Fb%2Fx.md)" +:+ LF
  ∧ ∃ before after,
      CreateTocTree root "  " true
      = before +:+ CreateTocTree n "  " true +:+ after.
Proof.
  intros root n.
  assert (md_at root ["a"; "b"; "x.md"] = Some n) as Hn
    by (vm_compute; reflexivity).
  split; [exact Hn|]. split; [vm_compute; reflexivity|].
  exact (X10_every_node_rendered _ _ _ _ _ Hn).
Defined.

(** X11: how [main] ends.  A table of contents is printed (with the newline
    of [fmt.Println]) only without [-out], and written only to the file named
    with [-out] and when [os.WriteFile] returns no error; either way the walk
    met no error, and the table begins with the heading line of the root:
    [# ], the title given with [-t] or, without it, the base name of the
    directory (of the working directory, when the directory is ["."]), and a
    newline.  When [main] ends in [log.Fatal], the error is the first one of
    the walk or, after a walk without an error and with [-out], the one that
    [os.WriteFile] returned for the table. *)
Theorem X11_main_heading wd outFile title sortAsc getwd walked write ex :
  main_exit wd outFile title sortAsc getwd walked write = Ok ex →
  match ex with
  | Printed text =>
      outFile = "" ∧ first_error walked = None
      ∧ ∃ toc rest,
          text = toc +:+ LF
          ∧ main wd title sortAsc getwd walked = Ok (Output toc)
          ∧ toc = "# " +:+ root_title wd title getwd +:+ LF +:+ rest
  | Written name toc =>
      name = outFile ∧ outFile ≠ "" ∧ write outFile toc = None
      ∧ first_error walked = None
      ∧ main wd title sortAsc getwd walked = Ok (Output toc)
      ∧ ∃ rest, toc = "# " +:+ root_title wd title getwd +:+ LF +:+ rest
  | LogFatal err =>
      first_error walked = Some err
      ∨ (first_error walked = None ∧ outFile ≠ ""
         ∧ ∃ toc, main wd title sortAsc getwd walked = Ok (Output toc)
                  ∧ write outFile toc = Some err)
  end.
Proof.
  rewrite main_exit_eq.
  destruct (main wd title sortAsc getwd walked) as [[err|toc]|] eqn:Hmain;
    [| |done]; cbn [and_then].
  - intros Hex. replace ex with (LogFatal err) by congruence.
    left. by apply main_Fatal in Hmain.
  - destruct (main_Output _ _ _ _ _ _ Hmain) as [Hnone [rest Hrest]].
    destruct (decide (outFile = "")) as [Hout|Hout].
    + intros Hex. replace ex with (Printed (toc +:+ LF)) by congruence.
      split_and!; [done..|]. by exists toc, rest.
    + destruct (write outFile toc) as [err|] eqn:Hwrite; intros Hex.
      * replace ex with (LogFatal err) by congruence.
        right. split_and!; [done..|]. by exists toc.
      * replace ex with (Written outFile toc) by congruence.
        split_and!; [done..|]. by exists rest.
Qed.

Lemma X11_main_heading_witness :
  let walked := fs_walk "." "." guide_fs in
  let toc := "# root" +:+ LF +:+ LF +:+ "## docs" +:+ LF +:+ LF
             +:+ "- [Guide](docs%2Fguide.md)" +:+ LF in
  let denied : string → string → option error := λ _ _, Some "denied" in
  let stored : string → string → option error := λ _ _, None in
  main_exit "." "" "" true "/srv/root" walked denied = Ok (Printed (toc +:+ LF))
  ∧ main_exit "." "TOC.md" "" true "/srv/root" walked stored
    = Ok (Written "TOC.md" toc)
  ∧ main_exit "." "TOC.md" "" true "/srv/root" walked denied
    = Ok (LogFatal "denied")
  ∧ (first_error walked = None
     ∧ ∃ rest, toc = "# " +:+ root_title "." "" "/srv/root" +:+ LF +:+ rest)
  ∧ (first_error walked = Some "denied"
     ∨ (first_error walked = None ∧ "TOC.md" ≠ ""
        ∧ ∃ toc', main "." "" true "/srv/root" walked = Ok (Output toc')
                  ∧ denied "TOC.md" toc' = Some "denied")).
Proof.
  intros walked toc denied stored.
  assert (main_exit "." "" "" true "/srv/root" walked denied
          = Ok (Printed (toc +:+ LF))) as Hprint by (vm_compute; reflexivity).
  assert (main_exit "." "TOC.md" "" true "/srv/root" walked stored
          = Ok (Written "TOC.md" toc)) as Hwrite by (vm_compute; reflexivity).
  assert (main_exit "." "TOC.md" "" true "/srv/root" walked denied
          = Ok (LogFatal "denied")) as Hfatal by (vm_compute; reflexivity).
  split; [exact Hprint|]. split; [exact Hwrite|]. split; [exact Hfatal|].
  split.
  - destruct (X11_main_heading _ _ _ _ _ _ _ _ Hwrite)
      as (_ & _ & _ & Hnone & _ & Hrest).
    by split.
  - exact (X11_main_heading _ _ _ _ _ _ _ _ Hfatal).
Defined.

(** X12: when the walk meets no error and no Markdown file other than
    [README.md], the table of contents is the heading line of the root and
    nothing else. *)
Theorem X12_no_document_no_entry wd title sortAsc getwd walked :
  Forall (λ e, we_err e = None) walked →
  Forall (λ e, is_markdown e = false) walked →
  main wd title sortAsc getwd walked
  = Ok (Output ("# " +:+ root_title wd title getwd +:+ LF)).
Proof.
  intros Herr Hnone. rewrite main_eq, ListMDFiles_nothing by done.
  cbn [and_then]. do 2 f_equal. rewrite CreateTocTree_eq.
  rewrite stringKeys_empty by done. rewrite fmap_nil.
  change (String.concat "" []) with "". rewrite append_empty_r.
  unfold node_toc. cbn [set_title Level root_MDFileInfo]. done.
Qed.

Lemma X12_no_document_no_entry_witness :
  let walked :=
    fs_walk "notes" "notes"
      (FSDir [("README.md", markdown ("# Readme" +:+ LF));
              ("img", FSDir [("logo.png", FSFile (Opens [] AtEOF))] None);
              ("todo.txt", FSFile (file_of ("# Todo" +:+ LF)))] None) in
  Forall (λ e, we_err e = None) walked
  ∧ Forall (λ e, is_markdown e = false) walked
  ∧ main "notes" "" true "/home/me" walked
    = Ok (Output ("# " +:+ root_title "notes" "" "/home/me" +:+ LF)).
Proof.
  intros walked.
  assert (Forall (λ e, we_err e = None) walked) as Herr by (repeat constructor).
  assert (Forall (λ e, is_markdown e = false) walked) as Hnone
    by (repeat constructor).
  split; [exact Herr|]. split; [exact Hnone|].
  exact (X12_no_document_no_entry _ _ _ _ _ Herr Hnone).
Defined.

(** X13: [url.PathEscape] loses nothing: two relative paths that differ
    have link targets that differ. *)
Theorem X13_link_targets_differ s1 s2 :
  s1 ≠ s2 → url.PathEscape s1 ≠ url.PathEscape s2.
Proof. intros Hne Heq. by apply Hne, PathEscape_inj. Qed.

Lemma X13_link_targets_differ_witness :
  "./a/b.md" ≠ "./a%2Fb.md"
  ∧ url.PathEscape "./a/b.md" ≠ url.PathEscape "./a%2Fb.md".
Proof.
  assert ("./a/b.md" ≠ "./a%2Fb.md") as Hne by discriminate.
  split; [exact Hne|]. exact (X13_link_targets_differ _ _ Hne).
Defined.

(** X14: the path kept in a node of a tree that [ListMDFiles] returns holds
    only bytes that [url.PathEscape] lets through and the [%] of its escapes:
    no closing parenthesis, no space and no newline, so that no path ends the
    link [[title](path)] before its end or breaks its line. *)
Theorem X14_paths_fit_a_link dirPath walked root err keys n :
  ListMDFiles dirPath walked = Ok (root, err) →
  md_at root keys = Some n →
  (∀ c, c ∈ String.list_ascii_of_string (Path n) →
        url.shouldEscape c = false ∨ c = "%"%char)
  ∧ (")"%char ∉ String.list_ascii_of_string (Path n))
  ∧ (" "%char ∉ String.list_ascii_of_string (Path n))
  ∧ bufio.newline ∉ String.list_ascii_of_string (Path n).
Proof.
  intros Hlist Hn.
  assert (forallb path_byte (String.list_ascii_of_string (Path n)) = true) as Hn'.
  { apply (ListMDFiles_paths
             (λ s, forallb path_byte (String.list_ascii_of_string s) = true))
      in Hlist; [|done|apply PathEscape_path_bytes].
    apply (all_nodes_md_at _ _ _ _ Hlist Hn). }
  rewrite forallb_forall in Hn'.
  assert (∀ c, c ∈ String.list_ascii_of_string (Path n) → path_byte c = true)
    as Hbytes by (intros c Hc; by apply Hn', list_elem_of_In).
  split_and!.
  - intros c Hc%Hbytes. unfold path_byte in Hc.
    apply orb_prop in Hc as [Hc%negb_true_iff|Hc%Ascii.eqb_eq]; auto.
  - by intros Hc%Hbytes.
  - by intros Hc%Hbytes.
  - by intros Hc%Hbytes.
Qed.

Lemma X14_paths_fit_a_link_witness :
  let walked :=
    fs_walk "root" "root"
      (FSDir [("my notes", FSDir [("a (draft).md", markdown ("# A" +:+ LF))]
                             None)] None) in
  let root := returned (ListMDFiles "root" walked) in
  let n := default zero_MDFileInfo (md_at root ["my notes"; "a (draft).md"]) in
  ListMDFiles "root" walked = Ok (root, None)
  ∧ md_at root ["my notes"; "a (draft).md"] = Some n
  ∧ Path n = ".%2Fmy%20notes%2Fa%20%28draft%29.md"
  ∧ (∀ c, c ∈ String.list_ascii_of_string (Path n) →
          url.shouldEscape c = false ∨ c = "%"%char)
  ∧ (")"%char ∉ String.list_ascii_of_string (Path n))
  ∧ (" "%char ∉ String.list_ascii_of_string (Path n))
  ∧ bufio.newline ∉ String.list_ascii_of_string (Path n).
Proof.
  intros walked root n.
  assert (ListMDFiles "root" walked = Ok (root, None)) as Hlist
    by (vm_compute; reflexivity).
  assert (md_at root ["my notes"; "a (draft).md"] = Some n) as Hn
    by (vm_compute; reflexivity).
  split; [exact Hlist|]. split; [exact Hn|]. split; [vm_compute; reflexivity|].
  exact (X14_paths_fit_a_link _ _ _ _ _ _ Hlist Hn).
Defined.

(** X15: the two versions of [ListMDFiles] build the same tree on every
    walk, stop at the same error and panic together: the tree of the later
    version is the tree of the earlier one with the names dropped and, below
    the root, the name of each directory as its title. *)
Theorem X15_versions_build_the_same_tree dirPath walked :
  ListMDFiles dirPath walked
  = match v1.ListMDFiles dirPath walked with
    | Ok (root, err) => Ok (upgrade root, err)
    | Panic => Panic
    end.
Proof. apply ListMDFiles_upgrade. Qed.

(** X16: the earlier [CreateTocTree] ranges over the map of children in an
    order that Go does not fix; the table of contents that the later version
    returns for the same tree, in ascending or in descending order, is one of
    those that the earlier version may return.  With [docs/a.md] and
    [docs/b.md] these are two tables: the earlier version does not determine
    its result. *)
Theorem X16_sorted_table_is_a_table :
  (∀ md indent sortAsc,
      v1.CreateTocTree indent md (CreateTocTree (upgrade md) indent sortAsc))
  ∧ ∃ root,
      v1.ListMDFiles "root" (fs_walk "root" "root" siblings_fs) = Ok (root, None)
      ∧ CreateTocTree (upgrade root) "  " true
        ≠ CreateTocTree (upgrade root) "  " false.
Proof.
  split; [apply CreateTocTree_upgrade|].
  eexists. split; [vm_compute; reflexivity|]. by vm_compute.
Qed.

(** X17: when the later [main] hands over a table of contents, the earlier
    [main] on the same flags and the same walk may write that table to the
    file named with [-out]; without [-out] it ends with nothing written and
    nothing printed. *)
Theorem X17_first_version_tables wd outFile title sortAsc getwd walked toc :
  main wd title sortAsc getwd walked = Ok (Output toc) →
  v1.main wd outFile title getwd walked
    (Ok (if decide (outFile = "") then v1.Nothing else v1.WriteFile outFile toc)).
Proof. apply main_upgrade. Qed.

Lemma X17_first_version_tables_witness :
  let walked := fs_walk "." "." guide_fs in
  let toc := "# root" +:+ LF +:+ LF +:+ "## docs" +:+ LF +:+ LF
             +:+ "- [Guide](docs%2Fguide.md)" +:+ LF in
  main "." "" true "/srv/root" walked = Ok (Output toc)
  ∧ v1.main "." "TOC.md" "" "/srv/root" walked (Ok (v1.WriteFile "TOC.md" toc))
  ∧ v1.main "." "" "" "/srv/root" walked (Ok v1.Nothing).
Proof.
  intros walked toc.
  assert (main "." "" true "/srv/root" walked = Ok (Output toc)) as Hmain
    by (vm_compute; reflexivity).
  split; [exact Hmain|]. split.
  - exact (X17_first_version_tables "." "TOC.md" "" true "/srv/root" walked toc
             Hmain).
  - exact (X17_first_version_tables "." "" "" true "/srv/root" walked toc Hmain).
Defined.

(** X18: the two versions of [main] fail alike.  On the same flags, the
    same walk and the same [os.WriteFile], the earlier one may panic exactly
    when the later one does; every error the later one ends in [log.Fatal]
    with is one the earlier one may end with; the earlier one ends in
    [log.Fatal] with the first error of the walk or, after a walk without an
    error and with [-out], with an error that [os.WriteFile] returned; when
    the walk met an error, or when no write fails, it ends in [log.Fatal] with
    the errors of the later one only; and without [-out] no run of it writes
    a file, nor fails on one. *)
Theorem X18_first_version_failures wd outFile title sortAsc getwd walked write :
  (v1.main_exit wd outFile title getwd walked write Panic
   ↔ main_exit wd outFile title sortAsc getwd walked write = Panic)
  ∧ (∀ err,
       main_exit wd outFile title sortAsc getwd walked write = Ok (LogFatal err) →
       v1.main_exit wd outFile title getwd walked write (Ok (v1.Fatal err)))
  ∧ (∀ err,
       v1.main_exit wd outFile title getwd walked write (Ok (v1.Fatal err)) →
       first_error walked = Some err
       ∨ (first_error walked = None ∧ outFile ≠ ""
          ∧ ∃ toc, write outFile toc = Some err))
  ∧ (is_Some (first_error walked) ∨ (∀ name data, write name data = None) →
     ∀ err,
       v1.main_exit wd outFile title getwd walked write (Ok (v1.Fatal err))
       ↔ main_exit wd outFile title sortAsc getwd walked write
         = Ok (LogFatal err))
  ∧ ∀ ex,
      v1.main_exit wd "" title getwd walked write ex →
      (∀ name data, ex ≠ Ok (v1.WriteFile name data))
      ∧ (∀ err, ex = Ok (v1.Fatal err) → first_error walked = Some err).
Proof.
  split_and!.
  - apply main_exit_panics_alike.
  - intros err. apply main_exit_fatal_upgrade.
  - intros err. apply v1_main_exit_fatal.
  - intros Hcase err. split.
    + by apply v1_main_exit_fatal_later.
    + apply main_exit_fatal_upgrade.
  - intros ex. apply v1_main_exit_without_out.
Qed.

(** X19: the earlier version names a document by [strings.TrimRight] of
    the file name with its extension as cutset, which takes every byte [.],
    [m] or [d] from the end, not the extension only: for a file [stem.md] the
    name is [stem] when [stem] does not end in one of these bytes, and is
    shorter when it does; [add.md] is named [a]. *)
Theorem X19_document_names p title path :
  (∀ stem, v1.Name (v1.doc_MDFileInfo p (stem +:+ ".md") title path)
           = v1.TrimRight stem ".md")
  ∧ (∀ stem c,
        v1.in_cutset ".md" c = false →
        v1.Name (v1.doc_MDFileInfo p ((stem +:+ String c "") +:+ ".md") title path)
        = stem +:+ String c "")
  ∧ (∀ stem c,
        v1.in_cutset ".md" c = true →
        v1.Name (v1.doc_MDFileInfo p ((stem +:+ String c "") +:+ ".md") title path)
        = v1.TrimRight stem ".md"
        ∧ v1.Name (v1.doc_MDFileInfo p ((stem +:+ String c "") +:+ ".md")
                     title path)
          ≠ stem +:+ String c "")
  ∧ v1.Name (v1.doc_MDFileInfo p "add.md" title path) = "a".
Proof.
  assert (∀ stem, v1.Name (v1.doc_MDFileInfo p (stem +:+ ".md") title path)
                  = v1.TrimRight stem ".md") as Hname.
  { intros stem. cbn [v1.Name v1.doc_MDFileInfo]. rewrite Ext_md.
    by apply TrimRight_app. }
  split_and!; [done| | |done].
  - intros stem c Hc. rewrite Hname. by apply TrimRight_keeps.
  - intros stem c Hc. rewrite Hname. by apply TrimRight_drops.
Qed.

(** X20: scanning a clean relative directory (the default [.], or names
    joined by separators as in [docs] or [a/b]) of a file system in which
    every directory holds ordinary names, each once, no two documents
    collide: [ListMDFiles] does not panic, it returns with the first error of
    the walk if there is one, and the tree holds one document for every
    Markdown file met before that error. *)
Theorem X20_clean_directory ds fs :
  Forall (λ n, file_name n = true) ds → well_named fs = true →
  ∃ root,
    ListMDFiles_fs (path_of ds) fs
    = Ok (root,
          first_error (fs_walk (path_of ds) (filepath.Base (path_of ds)) fs))
    ∧ count_docs root
      = length (filter (λ e, is_markdown e = true)
                  (delivered
                     (fs_walk (path_of ds) (filepath.Base (path_of ds)) fs))).
Proof.
  intros Hds Hfs. unfold ListMDFiles_fs.
  set (walked := fs_walk (path_of ds) (filepath.Base (path_of ds)) fs).
  assert (collision_free (doc_places (path_of ds) (delivered walked))) as Hfree.
  { eapply collision_free_sublist; [apply doc_places_delivered|].
    by apply walk_collision_free. }
  destruct (Walk_filed (path_of ds) (delivered walked) root_MDFileInfo []
              (delivered_no_err walked) filed_root Hfree)
    as (root & Hwalk & Hcount & _).
  { apply Forall_forall. intros place _. constructor. }
  exists root. split.
  - unfold ListMDFiles. by rewrite Walk_delivered, Hwalk.
  - rewrite Hcount, app_nil_r, length_reverse. unfold doc_places.
    by rewrite length_fmap.
Qed.

Lemma X20_clean_directory_witness :
  Forall (λ n, file_name n = true) ["docs"] ∧ well_named colliding_fs = true
  ∧ length (filter (λ e, is_markdown e = true)
              (delivered (fs_walk "docs" "docs" colliding_fs))) = 2
  ∧ ∃ root,
      ListMDFiles_fs (path_of ["docs"]) colliding_fs
      = Ok (root,
            first_error
              (fs_walk (path_of ["docs"]) (filepath.Base (path_of ["docs"]))
                 colliding_fs))
      ∧ count_docs root
        = length (filter (λ e, is_markdown e = true)
                    (delivered
                       (fs_walk (path_of ["docs"])
                          (filepath.Base (path_of ["docs"])) colliding_fs))).
Proof.
  assert (Forall (λ n, file_name n = true) ["docs"]) as Hds
    by (repeat constructor).
  assert (well_named colliding_fs = true) as Hfs by (vm_compute; reflexivity).
  split; [exact Hds|]. split; [exact Hfs|]. split; [vm_compute; reflexivity|].
  exact (X20_clean_directory ["docs"] colliding_fs Hds Hfs).
Defined.

(** X21: scanning a clean relative directory of a file system with ordinary
    names that the walk can read, every file [name] with the extension [.md],
    other than [README.md], that is stored under the directories [ns] is a
    document of the tree, under the keys [ns] and then [name]: with the title
    that [GetMDTitle] reads in it, the escaped relative path as link target,
    and the number of its keys as level. *)
Theorem X21_stored_document_found ds fs ns name file :
  Forall (λ n, file_name n = true) ds →
  well_named fs = true → readable fs = true →
  stored fs (ns ++ [name]) (FSFile file) →
  filepath.Ext name = ".md" → name ≠ "README.md" →
  ∃ root doc,
    ListMDFiles_fs (path_of ds) fs = Ok (root, None)
    ∧ md_at root (ns ++ [name]) = Some doc
    ∧ IsDir doc = false
    ∧ Title doc = GetMDTitle file
    ∧ Path doc = url.PathEscape (rel_path ds (ns ++ [name]))
    ∧ Level doc = length ns + 1.
Proof.
  intros Hds Hfs Hread Hstored Hext Hreadme. unfold ListMDFiles_fs, ListMDFiles.
  set (walked := fs_walk (path_of ds) (filepath.Base (path_of ds)) fs).
  set (e := entry (path_of (ds ++ ns ++ [name])) name false None file).
  destruct (stored_names _ _ _ Hstored Hfs) as [[Hns Hname]%Forall_app _].
  rewrite Forall_singleton in Hname.
  assert (e ∈ walked) as He.
  { pose proof (stored_walk ds fs (ns ++ [name]) file Hstored []
                  (filepath.Base (path_of ds)) name) as Hin.
    rewrite !app_nil_r in Hin. apply Hin; [done..|].
    by rewrite app_comm_cons, last_snoc. }
  assert (is_markdown e = true) as Hmd.
  { unfold is_markdown, e. cbn [entry we_info we_path InfoIsDir Name negb andb].
    rewrite app_assoc, Ext_path, Hext by done.
    by apply String.eqb_neq in Hreadme as ->. }
  destruct (Walk_lookup (path_of ds) walked e) as
    (root & doc & Hwalk & Hdoc & Hdir & _ & Htitle & Hpath & Hlevel);
    [by apply readable_walk|by apply walk_collision_free|done..|].
  rewrite (key_path_path ds ns name) in Hdoc, Hlevel by done.
  rewrite (relPath_path ds (ns ++ [name])) in Hpath by (done || by destruct ns).
  exists root, doc. split_and!; [done..|].
  by rewrite Hlevel, length_app.
Qed.

Lemma X21_stored_document_found_witness :
  let file := file_of ("# X" +:+ LF) in
  Forall (λ n, file_name n = true) ["srv"; "notes"]
  ∧ well_named nested_fs = true ∧ readable nested_fs = true
  ∧ stored nested_fs (["a"; "b"] ++ ["x.md"]) (FSFile file)
  ∧ filepath.Ext "x.md" = ".md" ∧ "x.md" ≠ "README.md"
  ∧ rel_path ["srv"; "notes"] (["a"; "b"] ++ ["x.md"]) = "./a/b/x.md"
  ∧ ∃ root doc,
      ListMDFiles_fs (path_of ["srv"; "notes"]) nested_fs = Ok (root, None)
      ∧ md_at root (["a"; "b"] ++ ["x.md"]) = Some doc
      ∧ IsDir doc = false
      ∧ Title doc = GetMDTitle file
      ∧ Path doc = url.PathEscape (rel_path ["srv"; "notes"] (["a"; "b"] ++ ["x.md"]))
      ∧ Level doc = length ["a"; "b"] + 1.
Proof.
  intros file.
  assert (Forall (λ n, file_name n = true) ["srv"; "notes"]) as Hds
    by (repeat constructor).
  assert (well_named nested_fs = true) as Hfs by (vm_compute; reflexivity).
  assert (readable nested_fs = true) as Hread by (vm_compute; reflexivity).
  assert (stored nested_fs (["a"; "b"] ++ ["x.md"]) (FSFile file)) as Hstored.
  { do 3 (eapply stored_below; [constructor|]). apply stored_here. }
  assert (filepath.Ext "x.md" = ".md") as Hext by reflexivity.
  assert ("x.md" ≠ "README.md") as Hreadme by discriminate.
  split; [exact Hds|]. split; [exact Hfs|]. split; [exact Hread|].
  split; [exact Hstored|]. split; [exact Hext|]. split; [exact Hreadme|].
  split; [reflexivity|].
  exact (X21_stored_document_found _ _ _ _ _ Hds Hfs Hread Hstored Hext Hreadme).
Defined.

(** X22: conversely, scanning a clean relative directory whose entries have
    ordinary names and can be read, every node of the tree that is no
    directory is a file stored under its keys in the file system, with the
    extension [.md] and not named [README.md], and has the title that
    [GetMDTitle] reads in that file. *)
Theorem X22_documents_are_stored_files ds entries root err keys n :
  Forall (λ n, file_name n = true) ds →
  well_named (FSDir entries None) = true →
  readable (FSDir entries None) = true →
  ListMDFiles_fs (path_of ds) (FSDir entries None) = Ok (root, err) →
  md_at root keys = Some n → IsDir n = false →
  ∃ ns name file,
    keys = ns ++ [name]
    ∧ stored (FSDir entries None) keys (FSFile file)
    ∧ filepath.Ext name = ".md" ∧ name ≠ "README.md"
    ∧ Title n = GetMDTitle file.
Proof.
  intros Hds Hfs Hread Hlist Hn Hdir. unfold ListMDFiles_fs in Hlist.
  set (fs := FSDir entries None) in *.
  set (walked := fs_walk (path_of ds) (filepath.Base (path_of ds)) fs) in *.
  pose proof (readable_walk fs (path_of ds) (filepath.Base (path_of ds)) Hread)
    as Herr.
  pose proof (walk_collision_free ds (filepath.Base (path_of ds)) fs Hds Hfs)
    as Hfree.
  assert (Children n = None) as Hch.
  { destruct (Walk_root _ _ _ _ Hlist) as (_ & Hroot & _).
    destruct keys as [|key keys _] using rev_ind.
    - injection Hn as <-. congruence.
    - apply ListMDFiles_node_shape in Hlist.
      pose proof (all_children_md_at _ _ _ _ _ Hlist Hn) as Hshape.
      unfold node_shape in Hshape. rewrite Hdir in Hshape. apply Hshape. }
  destruct (Walk_documents _ _ _ _ _ _ Herr Hfree Hlist Hn Hch)
    as (e & He & Hmd & Hkeys).
  destruct (walk_stored ds fs e [] (filepath.Base (path_of ds)))
    as (ns & Hstored & Hpath & Hname);
    [by rewrite app_nil_r|by apply is_markdown_file
    |by eapply Forall_forall in Herr|by rewrite app_nil_r|done|].
  destruct ns as [|name ns _] using rev_ind; [by inversion Hstored|].
  rewrite app_comm_cons, last_snoc in Hname. injection Hname as Hname.
  destruct (stored_names _ _ _ Hstored Hfs) as [[Hns Hfn]%Forall_app _].
  rewrite Forall_singleton in Hfn. cbn [app] in Hpath.
  rewrite (key_path_path ds ns name) in Hkeys by done.
  destruct (Walk_lookup (path_of ds) walked e Herr Hfree He Hmd)
    as (root' & doc & Hwalk & Hdoc & _ & _ & Htitle & _).
  rewrite (key_path_path ds ns name), <- Hkeys in Hdoc by done.
  unfold ListMDFiles in Hlist. rewrite Hlist in Hwalk.
  injection Hwalk as <- _. rewrite Hn in Hdoc. injection Hdoc as <-.
  exists ns, name, (we_file e). split_and!; [done|by rewrite Hkeys| | |done].
  - unfold is_markdown in Hmd. apply andb_prop in Hmd as [_ Hext].
    apply String.eqb_eq in Hext. by rewrite Hpath, app_assoc, Ext_path in Hext.
  - unfold is_markdown in Hmd. apply andb_prop in Hmd as [[_ Hreadme]%andb_prop _].
    apply negb_true_iff, String.eqb_neq in Hreadme. congruence.
Qed.

Lemma X22_documents_are_stored_files_witness :
  let entries :=
    [("README.md", markdown ("# Readme" +:+ LF));
     ("docs",
      FSDir [("guide.md", markdown ("# Guide" +:+ LF +:+ "text" +:+ LF))] None)] in
  let root := returned (ListMDFiles_fs "." (FSDir entries None)) in
  let n := default zero_MDFileInfo (md_at root ["docs"; "guide.md"]) in
  FSDir entries None = guide_fs
  ∧ Forall (λ n, file_name n = true) []
  ∧ well_named (FSDir entries None) = true
  ∧ readable (FSDir entries None) = true
  ∧ ListMDFiles_fs (path_of []) (FSDir entries None) = Ok (root, None)
  ∧ md_at root ["docs"; "guide.md"] = Some n ∧ IsDir n = false
  ∧ ∃ ns name file,
      ["docs"; "guide.md"] = ns ++ [name]
      ∧ stored (FSDir entries None) ["docs"; "guide.md"] (FSFile file)
      ∧ filepath.Ext name = ".md" ∧ name ≠ "README.md"
      ∧ Title n = GetMDTitle file.
Proof.
  intros entries root n.
  assert (well_named (FSDir entries None) = true) as Hfs
    by (vm_compute; reflexivity).
  assert (readable (FSDir entries None) = true) as Hread
    by (vm_compute; reflexivity).
  assert (ListMDFiles_fs (path_of []) (FSDir entries None) = Ok (root, None))
    as Hlist by (vm_compute; reflexivity).
  assert (md_at root ["docs"; "guide.md"] = Some n) as Hn
    by (vm_compute; reflexivity).
  assert (IsDir n = false) as Hdir by (vm_compute; reflexivity).
  split; [reflexivity|]. split; [constructor|]. split; [exact Hfs|].
  split; [exact Hread|]. split; [exact Hlist|]. split; [exact Hn|].
  split; [exact Hdir|].
  exact (X22_documents_are_stored_files [] entries root None
           ["docs"; "guide.md"] n (List.Forall_nil _) Hfs Hread Hlist Hn Hdir).
Defined.
